(** * ts-java: the class mapper of [lib/classes-map.ts]

    A shallow embedding of the parts of [ClassesMap] that decide which Java
    classes are in scope, translate Java type names to TypeScript type names,
    order overloaded method variants and merge the variants inherited from
    interfaces, and of the parts that scan the class path, prune the classes
    that are not public, name the classes and resolve their interfaces,
    together with the properties proved about them.

    Conventions.
    - JavaScript strings are [string]; a character is an [ascii] code unit.
    - A JS object used as a dictionary is a [gmap string _], the map of its
      own properties; an [Immutable.Set<string>] is a [gset string]; arrays
      are lists.
    - A method of the class is a computation in the monad [M]: it reads and
      updates the fields of the mapper and either returns, throws or aborts
      the process. Recursion and loops without a syntactic bound take fuel.
    - What Java reflection reports of a class is a value of [JavaClass]; the
      class loader and the jars of the class path are parameters of the
      functions that read them. The other functions work on names and on the
      tables the mapper has built. *)

From Stdlib Require Import ZArith Ascii String Sorting.Permutation Sorting.Sorted.
From stdpp Require Import base option list gmap strings fin_maps sorting.

Local Open Scope stdpp_scope.

(* ===================================================================== *)
(** * Part I: definitions                                                 *)
(* ===================================================================== *)

(** ** Characters and strings *)

Module Chars.

Definition code (c : ascii) : nat := nat_of_ascii c.

Definition between (lo hi : nat) (c : ascii) : bool :=
  (lo <=? code c)%nat && (code c <=? hi)%nat.

(** [\d] *)
Definition isDigit (c : ascii) : bool := between 48 57 c.

(** [\w], that is [A-Za-z0-9_] *)
Definition isWord (c : ascii) : bool :=
  between 65 90 c || between 97 122 c || isDigit c || Ascii.eqb c "_".

(** The characters the regular expression [.] does not match (below 256). *)
Definition isLineTerminator (c : ascii) : bool :=
  (code c =? 10)%nat || (code c =? 13)%nat.

Definition exactly (c : ascii) : ascii -> bool := Ascii.eqb c.

Definition either (p q : ascii -> bool) : ascii -> bool :=
  fun c => p c || q c.

Definition nothing : ascii -> bool := fun _ => false.

End Chars.

Module Str.

(** [s.slice(0, -n)], for a positive [n] *)
Definition dropLast (n : nat) (s : string) : string :=
  String.substring 0 (String.length s - n) s.

(** [s.replace(/x/g, r)] for a one-character class [x]: every character
    satisfying [p] is replaced by [r c]. *)
Fixpoint replaceEach (p : ascii -> bool) (r : ascii -> string) (s : string) : string :=
  match s with
  | EmptyString => EmptyString
  | String c s' =>
      (if p c then r c else String c EmptyString) +:+ replaceEach p r s'
  end.

Fixpoint forallb (p : ascii -> bool) (s : string) : bool :=
  match s with
  | EmptyString => true
  | String c s' => p c && forallb p s'
  end.

Fixpoint startsWith (pre s : string) : bool :=
  match pre, s with
  | EmptyString, _ => true
  | String a pre', String b s' => Ascii.eqb a b && startsWith pre' s'
  | String _ _, EmptyString => false
  end.

Definition isEmpty (s : string) : bool :=
  match s with EmptyString => true | _ => false end.

Fixpoint last (s : string) : option ascii :=
  match s with
  | EmptyString => None
  | String c EmptyString => Some c
  | String _ s' => last s'
  end.

(** Split at the last occurrence of [c]: the text before it and the text
    after it. *)
Fixpoint splitLast (c : ascii) (s : string) : option (string * string) :=
  match s with
  | EmptyString => None
  | String a s' =>
      match splitLast c s' with
      | Some (l, r) => Some (String a l, r)
      | None => if Ascii.eqb a c then Some (EmptyString, s') else None
      end
  end.

(** [s.slice(n)] *)
Definition dropFirst (n : nat) (s : string) : string :=
  String.substring n (String.length s - n) s.

(** No character of [s] is a line terminator: [s] can be matched by [.*]. *)
Definition oneLine (s : string) : bool :=
  forallb (fun c => negb (Chars.isLineTerminator c)) s.

End Str.

(** ** Regular expressions

    The fragment of the JavaScript regular-expression language that the
    mapper's tests and compiled package patterns use is modelled in full: the
    assertions [^] and [$] (no multiline flag), one-character matchers (a
    literal, an escaped character, [\w], [\d], a bracketed class of those) and
    the [+] quantifier on a one-character matcher. A pattern source outside
    the fragment is left to the engine of the runtime, which is a parameter:
    it rejects the source or gives its matcher. *)

Module RegExp.

Inductive Item : Type :=
| Bol                          (* ^ *)
| Eol                          (* $ *)
| One (p : ascii -> bool)      (* a single character in p *)
| Plus (p : ascii -> bool).    (* p+ *)

Definition Items : Type := list Item.

(** [matchHere re bol s]: [re] matches a prefix of [s]; [bol] tells whether
    [s] starts at index 0 of the subject. A quantifier backtracks, so a
    match exists iff some number of repetitions leads to one. *)
Fixpoint matchHere (re : Items) (bol : bool) (s : string) {struct re} : bool :=
  match re with
  | [] => true
  | Bol :: re' => bol && matchHere re' bol s
  | Eol :: re' => Str.isEmpty s && matchHere re' bol s
  | One p :: re' =>
      match s with
      | String c s' => p c && matchHere re' false s'
      | EmptyString => false
      end
  | Plus p :: re' =>
      (fix more (s : string) : bool :=
         match s with
         | String c s' => p c && (more s' || matchHere re' false s')
         | EmptyString => false
         end) s
  end.

Fixpoint search (re : Items) (bol : bool) (s : string) : bool :=
  matchHere re bol s ||
  match s with
  | String _ s' => search re false s'
  | EmptyString => false
  end.

(** A match of the items anywhere in [s]. *)
Definition matches (re : Items) (s : string) : bool := search re true s.

(** A regular expression object: one of the fragment, or one the engine
    compiled. *)
Inductive t : Type :=
| Compiled (re : Items)
| Native (accepts : string -> bool).

(** [re.test(s)], equivalently [s.match(re) !== null]. *)
Definition test (re : t) (s : string) : bool :=
  match re with
  | Compiled items => matches items s
  | Native accepts => accepts s
  end.

(** The engine on the sources outside the fragment: [None] for a
    SyntaxError. *)
Definition Engine : Type := string -> option (string -> bool).

(** *** [new RegExp(source)] *)

Inductive Token : Type :=
| TBol | TEol
| TAtom (p : ascii -> bool)
| TPlus.

Inductive Mode : Type :=
| Top                               (* outside a class *)
| Escaped                           (* after a backslash *)
| InClass (p : ascii -> bool)       (* inside [...] *)
| InClassEscaped (p : ascii -> bool).

(** The matcher of an escape [\c]; [None] for escapes outside the fragment. *)
Definition escape (c : ascii) : option (ascii -> bool) :=
  if Ascii.eqb c "w" then Some Chars.isWord
  else if Ascii.eqb c "d" then Some Chars.isDigit
  else if Chars.isWord c then None
  else Some (Chars.exactly c).

Definition isSyntax (c : ascii) : bool :=
  existsb (Ascii.eqb c)
    ["."; "*"; "?"; "("; ")"; "{"; "}"; "|"; "]"; "/"]%char.

Fixpoint lex (m : Mode) (s : string) : option (list Token) :=
  match s with
  | EmptyString => match m with Top => Some [] | _ => None end
  | String c s' =>
      match m with
      | Top =>
          if Ascii.eqb c "\" then lex Escaped s'
          else if Ascii.eqb c "[" then lex (InClass Chars.nothing) s'
          else if Ascii.eqb c "^" then cons TBol <$> lex Top s'
          else if Ascii.eqb c "$" then cons TEol <$> lex Top s'
          else if Ascii.eqb c "+" then cons TPlus <$> lex Top s'
          else if isSyntax c then None
          else cons (TAtom (Chars.exactly c)) <$> lex Top s'
      | Escaped =>
          p ← escape c; cons (TAtom p) <$> lex Top s'
      | InClass p =>
          if Ascii.eqb c "]" then cons (TAtom p) <$> lex Top s'
          else if Ascii.eqb c "\" then lex (InClassEscaped p) s'
          else if Ascii.eqb c "-" || Ascii.eqb c "^" then None
          else lex (InClass (Chars.either p (Chars.exactly c))) s'
      | InClassEscaped p =>
          q ← escape c; lex (InClass (Chars.either p q)) s'
      end
  end.

(** Attach each [+] to the one-character matcher before it. *)
Fixpoint items (ts : list Token) : option Items :=
  match ts with
  | [] => Some []
  | TAtom p :: TPlus :: ts' => cons (Plus p) <$> items ts'
  | TAtom p :: ts' => cons (One p) <$> items ts'
  | TBol :: ts' => cons Bol <$> items ts'
  | TEol :: ts' => cons Eol <$> items ts'
  | TPlus :: _ => None
  end.

(** [None] when the source is not in the modelled fragment. *)
Definition compile (source : string) : option Items :=
  lex Top source ≫= items.

End RegExp.

(** ** Data model *)

Inductive ParamContext : Type := eInput | eReturn.

(** Modelled from the spec: the interface [TsJavaOptions] of
    [lib/TsJavaOptions.ts], which is not among the sources. It is the
    configuration of the [tsjava] section of [package.json]; the fields are
    those the mapper reads. *)
Module TsJavaOptions.
Record t : Type := {
  classpath : list string;
  classes : list string;
  packages : list string;
  generics : bool
}.
End TsJavaOptions.

(** [MethodDefinition]: the properties of one method variant that the
    grouping, merging and ordering of variants read. *)
Record MethodDefinition : Type := {
  name : string;
  declared : string;
  returns : string;
  paramTypes : list string;
  tsParamTypes : list string;
  isStatic : bool;
  generic_proto : string;
  signature : string
}.

(** One method's variants, keyed by signature. *)
Abbreviation VariantsBySignature := (gmap string MethodDefinition).

(** All of one class's methods, by method name then by signature. *)
Abbreviation MethodsByNameBySignature := (gmap string (gmap string MethodDefinition)).

(** [ClassDefinition]: the properties of a mapped class that the inheritance
    algorithms read. *)
Record ClassDefinition : Type := {
  fullName : string;
  interfaces : list string;
  variantsDict : MethodsByNameBySignature
}.

Abbreviation ClassDefinitionMap := (gmap string ClassDefinition).

(** The fields of a [ClassesMap] instance, but for the two that hold
    reflective handles ([classCache], [Modifier]). [shortToLongNameMap] is
    [None] while it is [null]; in it a short name maps to [None] when it is
    ambiguous ([null]) and to its one owner otherwise. *)
Record ClassesMap : Type := {
  unhandledTypes : gset string;
  unhandledInterfaces : gset string;
  unhandledSuperClasses : gset string;
  options : TsJavaOptions.t;
  classes : ClassDefinitionMap;
  includedPatterns : list RegExp.t;
  shortToLongNameMap : option (gmap string (option string));
  allClasses : gset string;
  allExcludedClasses : gset string;
  interfaceDepthCache : gmap string nat
}.

Definition set_unhandledTypes (v : gset string) (st : ClassesMap) : ClassesMap :=
  {| unhandledTypes := v;
     unhandledInterfaces := unhandledInterfaces st;
     unhandledSuperClasses := unhandledSuperClasses st;
     options := options st;
     classes := classes st;
     includedPatterns := includedPatterns st;
     shortToLongNameMap := shortToLongNameMap st;
     allClasses := allClasses st;
     allExcludedClasses := allExcludedClasses st;
     interfaceDepthCache := interfaceDepthCache st |}.

Definition set_includedPatterns (v : list RegExp.t) (st : ClassesMap) : ClassesMap :=
  {| unhandledTypes := unhandledTypes st;
     unhandledInterfaces := unhandledInterfaces st;
     unhandledSuperClasses := unhandledSuperClasses st;
     options := options st;
     classes := classes st;
     includedPatterns := v;
     shortToLongNameMap := shortToLongNameMap st;
     allClasses := allClasses st;
     allExcludedClasses := allExcludedClasses st;
     interfaceDepthCache := interfaceDepthCache st |}.

Definition set_interfaceDepthCache (v : gmap string nat) (st : ClassesMap) : ClassesMap :=
  {| unhandledTypes := unhandledTypes st;
     unhandledInterfaces := unhandledInterfaces st;
     unhandledSuperClasses := unhandledSuperClasses st;
     options := options st;
     classes := classes st;
     includedPatterns := includedPatterns st;
     shortToLongNameMap := shortToLongNameMap st;
     allClasses := allClasses st;
     allExcludedClasses := allExcludedClasses st;
     interfaceDepthCache := v |}.

(** ** The monad of the mapper's methods *)

Inductive Outcome (A : Type) : Type :=
| Ok (a : A)                (* normal return *)
| Throw (msg : string)      (* an exception: Error, AssertionError, TypeError *)
| Abort (msg : string)      (* stackTrace: the process is aborted *)
| Unmodelled (why : string) (* outside the model: fuel exhausted, a key
                               inherited from Object.prototype *).

Arguments Ok {A} a.
Arguments Throw {A} msg.
Arguments Abort {A} msg.
Arguments Unmodelled {A} why.

Definition M (A : Type) : Type := ClassesMap -> Outcome (A * ClassesMap).

Definition ret {A : Type} (a : A) : M A := fun st => Ok (a, st).

Definition bind {A B : Type} (m : M A) (k : A -> M B) : M B :=
  fun st =>
    match m st with
    | Ok (a, st') => k a st'
    | Throw e => Throw e
    | Abort e => Abort e
    | Unmodelled e => Unmodelled e
    end.

Notation "'let*' x ':=' m 'in' k" := (bind m (fun x => k))
  (at level 10, x pattern, m at level 100, k at level 200).

Definition throw {A : Type} (msg : string) : M A := fun _ => Throw msg.
Definition abort {A : Type} (msg : string) : M A := fun _ => Abort msg.
Definition unmodelled {A : Type} (why : string) : M A := fun _ => Unmodelled why.
Definition read {A : Type} (field : ClassesMap -> A) : M A := fun st => Ok (field st, st).
Definition modify (f : ClassesMap -> ClassesMap) : M unit := fun st => Ok (tt, f st).

(** [assert.ok(b)] *)
Definition assert_ok (b : bool) : M unit :=
  if b then ret tt else throw "AssertionError".

Fixpoint mapM {A B : Type} (f : A -> M B) (l : list A) : M (list B) :=
  match l with
  | [] => ret []
  | x :: l' => let* y := f x in let* ys := mapM f l' in ret (y :: ys)
  end.

Fixpoint forEachM {A : Type} (f : A -> M unit) (l : list A) : M unit :=
  match l with
  | [] => ret tt
  | x :: l' => let* _ := f x in forEachM f l'
  end.

(** ** Inclusion: package expressions and the white list *)

Definition requiredCoreClasses : list string :=
  ["java.lang.Object"; "java.lang.String"].

(** [new RegExp(source)] *)
Definition newRegExp (engine : RegExp.Engine) (source : string) : M RegExp.t :=
  match RegExp.compile source with
  | Some re => ret (RegExp.Compiled re)
  | None =>
      match engine source with
      | Some accepts => ret (RegExp.Native accepts)
      | None => throw ("SyntaxError: Invalid regular expression: " +:+ source)
      end
  end.

(** [/\.\*$/] *)
Definition endsDotStar : RegExp.Items :=
  [RegExp.One (Chars.exactly "."); RegExp.One (Chars.exactly "*"); RegExp.Eol].

(** [/\.\*\*$/] *)
Definition endsDotStarStar : RegExp.Items :=
  [RegExp.One (Chars.exactly "."); RegExp.One (Chars.exactly "*");
   RegExp.One (Chars.exactly "*"); RegExp.Eol].

(** The source text handed to [new RegExp] by [packageExpressionToRegExp]. *)
Definition packageExpressionSource (expr : string) : string :=
  let expr :=
    if RegExp.matches endsDotStar expr then
      Str.dropLast 1 expr +:+ "[\w\$]+$"
    else if RegExp.matches endsDotStarStar expr then
      Str.dropLast 2 expr
    else expr in
  "^" +:+ Str.replaceEach (Chars.exactly ".") (fun _ => "\.") expr.

Definition packageExpressionToRegExp (engine : RegExp.Engine) (expr : string)
  : M RegExp.t :=
  newRegExp engine (packageExpressionSource expr).

(** [/\$\d+$/] *)
Definition anonymousClass : RegExp.Items :=
  [RegExp.One (Chars.exactly "$"); RegExp.Plus Chars.isDigit; RegExp.Eol].

Definition inWhiteList (className : string) : M bool :=
  let* patterns := read includedPatterns in
  let allowed := existsb (fun ns => RegExp.test ns className) patterns in
  if allowed then
    let isAnon := RegExp.matches anonymousClass className in
    if isAnon then ret false else ret allowed
  else ret allowed.

(** The source of the exact pattern of a seed class:
    ['^' + className.replace(/([\.\$])/g, '\\$1') + '$']. *)
Definition seedSource (className : string) : string :=
  "^" +:+
  Str.replaceEach (Chars.either (Chars.exactly ".") (Chars.exactly "$"))
    (fun c => String "\" (String c EmptyString)) className +:+
  "$".

(** [Immutable.Set(l).merge(more)], in insertion order. *)
Definition setMerge (l more : list string) : list string :=
  foldl (fun acc x => if bool_decide (x ∈ acc) then acc else acc ++ [x]) l more.

(** The body of the constructor's loop over the seed classes. *)
Definition addSeed (engine : RegExp.Engine) (className : string) : M unit :=
  let* listed := inWhiteList className in
  if negb listed then
    let* pattern := newRegExp engine (seedSource className) in
    modify (fun st => set_includedPatterns (includedPatterns st ++ [pattern]) st)
  else ret tt.

(** The fields as the constructor initialises them. *)
Definition blank (opts : TsJavaOptions.t) : ClassesMap :=
  {| unhandledTypes := ∅;
     unhandledInterfaces := ∅;
     unhandledSuperClasses := ∅;
     options := opts;
     classes := ∅;
     includedPatterns := [];
     shortToLongNameMap := None;
     allClasses := ∅;
     allExcludedClasses := ∅;
     interfaceDepthCache := ∅ |}.

(** [new ClassesMap(options)] *)
Definition constructor (engine : RegExp.Engine) (opts : TsJavaOptions.t)
  : Outcome ClassesMap :=
  let body : M unit :=
    let* patterns :=
      mapM (packageExpressionToRegExp engine) (TsJavaOptions.packages opts) in
    let* _ := modify (set_includedPatterns patterns) in
    let seeds := setMerge (setMerge [] requiredCoreClasses) (TsJavaOptions.classes opts) in
    forEachM (addSeed engine) seeds in
  match body (blank opts) with
  | Ok (_, st) => Ok st
  | Throw e => Throw e
  | Abort e => Abort e
  | Unmodelled e => Unmodelled e
  end.

(** ** Known class names *)

(** [genericTypeExp.exec(s)]: the two groups of the expression that matches
    a run of any characters, [<], a run of any characters and a final [>].
    The first run is greedy, so the first group extends to the last [<]. *)
Definition genericTypeExp (s : string) : option (string * string) :=
  if Str.oneLine s then
    match Str.splitLast "<" s with
    | Some (m1, rest) =>
        match Str.last rest with
        | Some ">"%char => Some (m1, Str.dropLast 1 rest)
        | _ => None
        end
    | None => None
    end
  else None.

(** [/^([\w\.]+)\.\1\$(.+)$/.exec(s)] with the first group of length [n]. *)
Definition nestedTypeAt (n : nat) (s : string) : option (string * string) :=
  let g := String.substring 0 n s in
  let rest := Str.dropFirst n s in
  let tail := Str.dropFirst (n + 2) rest in
  if (0 <? n)%nat && Str.forallb (Chars.either Chars.isWord (Chars.exactly ".")) g
     && Str.startsWith ("." +:+ g +:+ "$") rest
     && negb (Str.isEmpty tail) && Str.oneLine tail
  then Some (g, tail) else None.

(** The greedy first group is tried longest first. *)
Fixpoint nestedTypeFrom (n : nat) (s : string) : option (string * string) :=
  match n with
  | O => None
  | S k =>
      match nestedTypeAt n s with
      | Some m => Some m
      | None => nestedTypeFrom k s
      end
  end.

Definition fixGenericNestedTypeName (className : string) : string :=
  match nestedTypeFrom (String.length className) className with
  | Some (m1, m2) => m1 +:+ "$" +:+ m2
  | None => className
  end.

Definition classNameOnly (possiblyGenericClassName : string) : M string :=
  let m := genericTypeExp possiblyGenericClassName in
  let className := match m with Some (m1, _) => m1 | None => possiblyGenericClassName end in
  let className := fixGenericNestedTypeName className in
  let* all := read allClasses in
  let* excluded := read allExcludedClasses in
  let isKnown := bool_decide (className ∈ all) || bool_decide (className ∈ excluded) in
  if negb isKnown then
    throw (possiblyGenericClassName +:+ " is not a known className")
  else ret className.

Definition isIncludedClass (className : string) : M bool :=
  let* c := classNameOnly className in
  let* all := read allClasses in
  ret (bool_decide (c ∈ all)).

Definition isExcludedClass (className : string) : M bool :=
  let m := genericTypeExp className in
  let className := match m with Some (m1, _) => m1 | None => className end in
  let* excluded := read allExcludedClasses in
  let isExcluded := bool_decide (className ∈ excluded) in
  let* _ :=
    if negb isExcluded then
      let* all := read allClasses in
      let isKnown := bool_decide (className ∈ all) in
      if negb isKnown then throw (className +:+ " is not a known className")
      else ret tt
    else ret tt in
  ret isExcluded.

(** ** Type-name translation *)

(** The property names an object literal inherits from [Object.prototype]:
    [k in table] is true for them although the table does not list them. *)
Definition objectPrototypeKeys : list string :=
  ["constructor"; "toString"; "toLocaleString"; "valueOf"; "hasOwnProperty";
   "isPrototypeOf"; "propertyIsEnumerable"; "__proto__"; "__defineGetter__";
   "__defineSetter__"; "__lookupGetter__"; "__lookupSetter__"].

Definition tableGet (table : list (string * string)) (k : string) : option string :=
  snd <$> List.find (fun kv => String.eqb (fst kv) k) table.

(** [k in table ? table[k] : undefined] for a literal string table. *)
Definition lookupIn (table : list (string * string)) (k : string) : M (option string) :=
  if bool_decide (k ∈ objectPrototypeKeys)
  then unmodelled ("inherited property " +:+ k)
  else ret (tableGet table k).

(** [stackTrace(msg)]: print a trace and abort the process. *)
Definition stackTrace {A : Type} (msg : string) : M A := abort msg.

(** The loop of [jniDecodeType] that strips the leading [[] markers. *)
Fixpoint stripArrayMarkers (typeName : string) : string * string :=
  match typeName with
  | String "[" rest =>
      let '(t, ext) := stripArrayMarkers rest in (t, "[]" +:+ ext)
  | _ => (typeName, EmptyString)
  end.

(** The group of the expression that matches [L], a run of any characters
    and a final [;]. *)
Definition objectTypeExp (typeName : string) : option string :=
  match typeName with
  | String "L" rest =>
      match Str.last rest with
      | Some ";"%char =>
          let inner := Str.dropLast 1 rest in
          if Str.oneLine inner then Some inner else None
      | _ => None
      end
  | _ => None
  end.

Definition jniAbbreviations : list (string * string) :=
  [("B", "byte"); ("C", "char"); ("D", "double"); ("F", "float");
   ("I", "int"); ("J", "long"); ("S", "short"); ("Z", "boolean")].

Definition jniDecodeType (javaTypeName : string) (encodedTypes : bool)
  : M (string * string) :=
  let '(typeName, ext) := stripArrayMarkers javaTypeName in
  let* _ :=
    if negb (Str.isEmpty ext) && negb encodedTypes
    then stackTrace javaTypeName else ret tt in
  let* typeName :=
    match objectTypeExp typeName with
    | Some inner => if negb encodedTypes then stackTrace javaTypeName else ret inner
    | None => ret typeName
    end in
  let* abbreviated := lookupIn jniAbbreviations typeName in
  match abbreviated with
  | Some t => if negb encodedTypes then stackTrace javaTypeName else ret (t, ext)
  | None => ret (typeName, ext)
  end.

Definition primitiveToObjectMap : list (string * string) :=
  [("byte", "java.lang.Object"); ("char", "java.lang.Object");
   ("boolean", "java.lang.Boolean"); ("short", "java.lang.Short");
   ("long", "java.lang.Long"); ("int", "java.lang.Integer");
   ("float", "java.lang.Float"); ("double", "java.lang.Double")].

Definition boxIfJavaPrimitive (typeName : string) : M string :=
  let* boxed := lookupIn primitiveToObjectMap typeName in
  ret (default typeName boxed).

Definition mapUnhandledTypesToJavaLangObject (typeName : string) : M string :=
  if bool_decide (typeName = "void") then ret typeName
  else
    let* included := isIncludedClass typeName in
    if negb included then
      let* _ := modify (fun st => set_unhandledTypes (unhandledTypes st ∪ {[typeName]}) st) in
      ret "java.lang.Object"
    else ret typeName.

Definition javaTypeToTypescriptType (context : ParamContext) : list (string * string) :=
  let pick (input output : string) :=
    match context with eInput => input | eReturn => output end in
  [("void", "void");
   ("java.lang.Boolean", pick "boolean_t" "boolean");
   ("java.lang.Double", pick "double_t" "number");
   ("java.lang.Float", pick "float_t" "number");
   ("java.lang.Integer", pick "integer_t" "number");
   ("java.lang.Long", pick "long_t" "longValue_t");
   ("java.lang.Number", pick "number_t" "number");
   ("java.lang.Object", pick "object_t" "object_t");
   ("java.lang.Short", pick "short_t" "number");
   ("java.lang.String", pick "string_t" "string")].

Definition mapJavaPrimitivesToTypescript (typeName : string) (context : ParamContext)
  : M string :=
  let* mapped := lookupIn (javaTypeToTypescriptType context) typeName in
  ret (default typeName mapped).

(** [_.last(className.split('.'))] *)
Definition shortClassName (className : string) : string :=
  match Str.splitLast "." className with
  | Some (_, short) => short
  | None => className
  end.

Definition getJavaAliasName (className : string) : M string :=
  let typeName := className in
  let* included := isIncludedClass typeName in
  let* _ := assert_ok included in
  let shortName := shortClassName typeName in
  let* map := read shortToLongNameMap in
  match map with
  | None => throw "TypeError: Cannot read property of null"
  | Some map =>
      let typeName :=
        if bool_decide (map !! shortName = Some (Some typeName))
        then shortName else typeName in
      ret ("Java." +:+ typeName)
  end.

(** Lines 383-396 of [tsTypeName]: the translation of the element type. *)
Definition tsElementTypeName (typeName : string) (context : ParamContext) : M string :=
  let* typeName := boxIfJavaPrimitive typeName in
  let* typeName := mapUnhandledTypesToJavaLangObject typeName in
  let* mappedType := mapJavaPrimitivesToTypescript typeName context in
  if negb (String.eqb mappedType typeName) || String.eqb typeName "void" then
    ret mappedType
  else
    let* included := isIncludedClass typeName in
    if included then getJavaAliasName typeName
    else
      let* _ := modify (fun st => set_unhandledTypes (unhandledTypes st ∪ {[typeName]}) st) in
      ret "any".

(** Lines 398-421 of [tsTypeName]: the array suffix [ext]. *)
Definition tsArrayTypeName (typeName ext : string) (context : ParamContext) : M string :=
  let* _ := assert_ok (Nat.even (String.length ext)) in
  if String.eqb ext "" then ret typeName
  else
    match context with
    | eReturn => ret (typeName +:+ ext)
    | eInput =>
        if String.eqb ext "[]" then ret ("array_t<" +:+ typeName +:+ ">")
        else
          let* _ := modify (fun st =>
            set_unhandledTypes (unhandledTypes st ∪ {[typeName +:+ ext]}) st) in
          ret "void"
    end.

Definition tsTypeName (javaTypeName : string) (context : ParamContext)
    (encodedTypes : bool) : M string :=
  let* decoded := jniDecodeType javaTypeName encodedTypes in
  let '(typeName, ext) := decoded in
  let* typeName := tsElementTypeName typeName context in
  tsArrayTypeName typeName ext context.

Definition tsTypeNameInputEncoded (javaTypeName : string) : M string :=
  tsTypeName javaTypeName eInput true.

(** ** Ordering the variants of a method *)

Section CompareVariants.

(** [a.localeCompare(b)]: negative, zero or positive. The collation is the
    runtime's; it is a parameter of the comparator. *)
Variable localeCompare : string -> string -> Z.

Definition countArgsOfTypeAny (a : MethodDefinition) : nat :=
  length (filter (fun t => t = "any") (tsParamTypes a)).

Definition compareVariants (a b : MethodDefinition) : Z :=
  if (length (paramTypes b) <? length (paramTypes a))%nat then (-1)%Z
  else if (length (paramTypes a) <? length (paramTypes b))%nat then 1%Z
  else if (countArgsOfTypeAny a <? countArgsOfTypeAny b)%nat then (-1)%Z
  else if (countArgsOfTypeAny b <? countArgsOfTypeAny a)%nat then 1%Z
  else if (String.length (signature b) <? String.length (signature a))%nat then (-1)%Z
  else if (String.length (signature a) <? String.length (signature b))%nat then 1%Z
  else
    let result := localeCompare (signature b) (signature a) in
    if negb (result =? 0)%Z then result
    else localeCompare (generic_proto a) (generic_proto b).

End CompareVariants.

(** [d[k] = v] for an object literal whose own properties are [d]: the
    property is added or replaced, but for [__proto__], whose assignment
    sets the prototype of the object and gives it no property of its own. *)
Definition assignProperty {A : Type} (k : string) (v : A) (d : gmap string A)
  : gmap string A :=
  if String.eqb k "__proto__" then d else <[k := v]> d.

(** The body of the loop of [groupMethods]. After the first statement
    [result[method.name]] is the group of the name or, for the name
    [__proto__], the prototype just set, which is no property of [result]. *)
Definition addMethod (result : MethodsByNameBySignature) (method : MethodDefinition)
  : MethodsByNameBySignature :=
  let result :=
    if bool_decide (is_Some (result !! name method)) then result
    else assignProperty (name method) ∅ result in
  match result !! name method with
  | Some variants =>
      <[name method := assignProperty (signature method) method variants]> result
  | None => result
  end.

(** [groupMethods]: group methods first by name, then by signature. The
    dictionaries are the own properties of the objects built. *)
Definition groupMethods (flatList : list MethodDefinition) : MethodsByNameBySignature :=
  foldl addMethod ∅ flatList.

(** ** The work list *)

(** Modelled from the spec: the class [Work] of [lib/work.ts], which is not
    among the sources. A FIFO queue of names with a done set: [addTodo]
    enqueues a name unless it is done or pending, [forEach] drains the queue,
    visiting each name once and marking it done after the visit while the
    visitor may enqueue further names, and [getDone] is the done set in the
    order of completion. *)
Module Work.

Record t : Type := { todo : list string; done : list string }.

Definition new : t := {| todo := []; done := [] |}.

Definition addTodo (item : string) (w : t) : t :=
  if bool_decide (item ∈ done w) || bool_decide (item ∈ todo w) then w
  else {| todo := todo w ++ [item]; done := done w |}.

Definition alreadyDone (item : string) (w : t) : bool :=
  bool_decide (item ∈ done w).

Definition setDone (item : string) (w : t) : t :=
  {| todo := filter (fun x => x ≠ item) (todo w);
     done := if bool_decide (item ∈ done w) then done w else done w ++ [item] |}.

Definition getDone (w : t) : list string := done w.

(** [fuel] bounds the number of visits. *)
Fixpoint forEach (fuel : nat) (visitor : string -> t -> M t) (w : t) : M t :=
  match todo w with
  | [] => ret w
  | item :: _ =>
      match fuel with
      | O => unmodelled "fuel"
      | S fuel' =>
          let* w' := visitor item w in
          forEach fuel' visitor (setDone item w')
      end
  end.

End Work.

(** ** Inherited interfaces *)

(** [this.classes[intf]] followed by a property access, which throws a
    TypeError when the table has no such class. *)
Definition classOf (intf : string) : M ClassDefinition :=
  let* table := read classes in
  match table !! intf with
  | Some c => ret c
  | None => throw ("TypeError: Cannot read property of undefined: " +:+ intf)
  end.

Definition addAll (items : list string) (work : Work.t) : Work.t :=
  foldl (fun w item => Work.addTodo item w) work items.

Definition interfacesTransitiveClosure (fuel : nat) (directInterfaces : list string)
  : M (list string) :=
  let work := addAll directInterfaces Work.new in
  let* work :=
    Work.forEach fuel
      (fun intf work => let* c := classOf intf in ret (addAll (interfaces c) work))
      work in
  ret (Work.getDone work).

(** [fuel] bounds the depth of the recursion; a cache hit needs none. *)
Fixpoint interfaceDepth (fuel : nat) (intf : string) {struct fuel} : M nat :=
  let* cache := read interfaceDepthCache in
  match cache !! intf with
  | Some d => ret d
  | None =>
      match fuel with
      | O => unmodelled "fuel"
      | S fuel' =>
          let* c := classOf intf in
          let parents := interfaces c in
          let* intfDepth :=
            if (0 <? length parents)%nat then
              let* depths := mapM (interfaceDepth fuel') parents in
              ret (max_list depths + 1)%nat
            else ret 0%nat in
          let* _ := modify (fun st =>
            set_interfaceDepthCache (<[intf := intfDepth]> (interfaceDepthCache st)) st) in
          ret intfDepth
      end
  end.

(** [Array.prototype.sort(comparefn)]. The language leaves the order of
    elements that compare equal to the engine; the model is the stable
    insertion sort. The comparator is a method call and may update the
    mapper. *)
Fixpoint insertM {A : Type} (comparefn : A -> A -> M Z) (x : A) (l : list A)
  : M (list A) :=
  match l with
  | [] => ret [x]
  | y :: l' =>
      let* c := comparefn x y in
      if (c <=? 0)%Z then ret (x :: y :: l')
      else let* r := insertM comparefn x l' in ret (y :: r)
  end.

Fixpoint sortM {A : Type} (comparefn : A -> A -> M Z) (l : list A) : M (list A) :=
  match l with
  | [] => ret []
  | x :: l' => let* sorted := sortM comparefn l' in insertM comparefn x sorted
  end.

(** [_.assign(target, source)]: the own properties of [source] are written
    into [target], replacing the properties [target] already has. *)
Definition assign (target source : VariantsBySignature) : VariantsBySignature :=
  source ∪ target.

Fixpoint foldlM {A B : Type} (f : B -> A -> M B) (acc : B) (l : list A) : M B :=
  match l with
  | [] => ret acc
  | x :: l' => let* acc' := f acc x in foldlM f acc' l'
  end.

(** The comparator of [mergeOverloadedVariants]. *)
Definition byDepthDescending (fuel : nat) (intf1 intf2 : string) : M Z :=
  let* d2 := interfaceDepth fuel intf2 in
  let* d1 := interfaceDepth fuel intf1 in
  ret (Z.of_nat d2 - Z.of_nat d1)%Z.

(** The inner loop of [mergeOverloadedVariants] for one method name. *)
Definition mergeVariantsOf (methodName : string) (interfaces : list string)
    (methodVariants : VariantsBySignature) : M VariantsBySignature :=
  foldlM (fun variants intfName =>
            let* c := classOf intfName in
            let intfVariantsDict := variantsDict c in
            match intfVariantsDict !! methodName with
            | Some inherited => ret (assign variants inherited)
            | None => ret variants
            end)
         methodVariants interfaces.

(** [mergeOverloadedVariants] updates [variantsDict] in place; the model
    returns the updated dictionary. *)
Definition mergeOverloadedVariants (fuel : nat) (variantsDict : MethodsByNameBySignature)
    (directInterfaces : list string) : M MethodsByNameBySignature :=
  let* closure := interfacesTransitiveClosure fuel directInterfaces in
  let* interfaces := sortM (byDepthDescending fuel) closure in
  let* merged :=
    mapM (fun entry : string * VariantsBySignature =>
            let* variants := mergeVariantsOf entry.1 interfaces entry.2 in
            ret (entry.1, variants))
         (map_to_list variantsDict) in
  ret (list_to_map merged).


(* ===================================================================== *)
(** * Specification vocabulary                                            *)
(* ===================================================================== *)

(** ** Known class names *)

(** The class name an argument denotes: the argument without its generic
    suffix. *)
Definition classNamePart (s : string) : string :=
  match genericTypeExp s with
  | Some (m1, _) => m1
  | None => s
  end.

(** A name seen while scanning the class path. *)
Definition observed (st : ClassesMap) (className : string) : bool :=
  bool_decide (className ∈ allClasses st) ||
  bool_decide (className ∈ allExcludedClasses st).


(** ** Arrays *)

(** The number of array dimensions of a JNI type name: its leading [[]s. *)
Fixpoint arrayDepth (javaTypeName : string) : nat :=
  match javaTypeName with
  | String "[" rest => S (arrayDepth rest)
  | _ => O
  end.

(** [n] bracket pairs. *)
Fixpoint brackets (n : nat) : string :=
  match n with
  | O => EmptyString
  | S k => String "[" (String "]" (brackets k))
  end.

(** ** Orders of variants *)

Section TotalPreorders.

Context {A : Type}.

(** [cmp a b] is [Lt] when [a] goes first, [Gt] when [b] goes first and
    [Eq] on a tie. *)
Record TotalPreorderCmp (cmp : A -> A -> comparison) : Prop := {
  tp_refl : forall a, cmp a a = Eq;
  tp_antisym : forall a b, cmp b a = CompOpp (cmp a b);
  tp_trans : forall a b c, cmp a b <> Gt -> cmp b c <> Gt -> cmp a c <> Gt
}.

Fixpoint lexicographic (keys : list (A -> A -> comparison)) (a b : A) : comparison :=
  match keys with
  | [] => Eq
  | k :: keys' =>
      match k a b with
      | Eq => lexicographic keys' a b
      | c => c
      end
  end.

End TotalPreorders.

(** The sign of a comparator result: [Lt] for negative (first argument goes
    first), [Gt] for positive. *)
Definition sign (z : Z) : comparison := (z ?= 0)%Z.

Definition moreFirst (f : MethodDefinition -> nat) (a b : MethodDefinition) : comparison :=
  Nat.compare (f b) (f a).

Definition fewerFirst (f : MethodDefinition -> nat) (a b : MethodDefinition) : comparison :=
  Nat.compare (f a) (f b).

(** The number of parameters of a variant whose translated type is the top
    type [any]: the occurrences of that name among the translated parameter
    types. *)
Definition anyParameters (v : MethodDefinition) : nat :=
  count_occ String.string_dec (tsParamTypes v) "any".

Section VariantKeys.

Variable localeCompare : string -> string -> Z.

Definition ascending (f : MethodDefinition -> string) (a b : MethodDefinition)
  : comparison := sign (localeCompare (f a) (f b)).

Definition descending (f : MethodDefinition -> string) (a b : MethodDefinition)
  : comparison := sign (localeCompare (f b) (f a)).

(** (a) more parameters first; (b) fewer parameters of type [any] first;
    (c) longer signature first; (d) by signature, descending; (e) by
    generic prototype, ascending. *)
Definition variantKeys : list (MethodDefinition -> MethodDefinition -> comparison) :=
  [ moreFirst (fun v => length (paramTypes v));
    fewerFirst countArgsOfTypeAny;
    moreFirst (fun v => String.length (signature v));
    descending signature;
    ascending generic_proto ].

End VariantKeys.

(** The laws of a collation: comparing by [localeCompare] is a total
    preorder on strings. *)
Definition Collation (localeCompare : string -> string -> Z) : Prop :=
  TotalPreorderCmp (fun s t => sign (localeCompare s t)).

(** The order of code units, a collation. *)
Definition codeUnitCompare (s t : string) : Z :=
  match String.compare s t with
  | Lt => (-1)%Z
  | Eq => 0%Z
  | Gt => 1%Z
  end.

(** A dictionary of variants in which every key is the signature of its
    variant, as [groupMethods] builds them. *)
Definition keyedBySignature (d : VariantsBySignature) : Prop :=
  forall k v, d !! k = Some v -> signature v = k.

(** The strict order a comparator induces, and its incomparability. *)
Definition before (cmp : MethodDefinition -> MethodDefinition -> Z)
    (a b : MethodDefinition) : Prop := (cmp a b < 0)%Z.

Definition incomparable (cmp : MethodDefinition -> MethodDefinition -> Z)
    (a b : MethodDefinition) : Prop := ~ before cmp a b /\ ~ before cmp b a.

(** ** Package expressions *)

(** Character classes of names. *)
Definition wordOrDot : ascii -> bool :=
  Chars.either Chars.isWord (Chars.exactly ".").

Definition wordOrDollar : ascii -> bool :=
  Chars.either Chars.isWord (Chars.exactly "$").

Definition wordDotOrDollar : ascii -> bool :=
  Chars.either wordOrDot (Chars.exactly "$").

(** The expression that matches the text [s] literally. *)
Definition literal (s : string) : RegExp.Items :=
  map (fun c => RegExp.One (Chars.exactly c)) (list_ascii_of_string s).

(** [s] without its prefix [pre], when it has that prefix. *)
Fixpoint stripPrefix (pre s : string) : option string :=
  match pre, s with
  | EmptyString, _ => Some s
  | String a pre', String b s' => if Ascii.eqb a b then stripPrefix pre' s' else None
  | String _ _, EmptyString => None
  end.

(** The escaping of a seed class name: [className.replace(/([\.\$])/g, '\\$1')]. *)
Definition escapeSeed (className : string) : string :=
  Str.replaceEach (Chars.either (Chars.exactly ".") (Chars.exactly "$"))
    (fun c => String "\" (String c EmptyString)) className.

(** The escaping of a package expression: [expr.replace(/\./g, '\\.')]. *)
Definition escapeDots (expr : string) : string :=
  Str.replaceEach (Chars.exactly ".") (fun _ => "\.") expr.

(** The class [[\w\$]] as the lexer builds it. *)
Definition classWordDollar : ascii -> bool :=
  Chars.either (Chars.either Chars.nothing Chars.isWord) (Chars.exactly "$").

(** No quantifier follows: the token before keeps its meaning. *)
Definition noPlusAhead (ts : list RegExp.Token) : Prop :=
  match ts with
  | RegExp.TPlus :: _ => False
  | _ => True
  end.

(** The decision of [inWhiteList] for a set of compiled patterns. *)
Definition listed (patterns : list RegExp.t) (className : string) : bool :=
  existsb (fun ns => RegExp.test ns className) patterns &&
  negb (RegExp.matches anonymousClass className).

(** A package expression in one of its three forms over a dotted name. *)
Definition wellFormedExpression (expr : string) : Prop :=
  exists p, Str.forallb wordOrDot p = true /\
            (expr = p \/ expr = p +:+ ".*" \/ expr = p +:+ ".**").

Definition packagesOnly (packages : list string) : TsJavaOptions.t :=
  {| TsJavaOptions.classpath := []; TsJavaOptions.classes := [];
     TsJavaOptions.packages := packages; TsJavaOptions.generics := false |}.

(** An engine that knows nothing beyond the fragment. *)
Definition fragmentOnly : RegExp.Engine := fun _ => None.

(** ** Interface depth *)

(** The recurrence of the specification: a class without parents has depth
    0; a class with parents has depth one more than the greatest depth of a
    parent. *)
#[warnings="-register-all"] Inductive Depth (table : ClassDefinitionMap)
  : string -> nat -> Prop :=
| Depth_root (c : string) (cd : ClassDefinition) :
    table !! c = Some cd -> interfaces cd = [] -> Depth table c 0
| Depth_parents (c : string) (cd : ClassDefinition) (depths : list nat) :
    table !! c = Some cd -> interfaces cd <> [] ->
    Forall2 (Depth table) (interfaces cd) depths ->
    Depth table c (max_list depths + 1).

(** Every cached depth is the depth of its class. *)
Definition cacheConsistent (st : ClassesMap) : Prop :=
  forall c d, interfaceDepthCache st !! c = Some d -> Depth (classes st) c d.

(** [st'] is [st] with more depths cached. *)
Definition extends (st st' : ClassesMap) : Prop :=
  st' = set_interfaceDepthCache (interfaceDepthCache st') st /\
  interfaceDepthCache st ⊆ interfaceDepthCache st'.

(** ** Inherited interfaces and merged variants *)

(** The transitive closure of the specification: an interface is inherited
    when it is a direct interface or a parent of an inherited interface. *)
Inductive Inherited (table : ClassDefinitionMap) (direct : list string)
  : string -> Prop :=
| Inherited_direct (x : string) : x ∈ direct -> Inherited table direct x
| Inherited_parent (x p : string) (cd : ClassDefinition) :
    Inherited table direct x -> table !! x = Some cd -> p ∈ interfaces cd ->
    Inherited table direct p.

(** The names the work list knows: done or pending. *)
Definition known (w : Work.t) (x : string) : Prop :=
  x ∈ Work.done w \/ x ∈ Work.todo w.

(** The visitor of [interfacesTransitiveClosure]. *)
Definition visitParents (intf : string) (work : Work.t) : M Work.t :=
  let* c := classOf intf in ret (addAll (interfaces c) work).

(** The invariant of the closure loop. *)
Record closureInvariant (table : ClassDefinitionMap) (direct : list string)
    (w : Work.t) : Prop := {
  ci_nodup : NoDup (Work.done w ++ Work.todo w);
  ci_sound : forall x, known w x -> Inherited table direct x;
  ci_direct : forall x, x ∈ direct -> known w x;
  ci_closed : forall x cd p,
    x ∈ Work.done w -> table !! x = Some cd -> p ∈ interfaces cd -> known w p;
  ci_mapped : forall x, x ∈ Work.done w -> is_Some (table !! x)
}.

(** [x] is at least as deep as [y]. *)
Definition deeperOrEqual (table : ClassDefinitionMap) (x y : string) : Prop :=
  forall dx dy, Depth table x dx -> Depth table y dy -> (dy <= dx)%nat.

(** The variants an interface declares for a method name. *)
Definition declaredBy (table : ClassDefinitionMap) (methodName : string)
    (intf : string) : option VariantsBySignature :=
  table !! intf ≫= fun cd => variantsDict cd !! methodName.

(** The variant an interface declares for a method name and a signature. *)
Definition declaration (table : ClassDefinitionMap) (methodName sig intf : string)
  : option MethodDefinition :=
  declaredBy table methodName intf ≫= fun vs => vs !! sig.

(** The effect of the inner loop of the merge on the variants of one method
    name, for interfaces that are all in the table. *)
Definition mergedVariants (table : ClassDefinitionMap) (methodName : string)
    (interfaces : list string) (own : VariantsBySignature) : VariantsBySignature :=
  foldl (fun variants intf =>
           match declaredBy table methodName intf with
           | Some inherited => assign variants inherited
           | None => variants
           end) own interfaces.

(** The declaration of a signature by the last interface of the list that
    declares it. *)
Definition lastDeclaration (table : ClassDefinitionMap) (methodName sig : string)
    (interfaces : list string) : option MethodDefinition :=
  foldl (fun found intf =>
           match declaration table methodName sig intf with
           | Some v => Some v
           | None => found
           end) None interfaces.

(** A computation whose effect on the mapper is to cache depths, and that
    replays: started again ([m']) from any later state it returns the same
    value and changes nothing. *)
Definition Replays {A : Type} (m m' : M A) : Prop :=
  forall st a st', cacheConsistent st -> m st = Ok (a, st') ->
    extends st st' /\ cacheConsistent st' /\
    forall st2, extends st' st2 -> m' st2 = Ok (a, st2).

(** Every inherited interface has a depth below [fuel], and the table has
    fewer than [fuel] classes: the recursions of the merge have fuel enough. *)
Definition enoughFuel (fuel : nat) (table : ClassDefinitionMap) (direct : list string)
  : Prop :=
  (size table < fuel)%nat /\
  forall x, Inherited table direct x -> exists d, Depth table x d /\ (d < fuel)%nat.

(** ** Examples *)

(** A state for examples: nothing scanned, nothing mapped. *)
Definition noOptions : TsJavaOptions.t :=
  {| TsJavaOptions.classpath := []; TsJavaOptions.classes := [];
     TsJavaOptions.packages := []; TsJavaOptions.generics := false |}.

Definition scanned (included excluded : list string)
    (shortNames : list (string * option string)) : ClassesMap :=
  {| unhandledTypes := ∅;
     unhandledInterfaces := ∅;
     unhandledSuperClasses := ∅;
     options := noOptions;
     classes := ∅;
     includedPatterns := [];
     shortToLongNameMap := Some (list_to_map shortNames);
     allClasses := list_to_set included;
     allExcludedClasses := list_to_set excluded;
     interfaceDepthCache := ∅ |}.

(** A mapper that has mapped the classes of [table] and nothing else. *)
Definition mapped (table : ClassDefinitionMap) : ClassesMap :=
  {| unhandledTypes := ∅;
     unhandledInterfaces := ∅;
     unhandledSuperClasses := ∅;
     options := noOptions;
     classes := table;
     includedPatterns := [];
     shortToLongNameMap := None;
     allClasses := ∅;
     allExcludedClasses := ∅;
     interfaceDepthCache := ∅ |}.

(** A method variant without parameters. *)
Definition method (methodName declaredIn sig : string) : MethodDefinition :=
  {| name := methodName; declared := declaredIn; returns := "void";
     paramTypes := []; tsParamTypes := []; isStatic := false;
     generic_proto := "public void " +:+ declaredIn +:+ "." +:+ methodName +:+ "()";
     signature := sig |}.

(** A class table: [java.lang.Object], without parents, declaring [foo()V]
    and [foo(I)V]; [Base], whose parent is [java.lang.Object], declaring
    [foo()V] and [bar()V]. *)
Definition exampleTable : ClassDefinitionMap :=
  <["Base" := {| fullName := "Base"; interfaces := ["java.lang.Object"];
                 variantsDict := groupMethods [method "foo" "Base" "foo()V";
                                               method "bar" "Base" "bar()V"] |}]>
  (<["java.lang.Object" :=
       {| fullName := "java.lang.Object"; interfaces := [];
          variantsDict := groupMethods [method "foo" "java.lang.Object" "foo()V";
                                        method "foo" "java.lang.Object" "foo(I)V"] |}]> ∅).

(** The variants dictionary of a class [Derived] that declares [foo()V]
    itself. *)
Definition derivedVariants : MethodsByNameBySignature :=
  groupMethods [method "foo" "Derived" "foo()V"].

(* ===================================================================== *)
(** * Further parts of the mapper                                         *)
(* ===================================================================== *)

(** ** Paths and their components *)

(** No character of [s] is [c]. *)
Definition without (c : ascii) (s : string) : bool :=
  Str.forallb (fun a => negb (Ascii.eqb a c)) s.

(** The index of the first occurrence of a character. *)
Fixpoint indexOf (c : ascii) (s : string) : option nat :=
  match s with
  | EmptyString => None
  | String a s' => if Ascii.eqb a c then Some 0%nat else S <$> indexOf c s'
  end.

(** [s.split(sep)] for a one-character separator. *)
Fixpoint split (sep : ascii) (s : string) : list string :=
  match s with
  | EmptyString => [EmptyString]
  | String c s' =>
      if Ascii.eqb c sep then EmptyString :: split sep s'
      else
        match split sep s' with
        | part :: parts => String c part :: parts
        | [] => [String c EmptyString]
        end
  end.

(** [parts.pop()] leaves [removelast parts], and [parts.join(sep)] is
    [String.concat sep parts]. *)
Definition packageName (className : string) : string :=
  String.concat "." (removelast (split "." className)).

Definition reservedWords : list string := ["function"; "package"].

Definition fixClassPath (fullName : string) : string :=
  let parts := split "." fullName in
  let parts :=
    map (fun part =>
           if bool_decide (part ∈ reservedWords) then part +:+ "_" else part)
        parts in
  String.concat "." parts.

Definition translateIfPrimitiveType (s : string) (context : ParamContext) : M string :=
  let* translated := boxIfJavaPrimitive s in
  if negb (String.eqb translated s) then
    mapJavaPrimitivesToTypescript translated context
  else ret translated.

(** The Java primitive types, each with its TypeScript type as a parameter
    and its TypeScript type as a result. *)
Definition primitiveTypes : list (string * (string * string)) :=
  [("byte", ("object_t", "object_t")); ("char", ("object_t", "object_t"));
   ("boolean", ("boolean_t", "boolean")); ("short", ("short_t", "number"));
   ("long", ("long_t", "longValue_t")); ("int", ("integer_t", "number"));
   ("float", ("float_t", "number")); ("double", ("double_t", "number"))].

(** ** The parameter list of a generic prototype *)

(** The class [\s] of white space, below 256. *)
Definition isSpace (c : ascii) : bool :=
  Chars.between 9 13 c || (Chars.code c =? 32)%nat || (Chars.code c =? 160)%nat.

(** [s.search(re)]: the index of the first match, [None] for [-1]. *)
Fixpoint searchIndex (re : RegExp.Items) (bol : bool) (s : string) : option nat :=
  if RegExp.matchHere re bol s then Some 0%nat
  else
    match s with
    | String _ s' => S <$> searchIndex re false s'
    | EmptyString => None
    end.

(** The expression of [splitParams]: a comma and a character that is not
    white space. *)
Definition commaBeforeText : RegExp.Items :=
  [RegExp.One (Chars.exactly ","); RegExp.One (fun c => negb (isSpace c))].

(** The loop of [splitParams]; [fuel] bounds its iterations, and [None] tells
    that it ran out. *)
Fixpoint splitParamsLoop (fuel : nat) (s : string) (result : list string)
  : option (list string) :=
  if (0 <? String.length s)%nat then
    match fuel with
    | O => None
    | S fuel' =>
        match searchIndex commaBeforeText true s with
        | None => splitParamsLoop fuel' "" (result ++ [s])
        | Some i =>
            splitParamsLoop fuel' (Str.dropFirst (i + 1) s)
              (result ++ [String.substring 0 i s])
        end
    end
  else Some result.

(** [splitParams], the local function of [translateGenericProto]. Every
    iteration shortens [s], so its length is fuel enough. *)
Definition splitParams (s : string) : option (list string) :=
  splitParamsLoop (String.length s) s [].

(** A text with no place to split at. *)
Definition unsplittable (s : string) : Prop :=
  searchIndex commaBeforeText true s = None.

(** A parameter type as Java prints it in a prototype: not empty, not
    starting with white space, not ending in a comma, and with no comma but
    those that white space follows. *)
Definition printedType (p : string) : Prop :=
  unsplittable p /\
  (exists c rest, p = String c rest /\ isSpace c = false) /\
  Str.last p <> Some ","%char.

(** ** Short names *)

Definition set_shortToLongNameMap (v : option (gmap string (option string)))
    (st : ClassesMap) : ClassesMap :=
  {| unhandledTypes := unhandledTypes st;
     unhandledInterfaces := unhandledInterfaces st;
     unhandledSuperClasses := unhandledSuperClasses st;
     options := options st;
     classes := classes st;
     includedPatterns := includedPatterns st;
     shortToLongNameMap := v;
     allClasses := allClasses st;
     allExcludedClasses := allExcludedClasses st;
     interfaceDepthCache := interfaceDepthCache st |}.

(** The dictionary literal [reservedShortNames]; [None] is [null]. *)
Definition reservedShortNames : list (string * option string) :=
  [("Number", None)].

(** [k in reservedShortNames]: the operator [in] also finds the properties
    an object literal inherits. *)
Definition inReservedShortNames (k : string) : bool :=
  bool_decide (k ∈ reservedShortNames.*1) || bool_decide (k ∈ objectPrototypeKeys).

(** The object that [createShortNameMap] fills: its own properties, a
    string or [null] each, and whether its prototype is still
    [Object.prototype]. *)
Module ShortNames.

Record t : Type := { own : gmap string (option string); inherits : bool }.

(** The object literal without properties. *)
Definition empty : t := {| own := ∅; inherits := true |}.

(** [k in map] *)
Definition has (k : string) (map : t) : bool :=
  bool_decide (is_Some (own map !! k))
  || (inherits map && bool_decide (k ∈ objectPrototypeKeys)).

(** [map[k] = v]. An own property is replaced. Otherwise the property is
    added, but for [__proto__] while the object inherits the accessor of
    that name: its setter makes [null] the prototype of the object, ignores
    a string, and adds no property. *)
Definition set (k : string) (v : option string) (map : t) : t :=
  if bool_decide (is_Some (own map !! k)) then
    {| own := <[k := v]> (own map); inherits := inherits map |}
  else if String.eqb k "__proto__" && inherits map then
    match v with
    | None => {| own := own map; inherits := false |}
    | Some _ => map
    end
  else {| own := <[k := v]> (own map); inherits := inherits map |}.

End ShortNames.

(** The body of the loop of [createShortNameMap]. *)
Definition addShortName (map : ShortNames.t) (longName : string) : ShortNames.t :=
  let shortName := shortClassName longName in
  if inReservedShortNames shortName || ShortNames.has shortName map
  then ShortNames.set shortName None map
  else ShortNames.set shortName (Some longName) map.

(** [createShortNameMap], visiting the classes in the given order. The loop
    works on the object it has just stored in [shortToLongNameMap] and on
    nothing else of the mapper; the field holds the own properties of that
    object, which are all that the readers of the field, comparing a
    property with a class name, can tell. *)
Definition createShortNameMapIn (order : list string) : M unit :=
  let* _ := modify (set_shortToLongNameMap (Some ∅)) in
  let map := foldl addShortName ShortNames.empty order in
  modify (set_shortToLongNameMap (Some (ShortNames.own map))).

(** [createShortNameMap]: the set [allClasses] is visited in the order of
    its elements. *)
Definition createShortNameMap : M unit :=
  let* all := read allClasses in
  createShortNameMapIn (elements all).

(** What a short-name map says of the classes [all], for one short name.
    The name maps to a class when that class is the only one of [all] with
    that short name and the name is neither reserved nor the name of a
    property that every object has. It is absent when no class has it, and
    [__proto__] also when one class only has it. It maps to [null]
    otherwise. *)
Definition shortNamesAt (all : string -> Prop) (map : gmap string (option string))
    (shortName : string) : Prop :=
  (forall longName,
     map !! shortName = Some (Some longName) <->
     all longName /\ shortClassName longName = shortName /\
     (shortName ∉ reservedShortNames.*1) /\ (shortName ∉ objectPrototypeKeys) /\
     forall other, all other -> shortClassName other = shortName -> other = longName) /\
  (map !! shortName = None <->
   (forall c, all c -> shortClassName c <> shortName) \/
   (shortName = "__proto__" /\
    forall c1 c2, all c1 -> all c2 ->
      shortClassName c1 = shortName -> shortClassName c2 = shortName -> c1 = c2)).

Definition shortNamesOf (all : string -> Prop) (map : gmap string (option string))
  : Prop :=
  forall shortName, shortNamesAt all map shortName.

(** ** What a translation may change *)

(** [st'] is [st] with more unhandled types recorded. *)
Definition recordsTypes (st st' : ClassesMap) : Prop :=
  st' = set_unhandledTypes (unhandledTypes st') st /\
  unhandledTypes st ⊆ unhandledTypes st'.


(** ** Grouped methods *)

(** A property name that [_.has] takes for a key and not for a path of
    keys: a name without a dot and without a bracket, as the names of Java
    methods are. *)
Definition plainKey (k : string) : bool :=
  Str.forallb (fun c => negb (Ascii.eqb c ".") && negb (Ascii.eqb c "[")) k.

(** The last method of a list with a given name and signature. *)
Definition lastVariant (flatList : list MethodDefinition) (methodName sig : string)
  : option MethodDefinition :=
  last (filter (fun m => name m = methodName /\ signature m = sig) flatList).

(** ** Scanning the class path *)

Definition set_allClasses (v : gset string) (st : ClassesMap) : ClassesMap :=
  {| unhandledTypes := unhandledTypes st;
     unhandledInterfaces := unhandledInterfaces st;
     unhandledSuperClasses := unhandledSuperClasses st;
     options := options st;
     classes := classes st;
     includedPatterns := includedPatterns st;
     shortToLongNameMap := shortToLongNameMap st;
     allClasses := v;
     allExcludedClasses := allExcludedClasses st;
     interfaceDepthCache := interfaceDepthCache st |}.

Definition set_allExcludedClasses (v : gset string) (st : ClassesMap) : ClassesMap :=
  {| unhandledTypes := unhandledTypes st;
     unhandledInterfaces := unhandledInterfaces st;
     unhandledSuperClasses := unhandledSuperClasses st;
     options := options st;
     classes := classes st;
     includedPatterns := includedPatterns st;
     shortToLongNameMap := shortToLongNameMap st;
     allClasses := allClasses st;
     allExcludedClasses := v;
     interfaceDepthCache := interfaceDepthCache st |}.

(** The expression of the test for a class file: the text [.class] at the
    end of the entry name. *)
Definition endsDotClass : RegExp.Items := literal ".class" ++ [RegExp.Eol].

(** [entryPath.slice(0, -'.class'.length).replace(/\//g, '.')] *)
Definition classNameOfEntry (entryPath : string) : string :=
  Str.replaceEach (Chars.exactly "/") (fun _ => ".")
    (Str.dropLast (String.length ".class") entryPath).

(** The body of the loop over the entries of a jar. *)
Definition scanEntry (result : list string) (entryPath : string) : M (list string) :=
  if RegExp.matches endsDotClass entryPath then
    let className := classNameOfEntry entryPath in
    let* listed := inWhiteList className in
    if listed then ret (result ++ [className])
    else
      let* _ := modify (fun st =>
        set_allExcludedClasses (allExcludedClasses st ∪ {[className]}) st) in
      ret result
  else ret result.

(** [getWhitedListedClassesInJar]. The file system is a parameter: [readJar]
    gives the names of the entries of the jar at a path, or [None] when the
    jar cannot be opened, which rejects the promise. *)
Definition getWhitedListedClassesInJar (readJar : string -> option (list string))
    (jarpath : string) : M (list string) :=
  match readJar jarpath with
  | None => throw ("Error: cannot open " +:+ jarpath)
  | Some entries => foldlM scanEntry [] entries
  end.

(** [preScanAllClasses]. The jars are read in the order of the class path;
    the promises of the source may resolve in another order, which changes
    neither the set of classes found nor the set of classes excluded. *)
Definition preScanAllClasses (readJar : string -> option (list string)) : M unit :=
  let* opts := read options in
  let* found :=
    mapM (getWhitedListedClassesInJar readJar) (TsJavaOptions.classpath opts) in
  let result := foldl setMerge [] found in
  modify (set_allClasses (list_to_set result)).

(** The separator of a class name for the separator of a path. *)
Definition dotForSlash (c : ascii) : ascii :=
  if Ascii.eqb c "/" then "."%char else c.

(** The class a class file holds: the name of the entry is a path followed
    by [.class], and the class name is that path, character by character,
    with a dot for each slash. *)
Definition classFile (className entryPath : string) : Prop :=
  exists path,
    entryPath = path +:+ ".class" /\
    list_ascii_of_string className = List.map dotForSlash (list_ascii_of_string path).

(** A class that has a class file in a jar of the class path. *)
Definition onClassPath (readJar : string -> option (list string))
    (classpath : list string) (className : string) : Prop :=
  exists jarpath entries entryPath,
    jarpath ∈ classpath /\ readJar jarpath = Some entries /\
    entryPath ∈ entries /\ classFile className entryPath.

(** ** Reflection *)

(** Modelled from the spec: the handle [Java.Class] of [lib/reflection.ts],
    which is not among the sources. It is what the metadata provider reports
    of a class, for the queries the functions below make: [getName],
    [getModifiers], [getEnclosingClass], [getSuperclass] and [getInterfaces].
    A query that answers [null] is [None]. *)
#[warnings="-register-all"] Inductive JavaClass : Type := Reflected {
  getName : string;
  getModifiers : Z;
  getEnclosingClass : option JavaClass;
  getSuperclass : option JavaClass;
  getInterfaces : list JavaClass
}.

(** Modelled from the spec: [Modifier.isPublic] of the metadata provider,
    which tells whether the modifiers declare public visibility. The
    modifiers are those of Java, where the bit [0x1] is [public]. *)
Definition Modifier_isPublic (modifiers : Z) : bool :=
  negb (Z.land modifiers 1 =? 0)%Z.

Fixpoint isPublicClass (clazz : JavaClass) : bool :=
  let modifiers := getModifiers clazz in
  let isPublic := Modifier_isPublic modifiers in
  if isPublic then
    match getEnclosingClass clazz with
    | Some enclosingClass => isPublicClass enclosingClass
    | None => isPublic
    end
  else isPublic.

(** The body of the loop of [loadClassCache], on the class cache and the
    set of classes that are not public. The class loader is a parameter:
    [None] is a class it does not find, for which [loadClass] throws. *)
Definition loadClass (classLoader : string -> option JavaClass)
    (acc : gmap string JavaClass * gset string) (className : string)
  : M (gmap string JavaClass * gset string) :=
  let '(classCache, nonPublic) := acc in
  match classLoader className with
  | None => throw ("java.lang.ClassNotFoundException: " +:+ className)
  | Some clazz =>
      if isPublicClass clazz then ret (<[className := clazz]> classCache, nonPublic)
      else ret (classCache, nonPublic ∪ {[className]})
  end.

(** [loadClassCache]. The class cache is a field that the record of the
    mapper leaves out: the method takes the cache it finds and returns the
    cache it leaves. *)
Definition loadClassCache (classLoader : string -> option JavaClass)
    (classCache : gmap string JavaClass) : M (gmap string JavaClass) :=
  let* all := read allClasses in
  let* loaded := foldlM (loadClass classLoader) (classCache, ∅) (elements all) in
  let '(classCache, nonPublic) := loaded in
  let* _ := modify (fun st => set_allClasses (allClasses st ∖ nonPublic) st) in
  let* _ := modify (fun st =>
    set_allExcludedClasses (allExcludedClasses st ∪ nonPublic) st) in
  ret classCache.

(** [getClass], on the class cache. *)
Definition getClass (classCache : gmap string JavaClass) (className : string)
  : M JavaClass :=
  match classCache !! className with
  | Some clazz => ret clazz
  | None => throw ("java.lang.ClassNotFoundException:" +:+ className)
  end.

(** The class and the classes that enclose it, from the inside out. *)
Fixpoint enclosingChain (clazz : JavaClass) : list JavaClass :=
  clazz ::
  match getEnclosingClass clazz with
  | Some enclosingClass => enclosingChain enclosingClass
  | None => []
  end.

(** Induction on what reflection reports: a property holds of every class
    when it holds of a class whose enclosing class, superclass and interfaces
    have it. *)
Section JavaClassInduction.

Variable P : JavaClass -> Prop.

Hypothesis step : forall clazz,
  (forall c, getEnclosingClass clazz = Some c -> P c) ->
  (forall c, getSuperclass clazz = Some c -> P c) ->
  Forall P (getInterfaces clazz) ->
  P clazz.

Fixpoint JavaClass_induction (clazz : JavaClass) : P clazz :=
  match clazz with
  | Reflected n m enclosing super intfs =>
      step (Reflected n m enclosing super intfs)
        (match enclosing as o return forall c, o = Some c -> P c with
         | Some e => fun c E =>
             match E in _ = y return match y with Some z => P z | None => True end with
             | eq_refl => JavaClass_induction e
             end
         | None => fun c E =>
             match E in _ = y return match y with Some z => P c | None => True end with
             | eq_refl => I
             end
         end)
        (match super as o return forall c, o = Some c -> P c with
         | Some e => fun c E =>
             match E in _ = y return match y with Some z => P z | None => True end with
             | eq_refl => JavaClass_induction e
             end
         | None => fun c E =>
             match E in _ = y return match y with Some z => P c | None => True end with
             | eq_refl => I
             end
         end)
        ((fix all (l : list JavaClass) : Forall P l :=
            match l with
            | [] => @List.Forall_nil _ P
            | c :: l' => @List.Forall_cons _ P c l' (JavaClass_induction c) (all l')
            end) intfs)
  end.

End JavaClassInduction.

(** The class the loader gives for a name, when it is public and so is every
    class that encloses it. *)
Definition publicClass (classLoader : string -> option JavaClass) (className : string)
  : option JavaClass :=
  match classLoader className with
  | Some clazz => if isPublicClass clazz then Some clazz else None
  | None => None
  end.

(** A class the loader finds that is declared public, as is every class that
    encloses it. *)
Definition declaredPublic (classLoader : string -> option JavaClass)
    (className : string) : Prop :=
  exists clazz,
    classLoader className = Some clazz /\
    Forall (fun k => Modifier_isPublic (getModifiers k) = true) (enclosingChain clazz).

(** ** The interfaces and the superclass of a class *)









(** The decision of [isIncludedClass] on a name: [None] when it throws. *)
Definition inclusion (st : ClassesMap) (className : string) : option bool :=
  let c := fixGenericNestedTypeName (classNamePart className) in
  if observed st c then Some (bool_decide (c ∈ allClasses st)) else None.






(** ** The fields of a class *)

(** [FieldDefinition]: the properties of a mapped field. *)
Module FieldDefinition.
Record t : Type := {
  name : string;
  tsType : string;
  tsRegularType : string;
  tsGenericType : string;
  isStatic : bool;
  isSynthetic : bool;
  declaredIn : string
}.
End FieldDefinition.

(** [_.uniq(array, false, iteratee)]: for each value of the iteratee the
    first element that has it, in the order of the array; [seen] holds the
    values met so far. *)
Fixpoint uniq {A : Type} (iteratee : A -> string) (seen : list string)
    (array : list A) : list A :=
  match array with
  | [] => []
  | x :: rest =>
      if bool_decide (iteratee x ∈ seen) then uniq iteratee seen rest
      else x :: uniq iteratee (iteratee x :: seen) rest
  end.

(** Lines 955-966 of [mapClassFields]: the choice among the field
    definitions that [mapField] has built for the fields of the class. *)
Definition mapClassFields (clazz : JavaClass) (allFieldDefs : list FieldDefinition.t)
  : list FieldDefinition.t :=
  let instanceFieldDefs :=
    List.filter (fun f => negb (FieldDefinition.isStatic f) &&
                          String.eqb (FieldDefinition.declaredIn f) (getName clazz))
                allFieldDefs in
  let staticFieldDefs := List.filter FieldDefinition.isStatic allFieldDefs in
  let staticFieldDefs := uniq FieldDefinition.name [] staticFieldDefs in
  instanceFieldDefs ++ staticFieldDefs.

(** ** Further examples *)

(** A mapper after the scan: three included classes, two of them with the
    same short name, and one excluded class. *)
Definition afterScan : ClassesMap :=
  scanned ["java.lang.String"; "java.util.List"; "java.awt.List"]
          ["com.example.Hidden"] [].

(** A class path of one jar. *)
Definition oneJar (jarpath : string) : option (list string) :=
  if String.eqb jarpath "rt.jar" then
    Some ["META-INF/MANIFEST.MF"; "java/util/List.class"; "java/util/List$1.class";
          "java/io/File.class"]
  else None.

Definition scanningOptions : TsJavaOptions.t :=
  {| TsJavaOptions.classpath := ["rt.jar"]; TsJavaOptions.classes := [];
     TsJavaOptions.packages := ["java.util.*"]; TsJavaOptions.generics := false |}.

(** What reflection reports of some classes: [Iterable], [Collection] and
    [List] are public interfaces, [Hidden] is a class that is not public
    and [Inner] a public class that [Hidden] encloses. *)
Definition Iterable_class : JavaClass :=
  Reflected "java.lang.Iterable" 1537 None None [].

Definition Collection_class : JavaClass :=
  Reflected "java.util.Collection" 1537 None None [Iterable_class].

Definition List_class : JavaClass :=
  Reflected "java.util.List" 1537 None None [Collection_class].

Definition Object_class : JavaClass :=
  Reflected "java.lang.Object" 1 None None [].

Definition AbstractList_class : JavaClass :=
  Reflected "java.util.AbstractList" 1025 None (Some Object_class) [List_class].

Definition ArrayList_class : JavaClass :=
  Reflected "java.util.ArrayList" 1 None (Some AbstractList_class) [List_class].

Definition Hidden_class : JavaClass :=
  Reflected "com.example.Hidden" 0 None (Some Object_class) [].

Definition Inner_class : JavaClass :=
  Reflected "com.example.Hidden$Inner" 1 (Some Hidden_class) (Some Object_class) [].

Definition exampleLoader (className : string) : option JavaClass :=
  if String.eqb className "java.util.List" then Some List_class
  else if String.eqb className "java.util.ArrayList" then Some ArrayList_class
  else if String.eqb className "com.example.Hidden$Inner" then Some Inner_class
  else None.


(** A mapper after the scan and before the classes are loaded. *)
Definition beforeLoading : ClassesMap :=
  scanned ["java.util.List"; "java.util.ArrayList"; "com.example.Hidden$Inner"] [] [].

(** Field definitions for examples. *)
Definition field (fieldName declaredIn : string) (static : bool) : FieldDefinition.t :=
  {| FieldDefinition.name := fieldName; FieldDefinition.tsType := "number";
     FieldDefinition.tsRegularType := "number"; FieldDefinition.tsGenericType := "number";
     FieldDefinition.isStatic := static; FieldDefinition.isSynthetic := false;
     FieldDefinition.declaredIn := declaredIn |}.

(** ** Initialization *)

(** Lines 134-137 of [initialize]: the three steps that come before the
    classes are analysed. The chain of promises runs them one after the
    other, and a step that throws rejects the chain. The class cache is empty
    when the constructor has returned; the model returns the cache that
    [loadClassCache] leaves. *)
Definition initializeScan (readJar : string -> option (list string))
    (classLoader : string -> option JavaClass) : M (gmap string JavaClass) :=
  let* _ := preScanAllClasses readJar in
  let* classCache := loadClassCache classLoader ∅ in
  let* _ := createShortNameMap in
  ret classCache.

(** A loader for the classes of the jar of the examples. *)
Definition jarLoader (className : string) : option JavaClass :=
  if String.eqb className "java.util.List" then Some List_class else None.
(* ===================================================================== *)
(** * Part II: properties                                                 *)
(* ===================================================================== *)

(** ** Reasoning in the monad *)

Lemma bind_Ok {A B : Type} (m : M A) (k : A -> M B) st r :
  bind m k st = Ok r <-> exists a st', m st = Ok (a, st') /\ k a st' = Ok r.
Proof.
  unfold bind. split.
  - destruct (m st) as [[a st']| | |]; try discriminate. eauto.
  - intros (a & st' & -> & H). exact H.
Qed.

Lemma bind_step {A B : Type} (m : M A) (k : A -> M B) st a st' :
  m st = Ok (a, st') -> bind m k st = k a st'.
Proof. unfold bind. intros ->. reflexivity. Qed.

Ltac case_decisions :=
  repeat (match goal with
          | |- context [bool_decide ?P] => destruct (bool_decide P) eqn:?
          end; simpl).

(** Closed membership facts, by evaluation. *)
Ltac decide_member :=
  first [ apply (proj1 (bool_decide_eq_true _))
        | apply (proj1 (bool_decide_eq_false _)) ];
  vm_compute; reflexivity.

(** ** Strings *)

Lemma append_cons (c : ascii) (s t : string) :
  String c s +:+ t = String c (s +:+ t).
Proof. reflexivity. Qed.

Lemma append_empty_l (s : string) : "" +:+ s = s.
Proof. reflexivity. Qed.

Lemma append_empty_r (s : string) : s +:+ "" = s.
Proof. induction s as [|c s IH]; [reflexivity|]. rewrite ?append_cons; simpl; now rewrite IH. Qed.

Lemma append_assoc (s t u : string) : (s +:+ t) +:+ u = s +:+ (t +:+ u).
Proof. induction s as [|c s IH]; [reflexivity|]. now rewrite ?append_cons, IH. Qed.

Lemma length_append (s t : string) :
  String.length (s +:+ t) = (String.length s + String.length t)%nat.
Proof. induction s as [|c s IH]; [reflexivity|]. rewrite ?append_cons. simpl. now rewrite IH. Qed.

Lemma substring_prefix (s t : string) :
  String.substring 0 (String.length s) (s +:+ t) = s.
Proof.
  induction s as [|c s IH]; simpl.
  - now destruct t.
  - rewrite ?append_cons. simpl. now rewrite IH.
Qed.

Lemma dropLast_append (s t : string) :
  Str.dropLast (String.length t) (s +:+ t) = s.
Proof.
  unfold Str.dropLast. rewrite length_append.
  replace (String.length s + String.length t - String.length t)%nat
    with (String.length s) by lia.
  apply substring_prefix.
Qed.

Lemma replaceEach_append p r (s t : string) :
  Str.replaceEach p r (s +:+ t) = Str.replaceEach p r s +:+ Str.replaceEach p r t.
Proof.
  induction s as [|c s IH]; [reflexivity|].
  rewrite ?append_cons. simpl. now rewrite IH, append_assoc.
Qed.

Lemma forallb_append p (s t : string) :
  Str.forallb p (s +:+ t) = Str.forallb p s && Str.forallb p t.
Proof.
  induction s as [|c s IH]; [reflexivity|].
  rewrite ?append_cons. simpl. now rewrite IH, andb_assoc.
Qed.

Lemma forallb_ext p q (s : string) :
  (forall c, p c = q c) -> Str.forallb p s = Str.forallb q s.
Proof. intros E. induction s as [|c s IH]; [reflexivity|]. simpl. now rewrite E, IH. Qed.

Lemma stripPrefix_Some (pre s rest : string) :
  stripPrefix pre s = Some rest <-> s = pre +:+ rest.
Proof.
  revert s. induction pre as [|a pre IH]; intros s; simpl.
  - split; [intros [= ->] | intros ->]; reflexivity.
  - destruct s as [|b s]; [split; discriminate|].
    rewrite ?append_cons. destruct (Ascii.eqb_spec a b) as [->|Hab].
    + rewrite IH. split; [intros -> | intros [= ->]]; reflexivity.
    + split; [discriminate | intros [= -> _]; now destruct Hab].
Qed.

(** ** Context-sensitive translation of the boxed primitives *)

(** C7. [java.lang.Integer] translates to the union alias [integer_t] as an
    input parameter and to [number] as a return type; [java.lang.Long]
    translates to [long_t] as an input parameter and to [longValue_t] as a
    return type. *)
Theorem primitive_translation_by_context (st : ClassesMap) :
  mapJavaPrimitivesToTypescript "java.lang.Integer" eInput st = Ok ("integer_t", st) /\
  mapJavaPrimitivesToTypescript "java.lang.Integer" eReturn st = Ok ("number", st) /\
  mapJavaPrimitivesToTypescript "java.lang.Long" eInput st = Ok ("long_t", st) /\
  mapJavaPrimitivesToTypescript "java.lang.Long" eReturn st = Ok ("longValue_t", st).
Proof. repeat split; reflexivity. Qed.

(** The same through [tsTypeName], for a scan that included both classes. *)
Example tsTypeName_Integer_Long :
  let st := scanned ["java.lang.Integer"; "java.lang.Long"] [] [] in
  tsTypeName "java.lang.Integer" eInput false st = Ok ("integer_t", st) /\
  tsTypeName "java.lang.Integer" eReturn false st = Ok ("number", st) /\
  tsTypeName "int" eInput false st = Ok ("integer_t", st) /\
  tsTypeName "J" eInput true st = Ok ("long_t", st) /\
  tsTypeName "java.lang.Long" eReturn false st = Ok ("longValue_t", st).
Proof. repeat split; vm_compute; reflexivity. Qed.

(** ** The defence against unknown names *)

Lemma isExcludedClass_spec (st : ClassesMap) (arg : string) :
  isExcludedClass arg st =
    if observed st (classNamePart arg)
    then Ok (bool_decide (classNamePart arg ∈ allExcludedClasses st), st)
    else Throw (classNamePart arg +:+ " is not a known className").
Proof.
  unfold isExcludedClass, observed, classNamePart, bind, read, ret, throw.
  destruct (genericTypeExp arg) as [[m1 m2]|]; simpl;
    case_decisions; reflexivity.
Qed.

Lemma classNameOnly_spec (st : ClassesMap) (arg : string) :
  classNameOnly arg st =
    if observed st (fixGenericNestedTypeName (classNamePart arg))
    then Ok (fixGenericNestedTypeName (classNamePart arg), st)
    else Throw (arg +:+ " is not a known className").
Proof.
  unfold classNameOnly, observed, classNamePart, bind, read, ret, throw.
  destruct (genericTypeExp arg) as [[m1 m2]|]; simpl;
    case_decisions; reflexivity.
Qed.

(** A plain class name denotes itself. *)
Lemma splitLast_absent (c : ascii) (s : string) :
  Str.forallb (fun a => negb (Ascii.eqb a c)) s = true -> Str.splitLast c s = None.
Proof.
  induction s as [|a s IH]; [reflexivity|]. simpl. intros H.
  apply andb_true_iff in H as [Ha Hs]. rewrite (IH Hs).
  now destruct (Ascii.eqb a c).
Qed.

Lemma forallb_weaken (p q : ascii -> bool) (s : string) :
  (forall c, p c = true -> q c = true) ->
  Str.forallb p s = true -> Str.forallb q s = true.
Proof.
  intros Hpq. induction s as [|c s IH]; [reflexivity|]. simpl. intros H.
  apply andb_true_iff in H as [Hc Hs]. now rewrite (Hpq c Hc), (IH Hs).
Qed.






(** A generic type name is tested on its class name: [java.util.List<E>]
    is in neither set, and both functions decide on [java.util.List]. *)
Example generic_name_tested_on_class_name :
  let st := scanned ["java.util.List"] ["java.util.Map"] [] in
  classNameOnly "java.util.List<E>" st = Ok ("java.util.List", st) /\
  isExcludedClass "java.util.List<E>" st = Ok (false, st) /\
  isExcludedClass "java.util.Map<K, V>" st = Ok (true, st).
Proof. simpl. repeat split; vm_compute; reflexivity. Qed.

(** C9. [classNameOnly] throws on a name that was observed while scanning.
    The nested class [b] of the class [a] of the package [a] has the name
    [a.a$b]; [fixGenericNestedTypeName] takes it for the class [a$b] written
    with its outer class repeated, and [a$b] was never observed.
    [isExcludedClass], which makes its test on the name as it is, returns on
    the same name of the same mapper. *)
Theorem classNameOnly_rejects_observed_name :
  let st := scanned ["a.a$b"] [] [] in
  "a.a$b" ∈ allClasses st /\
  ("a$b" ∉ allClasses st) /\
  fixGenericNestedTypeName "a.a$b" = "a$b" /\
  classNameOnly "a.a$b" st = Throw "a.a$b is not a known className" /\
  isExcludedClass "a.a$b" st = Ok (false, st).
Proof.
  simpl. split; [decide_member|]. split; [decide_member|].
  repeat split; vm_compute; reflexivity.
Qed.

(** Type arguments that have type arguments of their own: the greedy first
    group of the expression extends to the last [<], so the name tested is
    not the class name, and both functions throw although the class was
    observed. *)
Example nested_type_arguments_rejected :
  let st := scanned ["java.util.Map"; "java.util.List"] [] [] in
  classNamePart "java.util.Map<K, java.util.List<V>>" = "java.util.Map<K, java.util.List" /\
  classNameOnly "java.util.Map<K, java.util.List<V>>" st =
    Throw "java.util.Map<K, java.util.List<V>> is not a known className" /\
  isExcludedClass "java.util.Map<K, java.util.List<V>>" st =
    Throw "java.util.Map<K, java.util.List is not a known className".
Proof. simpl. repeat split; vm_compute; reflexivity. Qed.

(** ** Arrays in [tsTypeName] *)

Lemma stripArrayMarkers_ext (s : string) :
  (stripArrayMarkers s).2 = brackets (arrayDepth s).
Proof.
  induction s as [|c s IH]; [reflexivity|].
  destruct (ascii_dec c "[") as [->|Hc].
  - simpl. destruct (stripArrayMarkers s) as [t e]. simpl in *. now rewrite IH.
  - destruct c as [[] [] [] [] [] [] [] []]; try reflexivity. now destruct Hc.
Qed.

Lemma jniDecodeType_ext j enc st typeName ext st' :
  jniDecodeType j enc st = Ok ((typeName, ext), st') ->
  ext = brackets (arrayDepth j) /\ st' = st.
Proof.
  unfold jniDecodeType. pose proof (stripArrayMarkers_ext j) as He.
  destruct (stripArrayMarkers j) as [t e]. simpl in He. subst e.
  unfold bind, stackTrace, abort, lookupIn, unmodelled.
  destruct (negb (Str.isEmpty _) && negb enc); [discriminate|].
  destruct (objectTypeExp t) as [inner|]; destruct enc; simpl;
    try discriminate.
  - destruct (bool_decide (inner ∈ objectPrototypeKeys)); [discriminate|].
    unfold ret. destruct (tableGet jniAbbreviations inner);
      intros; simplify_eq/=; auto.
  - destruct (bool_decide (t ∈ objectPrototypeKeys)); [discriminate|].
    unfold ret. destruct (tableGet jniAbbreviations t);
      intros; simplify_eq/=; auto.
  - destruct (bool_decide (t ∈ objectPrototypeKeys)); [discriminate|].
    unfold ret. destruct (tableGet jniAbbreviations t);
      intros; simplify_eq/=; auto.
Qed.

Lemma brackets_even (n : nat) : Nat.even (String.length (brackets n)) = true.
Proof. induction n as [|n IH]; [reflexivity | exact IH]. Qed.

Lemma tsArrayTypeName_spec (elem : string) (n : nat) (ctx : ParamContext) st :
  tsArrayTypeName elem (brackets n) ctx st =
    match n, ctx with
    | O, _ => Ok (elem, st)
    | _, eReturn => Ok (elem +:+ brackets n, st)
    | 1%nat, eInput => Ok ("array_t<" +:+ elem +:+ ">", st)
    | _, eInput =>
        Ok ("void",
            set_unhandledTypes (unhandledTypes st ∪ {[elem +:+ brackets n]}) st)
    end.
Proof.
  unfold tsArrayTypeName, bind, assert_ok. rewrite brackets_even.
  destruct n as [|[|n]]; destruct ctx; reflexivity.
Qed.

(** C3, as amended. With [n] the number of array dimensions of the type name
    and [elem] the translation of its element type: for [n = 0] the result
    is [elem]; in return context it is [elem] followed by [n] bracket pairs;
    in input-parameter context one dimension gives [array_t<elem>], whatever
    the element type, and two or more dimensions give [void] and add [elem]
    with its bracket pairs to the unhandled types. *)
Theorem tsTypeName_arrays (j : string) (ctx : ParamContext) (enc : bool)
    (st st1 st2 : ClassesMap) (typeName ext elem : string) :
  jniDecodeType j enc st = Ok ((typeName, ext), st1) ->
  tsElementTypeName typeName ctx st1 = Ok (elem, st2) ->
  ext = brackets (arrayDepth j) /\
  tsTypeName j ctx enc st =
    match arrayDepth j, ctx with
    | O, _ => Ok (elem, st2)
    | _, eReturn => Ok (elem +:+ brackets (arrayDepth j), st2)
    | 1%nat, eInput => Ok ("array_t<" +:+ elem +:+ ">", st2)
    | _, eInput =>
        Ok ("void",
            set_unhandledTypes
              (unhandledTypes st2 ∪ {[elem +:+ brackets (arrayDepth j)]}) st2)
    end.
Proof.
  intros Hd He. destruct (jniDecodeType_ext _ _ _ _ _ _ Hd) as [-> ->].
  split; [reflexivity|].
  unfold tsTypeName. rewrite (bind_step _ _ _ _ _ Hd). simpl.
  rewrite (bind_step _ _ _ _ _ He). apply tsArrayTypeName_spec.
Qed.

Lemma tsTypeName_arrays_witness :
  let st := scanned ["java.lang.Integer"] [] [("Integer", Some "java.lang.Integer")] in
  tsTypeName "[[I" eInput true st =
    Ok ("void", set_unhandledTypes (unhandledTypes st ∪ {["integer_t[][]"]}) st) /\
  tsTypeName "[[I" eReturn true st = Ok ("number[][]", st) /\
  tsTypeName "[I" eInput true st = Ok ("array_t<integer_t>", st) /\
  tsTypeName "I" eInput true st = Ok ("integer_t", st).
Proof.
  intros st. split; [|split; [|split]].
  - refine (proj2 (tsTypeName_arrays "[[I" eInput true st st st
                     "int" "[][]" "integer_t" _ _)); vm_compute; reflexivity.
  - refine (proj2 (tsTypeName_arrays "[[I" eReturn true st st st
                     "int" "[][]" "number" _ _)); vm_compute; reflexivity.
  - refine (proj2 (tsTypeName_arrays "[I" eInput true st st st
                     "int" "[]" "integer_t" _ _)); vm_compute; reflexivity.
  - refine (proj2 (tsTypeName_arrays "I" eInput true st st st
                     "int" "" "integer_t" _ _)); vm_compute; reflexivity.
Defined.

(** C3 as stated fails: in input-parameter context one dimension of a class
    type, which is not a primitive, gives the array wrapper and not [void],
    and records nothing as unhandled. *)
Lemma one_dimension_of_objects_is_wrapped :
  let st := scanned ["java.util.List"] [] [("List", Some "java.util.List")] in
  tsTypeName "[Ljava.util.List;" eInput true st = Ok ("array_t<Java.List>", st) /\
  "array_t<Java.List>" <> "void" /\
  unhandledTypes st = ∅.
Proof.
  intros st. split; [vm_compute; reflexivity|]. split; [discriminate | reflexivity].
Qed.

(** ** The comparator of method variants *)

(** *** Comparisons that are total preorders, and their lexicographic
    combination *)

Section TotalPreorders.

Context {A : Type}.

Lemma tp_lt_le (cmp : A -> A -> comparison) (H : TotalPreorderCmp cmp) a b c :
  cmp a b = Lt -> cmp b c <> Gt -> cmp a c = Lt.
Proof.
  intros Hab Hbc. destruct (cmp a c) eqn:Hac; [| reflexivity |].
  - exfalso. apply (tp_trans _ H b c a Hbc).
    + rewrite (tp_antisym _ H a c), Hac. discriminate.
    + rewrite (tp_antisym _ H a b), Hab. reflexivity.
  - exfalso. apply (tp_trans _ H b c a Hbc).
    + rewrite (tp_antisym _ H a c), Hac. discriminate.
    + rewrite (tp_antisym _ H a b), Hab. reflexivity.
Qed.

Lemma tp_le_lt (cmp : A -> A -> comparison) (H : TotalPreorderCmp cmp) a b c :
  cmp a b <> Gt -> cmp b c = Lt -> cmp a c = Lt.
Proof.
  intros Hab Hbc. destruct (cmp a c) eqn:Hac; [| reflexivity |].
  - exfalso. apply (tp_trans _ H c a b); [| exact Hab |].
    + rewrite (tp_antisym _ H a c), Hac. discriminate.
    + rewrite (tp_antisym _ H b c), Hbc. reflexivity.
  - exfalso. apply (tp_trans _ H c a b); [| exact Hab |].
    + rewrite (tp_antisym _ H a c), Hac. discriminate.
    + rewrite (tp_antisym _ H b c), Hbc. reflexivity.
Qed.

Lemma tp_eq_eq (cmp : A -> A -> comparison) (H : TotalPreorderCmp cmp) a b c :
  cmp a b = Eq -> cmp b c = Eq -> cmp a c = Eq.
Proof.
  intros Hab Hbc. destruct (cmp a c) eqn:Hac; [reflexivity | |].
  - assert (cmp c a <> Gt) as Hca.
    { apply (tp_trans _ H c b a).
      - rewrite (tp_antisym _ H b c), Hbc. discriminate.
      - rewrite (tp_antisym _ H a b), Hab. discriminate. }
    rewrite (tp_antisym _ H a c), Hac in Hca. now destruct Hca.
  - exfalso. apply (tp_trans _ H a b c); [rewrite Hab | rewrite Hbc | exact Hac];
      discriminate.
Qed.

Lemma lexicographic_cons_preorder (k : A -> A -> comparison) keys :
  TotalPreorderCmp k -> TotalPreorderCmp (lexicographic keys) ->
  TotalPreorderCmp (lexicographic (k :: keys)).
Proof.
  intros Hk Hks. split; simpl.
  - intros a. rewrite (tp_refl _ Hk). apply (tp_refl _ Hks).
  - intros a b. rewrite (tp_antisym _ Hk a b).
    destruct (k a b); simpl; [apply (tp_antisym _ Hks) | reflexivity..].
  - intros a b c Hab Hbc.
    destruct (k a b) eqn:Kab; [| | now destruct Hab].
    + destruct (k b c) eqn:Kbc; [| | now destruct Hbc].
      * rewrite (tp_eq_eq _ Hk a b c Kab Kbc). eapply (tp_trans _ Hks); eauto.
      * rewrite (tp_le_lt _ Hk a b c); [discriminate | rewrite Kab; discriminate | exact Kbc].
    + rewrite (tp_lt_le _ Hk a b c Kab); [discriminate|].
      destruct (k b c); [discriminate | discriminate | now destruct Hbc].
Qed.

Lemma lexicographic_preorder (keys : list (A -> A -> comparison)) :
  Forall TotalPreorderCmp keys -> TotalPreorderCmp (lexicographic keys).
Proof.
  induction 1 as [|k keys Hk _ IH].
  - split; simpl; intros; try reflexivity; discriminate.
  - now apply lexicographic_cons_preorder.
Qed.

End TotalPreorders.

Section VariantKeys.

Variable localeCompare : string -> string -> Z.

Lemma compareVariants_lexicographic (a b : MethodDefinition) :
  sign (compareVariants localeCompare a b) =
    lexicographic (variantKeys localeCompare) a b.
Proof.
  unfold compareVariants, variantKeys, lexicographic, moreFirst, fewerFirst,
    descending, ascending.
  repeat match goal with
         | |- context [(?x <? ?y)%nat] => destruct (Nat.ltb_spec x y)
         end;
  repeat match goal with
         | |- context [Nat.compare ?x ?y] => destruct (Nat.compare_spec x y)
         end; try lia; try reflexivity.
  destruct (Z.eqb_spec (localeCompare (signature b) (signature a)) 0) as [E|E]; simpl.
  - rewrite E. simpl.
    now destruct (sign (localeCompare (generic_proto a) (generic_proto b))).
  - unfold sign. destruct (Z.compare_spec (localeCompare (signature b) (signature a)) 0);
      [contradiction | reflexivity | reflexivity].
Qed.

End VariantKeys.

(** The helper of the comparator counts the occurrences of [any] among the
    translated parameter types. *)
Lemma countArgsOfTypeAny_occurrences (v : MethodDefinition) :
  countArgsOfTypeAny v = anyParameters v.
Proof.
  unfold countArgsOfTypeAny, anyParameters.
  induction (tsParamTypes v) as [|t ts IH]; [reflexivity|].
  rewrite filter_cons. simpl count_occ.
  destruct (String.string_dec t "any") as [->|Ht].
  - rewrite decide_True by reflexivity. simpl. now rewrite IH.
  - rewrite decide_False by exact Ht. exact IH.
Qed.

(** C4. [compareVariants] orders two variants by the ordered key list:
    (a) more parameters first; (b) then fewer parameters translated to [any]
    first; (c) then the longer signature first; (d) then by signature,
    descending; (e) then by generic prototype, ascending. Its result is
    negative, zero or positive as the first key that does not tie puts [a]
    first, none does, or it puts [b] first. *)
Theorem compareVariants_follows_keys (localeCompare : string -> string -> Z)
    (a b : MethodDefinition) :
  sign (compareVariants localeCompare a b) =
    lexicographic
      [ moreFirst (fun v => length (paramTypes v));
        fewerFirst anyParameters;
        moreFirst (fun v => String.length (signature v));
        descending localeCompare signature;
        ascending localeCompare generic_proto ] a b.
Proof.
  rewrite compareVariants_lexicographic.
  unfold variantKeys, lexicographic, fewerFirst.
  now rewrite !countArgsOfTypeAny_occurrences.
Qed.

(** Key (b) decides between variants of equal length: one parameter
    translated to [any] puts a variant behind one without, whatever the
    later keys say. *)
Example compareVariants_any_parameter (localeCompare : string -> string -> Z)
    (a b : MethodDefinition) :
  paramTypes a = ["java.lang.Object"] -> tsParamTypes a = ["object_t"] ->
  paramTypes b = ["T"] -> tsParamTypes b = ["any"] ->
  compareVariants localeCompare a b = (-1)%Z /\
  compareVariants localeCompare b a = 1%Z.
Proof.
  intros Ha Hta Hb Htb. unfold compareVariants, countArgsOfTypeAny.
  rewrite Ha, Hb, Hta, Htb. split; reflexivity.
Qed.

(** *** The keys are total preorders *)

Lemma nat_compare_preorder : TotalPreorderCmp Nat.compare.
Proof.
  split.
  - apply Nat.compare_refl.
  - intros a b. apply Nat.compare_antisym.
  - intros a b c. rewrite !Nat.compare_le_iff. lia.
Qed.

Lemma preorder_on {A B : Type} (cmp : B -> B -> comparison) (f : A -> B) :
  TotalPreorderCmp cmp -> TotalPreorderCmp (fun a b => cmp (f a) (f b)).
Proof.
  intros [R S T]. split; intros; [apply R | apply S | eapply T; eauto].
Qed.

Lemma preorder_reversed {A : Type} (cmp : A -> A -> comparison) :
  TotalPreorderCmp cmp -> TotalPreorderCmp (fun a b => cmp b a).
Proof.
  intros [R S T]. split; intros; [apply R | apply S | eapply T; eauto].
Qed.

Lemma variantKeys_preorders (localeCompare : string -> string -> Z) :
  Collation localeCompare ->
  Forall TotalPreorderCmp (variantKeys localeCompare).
Proof.
  intros Hlc. unfold variantKeys. repeat apply Forall_cons_2; [..| apply Forall_nil_2].
  - apply (preorder_reversed (fun a b => Nat.compare (length (paramTypes a)) (length (paramTypes b)))).
    apply (preorder_on Nat.compare (fun v => length (paramTypes v))), nat_compare_preorder.
  - apply (preorder_on Nat.compare countArgsOfTypeAny), nat_compare_preorder.
  - apply (preorder_reversed (fun a b => Nat.compare (String.length (signature a)) (String.length (signature b)))).
    apply (preorder_on Nat.compare (fun v => String.length (signature v))), nat_compare_preorder.
  - apply (preorder_reversed (fun a b => sign (localeCompare (signature a) (signature b)))).
    apply (preorder_on (fun s t => sign (localeCompare s t)) signature), Hlc.
  - apply (preorder_on (fun s t => sign (localeCompare s t)) generic_proto), Hlc.
Qed.

Lemma compareVariants_preorder (localeCompare : string -> string -> Z) :
  Collation localeCompare ->
  TotalPreorderCmp (fun a b => sign (compareVariants localeCompare a b)).
Proof.
  intros Hlc.
  pose proof (lexicographic_preorder _ (variantKeys_preorders _ Hlc)) as [R S T].
  split; intros; rewrite ?compareVariants_lexicographic; auto.
  eapply T; rewrite <- ?compareVariants_lexicographic; eauto.
Qed.

Lemma sign_Lt (z : Z) : sign z = Lt <-> (z < 0)%Z.
Proof. unfold sign. destruct (Z.compare_spec z 0); split; intros; try lia; congruence. Qed.

Lemma sign_Eq (z : Z) : sign z = Eq <-> z = 0%Z.
Proof. unfold sign. apply Z.compare_eq_iff. Qed.

(** [groupMethods] keys every variant by its own name and signature. *)
Lemma addMethod_keyed (acc : MethodsByNameBySignature) (m : MethodDefinition) :
  (forall n d, acc !! n = Some d ->
     keyedBySignature d /\ forall k v, d !! k = Some v -> name v = n) ->
  forall n d, addMethod acc m !! n = Some d ->
    keyedBySignature d /\ forall k v, d !! k = Some v -> name v = n.
Proof.
  intros Hacc. unfold addMethod.
  set (acc1 := if bool_decide (is_Some (acc !! name m)) then acc
               else assignProperty (name m) ∅ acc).
  assert (Hacc1 : forall n d, acc1 !! n = Some d ->
            keyedBySignature d /\ forall k v, d !! k = Some v -> name v = n).
  { subst acc1. case_bool_decide; [exact Hacc|].
    unfold assignProperty. destruct (String.eqb (name m) "__proto__"); [exact Hacc|].
    intros n d. destruct (decide (name m = n)) as [<-|Hne].
    - rewrite lookup_insert_eq. intros [= <-].
      split; intros k v Hk; now rewrite lookup_empty in Hk.
    - rewrite lookup_insert_ne by exact Hne. apply Hacc. }
  destruct (acc1 !! name m) as [variants|] eqn:E; [|exact Hacc1].
  intros n d. destruct (decide (name m = n)) as [<-|Hne].
  - rewrite lookup_insert_eq. intros [= <-].
    destruct (Hacc1 _ _ E) as [K N]. unfold assignProperty.
    destruct (String.eqb (signature m) "__proto__"); [now split|].
    split; intros k v;
      (destruct (decide (signature m = k)) as [<-|Hk];
       [rewrite lookup_insert_eq; intros [= <-]; reflexivity
       | rewrite lookup_insert_ne by exact Hk; intros Hv;
         first [exact (K _ _ Hv) | exact (N _ _ Hv)]]).
  - rewrite lookup_insert_ne by exact Hne. apply Hacc1.
Qed.

Lemma groupMethods_keyed (flatList : list MethodDefinition) (n : string)
    (d : VariantsBySignature) :
  groupMethods flatList !! n = Some d ->
  keyedBySignature d /\ forall k v, d !! k = Some v -> name v = n.
Proof.
  unfold groupMethods. revert n d.
  induction flatList as [|m l IH] using rev_ind; intros n d.
  - simpl. intros H0. now rewrite lookup_empty in H0.
  - rewrite foldl_snoc. apply addMethod_keyed. exact IH.
Qed.

(** C5. For a collation [localeCompare], [compareVariants] is a strict weak
    ordering of method variants: it reports every variant equivalent to
    itself, the order it induces is asymmetric and transitive, two variants
    are incomparable exactly when it reports them equivalent, and
    incomparability is an equivalence relation. It is consistent with
    equality of signature within one class: two variants of a dictionary
    keyed by signature that have the same signature compare as equivalent. *)
Theorem compareVariants_strict_weak_order (localeCompare : string -> string -> Z) :
  Collation localeCompare ->
  let cmp := compareVariants localeCompare in
  (forall a, cmp a a = 0%Z) /\
  (forall a b, before cmp a b -> ~ before cmp b a) /\
  (forall a b c, before cmp a b -> before cmp b c -> before cmp a c) /\
  (forall a b, incomparable cmp a b <-> cmp a b = 0%Z) /\
  Equivalence (incomparable cmp) /\
  (forall (d : VariantsBySignature) (ka kb : string) (a b : MethodDefinition),
     keyedBySignature d -> d !! ka = Some a -> d !! kb = Some b ->
     signature a = signature b -> cmp a b = 0%Z).
Proof.
  intros Hlc cmp. pose proof (compareVariants_preorder _ Hlc) as P.
  assert (forall a, cmp a a = 0%Z) as Hrefl.
  { intros a. apply sign_Eq, (tp_refl _ P). }
  assert (forall a b, before cmp a b -> ~ before cmp b a) as Hasym.
  { unfold before. intros a b Hab Hba. apply sign_Lt in Hab, Hba.
    pose proof (tp_antisym _ P a b) as Hs. simpl in Hs. fold cmp in Hs.
    rewrite Hab, Hba in Hs. discriminate. }
  assert (forall a b, incomparable cmp a b <-> cmp a b = 0%Z) as Hinc.
  { unfold incomparable, before. intros a b.
    pose proof (tp_antisym _ P a b) as Hs. simpl in Hs. fold cmp in Hs.
    rewrite <- !sign_Lt, <- sign_Eq. rewrite Hs.
    destruct (sign (cmp a b)); simpl; split; try intros [? ?]; try congruence;
      intros; split; congruence. }
  split; [exact Hrefl|]. split; [exact Hasym|]. split.
  { unfold before. intros a b c Hab Hbc. apply sign_Lt in Hab, Hbc. apply sign_Lt.
    apply (tp_lt_le _ P a b c Hab). fold cmp. rewrite Hbc. discriminate. }
  split; [exact Hinc|]. split.
  { split.
    - intros a. apply Hinc, Hrefl.
    - intros a b [H1 H2]. split; assumption.
    - intros a b c Hab Hbc. apply Hinc. apply Hinc in Hab, Hbc.
      apply sign_Eq. apply sign_Eq in Hab, Hbc.
      exact (tp_eq_eq _ P a b c Hab Hbc). }
  intros d ka kb a b Hk Ha Hb Hsig.
  assert (ka = kb) as -> by (rewrite <- (Hk _ _ Ha), <- (Hk _ _ Hb); exact Hsig).
  rewrite Ha in Hb. injection Hb as <-. apply Hrefl.
Qed.

(** Outside one class the signature does not decide: two variants with
    the same signature and different generic prototypes are ordered by the
    last key. *)
Example same_signature_other_class :
  compareVariants codeUnitCompare
    (method "add" "java.util.Collection" "add(Ljava/lang/Object;)Z")
    (method "add" "java.util.List" "add(Ljava/lang/Object;)Z") = (-1)%Z.
Proof. vm_compute. reflexivity. Qed.

(** The order of code units is a collation. *)
Lemma string_compare_refl (s : string) : String.compare s s = Eq.
Proof.
  induction s as [|c s IH]; [reflexivity|]. simpl.
  unfold Ascii.compare. now rewrite N.compare_refl.
Qed.

Lemma codeUnitCompare_sign (s t : string) :
  sign (codeUnitCompare s t) = String.compare s t.
Proof. unfold codeUnitCompare. now destruct (String.compare s t). Qed.

Lemma codeUnitCompare_collation : Collation codeUnitCompare.
Proof.
  split.
  - intros s. rewrite codeUnitCompare_sign. apply string_compare_refl.
  - intros s t. rewrite !codeUnitCompare_sign. apply String.compare_antisym.
  - intros s t u. rewrite !codeUnitCompare_sign. intros Hst Htu.
    assert (String.le s u) as Hsu.
    { transitivity t; unfold String.le, String.leb.
      - destruct (String.compare s t); simpl; auto.
      - destruct (String.compare t u); simpl; auto. }
    unfold String.le, String.leb in Hsu. intros E. rewrite E in Hsu. exact Hsu.
Qed.

Lemma compareVariants_strict_weak_order_witness :
  let cmp := compareVariants codeUnitCompare in
  (forall a, cmp a a = 0%Z) /\
  (forall a b, before cmp a b -> ~ before cmp b a) /\
  (forall a b c, before cmp a b -> before cmp b c -> before cmp a c) /\
  (forall a b, incomparable cmp a b <-> cmp a b = 0%Z) /\
  Equivalence (incomparable cmp) /\
  (forall (d : VariantsBySignature) (ka kb : string) (a b : MethodDefinition),
     keyedBySignature d -> d !! ka = Some a -> d !! kb = Some b ->
     signature a = signature b -> cmp a b = 0%Z).
Proof.
  exact (compareVariants_strict_weak_order codeUnitCompare codeUnitCompare_collation).
Defined.

(** ** Package expressions *)

(** *** Matching *)

Lemma matchHere_literal (pre : string) (re : RegExp.Items) (bol : bool) (s : string) :
  RegExp.matchHere (literal pre ++ re) bol s =
    match stripPrefix pre s with
    | Some rest => RegExp.matchHere re (bol && Str.isEmpty pre) rest
    | None => false
    end.
Proof.
  revert bol s. induction pre as [|a pre IH]; intros bol s.
  - simpl. now rewrite andb_true_r.
  - unfold literal. simpl. fold (literal pre). destruct s as [|b s]; [reflexivity|].
    unfold Chars.exactly at 1. destruct (Ascii.eqb a b); [|reflexivity].
    simpl. rewrite IH. rewrite andb_false_r. simpl.
    destruct (stripPrefix pre s); reflexivity.
Qed.

Lemma search_Bol_later (re : RegExp.Items) (s : string) :
  RegExp.search (RegExp.Bol :: re) false s = false.
Proof. induction s as [|c s IH]; simpl; [reflexivity | exact IH]. Qed.

Lemma test_anchored (re : RegExp.Items) (s : string) :
  RegExp.test (RegExp.Compiled (RegExp.Bol :: re)) s = RegExp.matchHere re true s.
Proof.
  unfold RegExp.test, RegExp.matches. destruct s as [|c s]; simpl.
  - now rewrite orb_false_r.
  - now rewrite search_Bol_later, orb_false_r.
Qed.

Lemma matchHere_Plus_Eol (p : ascii -> bool) (bol : bool) (s : string) :
  RegExp.matchHere [RegExp.Plus p; RegExp.Eol] bol s =
    negb (Str.isEmpty s) && Str.forallb p s.
Proof.
  simpl. induction s as [|c s IH]; [reflexivity|].
  rewrite IH. simpl. destruct (p c); [|reflexivity]. simpl.
  destruct s as [|c' s]; simpl; [reflexivity|]. now rewrite orb_false_r.
Qed.

Lemma matchHere_Eol (bol : bool) (s : string) :
  RegExp.matchHere [RegExp.Eol] bol s = Str.isEmpty s.
Proof. simpl. now rewrite andb_true_r. Qed.

(** *** Compiling an escaped name *)

Lemma lex_escaped_char (c : ascii) (rest : string) :
  wordDotOrDollar c = true ->
  RegExp.lex RegExp.Top
    ((if Chars.either (Chars.exactly ".") (Chars.exactly "$") c
      then String "\" (String c EmptyString) else String c EmptyString) +:+ rest) =
  cons (RegExp.TAtom (Chars.exactly c)) <$> RegExp.lex RegExp.Top rest.
Proof.
  intros H. destruct c as [[] [] [] [] [] [] [] []];
    vm_compute in H; try discriminate H; reflexivity.
Qed.

Lemma lex_escapeSeed (q rest : string) :
  Str.forallb wordDotOrDollar q = true ->
  RegExp.lex RegExp.Top (escapeSeed q +:+ rest) =
    app (map (fun c => RegExp.TAtom (Chars.exactly c)) (list_ascii_of_string q))
      <$> RegExp.lex RegExp.Top rest.
Proof.
  unfold escapeSeed. induction q as [|c q IH]; intros H.
  - simpl. rewrite append_empty_l. now destruct (RegExp.lex RegExp.Top rest).
  - simpl in H. apply andb_true_iff in H as [Hc Hq].
    cbn [Str.replaceEach list_ascii_of_string map].
    rewrite append_assoc, (lex_escaped_char c _ Hc), (IH Hq).
    now destruct (RegExp.lex RegExp.Top rest).
Qed.

Lemma escapeDots_escapeSeed (q : string) :
  Str.forallb wordOrDot q = true -> escapeDots q = escapeSeed q.
Proof.
  unfold escapeDots, escapeSeed. induction q as [|c q IH]; intros H; [reflexivity|].
  simpl in H. apply andb_true_iff in H as [Hc Hq]. simpl. rewrite (IH Hq).
  f_equal. destruct c as [[] [] [] [] [] [] [] []];
    vm_compute in Hc; try discriminate Hc; reflexivity.
Qed.

Lemma wordOrDot_wordDotOrDollar (q : string) :
  Str.forallb wordOrDot q = true -> Str.forallb wordDotOrDollar q = true.
Proof.
  induction q as [|c q IH]; [reflexivity|]. simpl. intros H.
  apply andb_true_iff in H as [Hc Hq]. rewrite (IH Hq), andb_true_r.
  unfold wordDotOrDollar, Chars.either. now rewrite Hc.
Qed.

Lemma items_literal (cs : list ascii) (ts : list RegExp.Token) :
  noPlusAhead ts ->
  RegExp.items (map (fun c => RegExp.TAtom (Chars.exactly c)) cs ++ ts) =
    app (map (fun c => RegExp.One (Chars.exactly c)) cs) <$> RegExp.items ts.
Proof.
  intros Hts. induction cs as [|c cs IH].
  - simpl. now destruct (RegExp.items ts).
  - cbn [map app].
    assert (noPlusAhead (map (fun c => RegExp.TAtom (Chars.exactly c)) cs ++ ts)) as Hnext.
    { destruct cs; [exact Hts | exact I]. }
    destruct (map (fun c => RegExp.TAtom (Chars.exactly c)) cs ++ ts) as [|tok rest] eqn:E.
    + simpl. simpl in IH. destruct (RegExp.items ts); simpl in *; congruence.
    + assert (RegExp.items (RegExp.TAtom (Chars.exactly c) :: tok :: rest) =
              cons (RegExp.One (Chars.exactly c)) <$> RegExp.items (tok :: rest)) as ->.
      { destruct tok; try reflexivity. now destruct Hnext. }
      rewrite IH. now destruct (RegExp.items ts).
Qed.

(** The anchored pattern of an escaped name followed by [tail]. *)
Lemma compile_anchored (q tail : string) (toks : list RegExp.Token) (its : RegExp.Items) :
  Str.forallb wordDotOrDollar q = true ->
  RegExp.lex RegExp.Top tail = Some toks ->
  noPlusAhead toks ->
  RegExp.items toks = Some its ->
  RegExp.compile ("^" +:+ escapeSeed q +:+ tail) =
    Some (RegExp.Bol :: literal q ++ its).
Proof.
  intros Hq Hlex Hplus Hits. unfold RegExp.compile.
  change ("^" +:+ escapeSeed q +:+ tail) with (String "^" (escapeSeed q +:+ tail)).
  cbn [RegExp.lex]. change (Ascii.eqb "^" "\") with false.
  change (Ascii.eqb "^" "[") with false. change (Ascii.eqb "^" "^") with true.
  cbn iota. rewrite (lex_escapeSeed q tail Hq), Hlex. simpl.
  rewrite (items_literal _ _ Hplus), Hits. reflexivity.
Qed.

Lemma newRegExp_compiled (engine : RegExp.Engine) (source : string)
    (re : RegExp.Items) st :
  RegExp.compile source = Some re ->
  newRegExp engine source st = Ok (RegExp.Compiled re, st).
Proof. unfold newRegExp. now intros ->. Qed.

(** *** Which form a package expression has *)

Lemma wordOrDot_not_star (c : ascii) :
  wordOrDot c = true -> Chars.exactly "*" c = false.
Proof.
  intros H. destruct c as [[] [] [] [] [] [] [] []];
    vm_compute in H; try discriminate H; reflexivity.
Qed.

Lemma search_endsDotStar_yes (p : string) (bol : bool) :
  RegExp.search endsDotStar bol (p +:+ ".*") = true.
Proof.
  revert bol. induction p as [|c p IH]; intros bol; [reflexivity|].
  rewrite append_cons. cbn [RegExp.search]. rewrite IH. apply orb_true_r.
Qed.

Lemma search_endsDotStarStar_yes (p : string) (bol : bool) :
  RegExp.search endsDotStarStar bol (p +:+ ".**") = true.
Proof.
  revert bol. induction p as [|c p IH]; intros bol; [reflexivity|].
  rewrite append_cons. cbn [RegExp.search]. rewrite IH. apply orb_true_r.
Qed.

(** A text without [*] ends neither way. *)
Lemma search_ends_bare (p : string) (bol : bool) :
  Str.forallb wordOrDot p = true ->
  RegExp.search endsDotStar bol p = false /\
  RegExp.search endsDotStarStar bol p = false.
Proof.
  revert bol. induction p as [|c p IH]; intros bol H; [split; reflexivity|].
  simpl in H. apply andb_true_iff in H as [Hc Hp].
  destruct (IH false Hp) as [IH1 IH2].
  cbn [RegExp.search]. rewrite IH1, IH2, !orb_false_r.
  unfold endsDotStar, endsDotStarStar. cbn [RegExp.matchHere].
  destruct p as [|c2 p]; [split; apply andb_false_r|].
  simpl in Hp. apply andb_true_iff in Hp as [Hc2 _].
  rewrite (wordOrDot_not_star _ Hc2). split; apply andb_false_r.
Qed.

Lemma search_endsDotStar_no (p : string) (bol : bool) :
  Str.forallb wordOrDot p = true ->
  RegExp.search endsDotStar bol (p +:+ ".**") = false.
Proof.
  revert bol. induction p as [|c p IH]; intros bol H; [reflexivity|].
  simpl in H. apply andb_true_iff in H as [Hc Hp].
  rewrite append_cons. cbn [RegExp.search]. rewrite (IH false Hp), orb_false_r.
  unfold endsDotStar. cbn [RegExp.matchHere].
  destruct p as [|c2 p].
  - rewrite append_empty_l. apply andb_false_r.
  - rewrite append_cons. simpl in Hp. apply andb_true_iff in Hp as [Hc2 _].
    rewrite (wordOrDot_not_star _ Hc2). apply andb_false_r.
Qed.

Lemma source_single_level (p : string) :
  Str.forallb wordOrDot p = true ->
  packageExpressionSource (p +:+ ".*") =
    "^" +:+ escapeSeed (p +:+ ".") +:+ "[\w\$]+$".
Proof.
  intros Hp. unfold packageExpressionSource, RegExp.matches.
  rewrite search_endsDotStar_yes.
  replace (p +:+ ".*") with ((p +:+ ".") +:+ "*") by now rewrite append_assoc.
  pose proof (dropLast_append (p +:+ ".") "*") as D.
  change (String.length "*") with 1%nat in D. rewrite D.
  fold (escapeDots ((p +:+ ".") +:+ "[\w\$]+$")). unfold escapeDots.
  rewrite replaceEach_append. fold (escapeDots (p +:+ ".")).
  rewrite escapeDots_escapeSeed; [reflexivity|].
  rewrite forallb_append, Hp. reflexivity.
Qed.

Lemma source_any_level (p : string) :
  Str.forallb wordOrDot p = true ->
  packageExpressionSource (p +:+ ".**") = "^" +:+ escapeSeed (p +:+ ".") +:+ "".
Proof.
  intros Hp. unfold packageExpressionSource, RegExp.matches.
  rewrite (search_endsDotStar_no _ _ Hp), search_endsDotStarStar_yes.
  replace (p +:+ ".**") with ((p +:+ ".") +:+ "**") by now rewrite append_assoc.
  pose proof (dropLast_append (p +:+ ".") "**") as D.
  change (String.length "**") with 2%nat in D. rewrite D.
  fold (escapeDots (p +:+ ".")).
  rewrite escapeDots_escapeSeed, append_empty_r; [reflexivity|].
  rewrite forallb_append, Hp. reflexivity.
Qed.

Lemma source_bare (p : string) :
  Str.forallb wordOrDot p = true ->
  packageExpressionSource p = "^" +:+ escapeSeed p +:+ "".
Proof.
  intros Hp. unfold packageExpressionSource, RegExp.matches.
  destruct (search_ends_bare p true Hp) as [-> ->].
  fold (escapeDots p). now rewrite escapeDots_escapeSeed, append_empty_r.
Qed.

Lemma classWordDollar_wordOrDollar (s : string) :
  Str.forallb classWordDollar s = Str.forallb wordOrDollar s.
Proof. apply forallb_ext. reflexivity. Qed.

(** *** The matchers *)

Lemma single_level_matcher (engine : RegExp.Engine) (p : string) st :
  Str.forallb wordOrDot p = true ->
  exists re, packageExpressionToRegExp engine (p +:+ ".*") st = Ok (re, st) /\
    forall s, RegExp.test re s = true <->
      exists segment, s = p +:+ "." +:+ segment /\ segment <> "" /\
                      Str.forallb wordOrDollar segment = true.
Proof.
  intros Hp. eexists. split.
  - unfold packageExpressionToRegExp. apply newRegExp_compiled.
    rewrite (source_single_level p Hp).
    apply (compile_anchored (p +:+ ".") "[\w\$]+$"
             [RegExp.TAtom classWordDollar; RegExp.TPlus; RegExp.TEol]
             [RegExp.Plus classWordDollar; RegExp.Eol]);
      [| reflexivity | exact I | reflexivity].
    apply wordOrDot_wordDotOrDollar. rewrite forallb_append, Hp. reflexivity.
  - intros s. rewrite test_anchored, matchHere_literal.
    destruct (stripPrefix (p +:+ ".") s) as [rest|] eqn:E.
    + apply stripPrefix_Some in E. subst s.
      rewrite matchHere_Plus_Eol, classWordDollar_wordOrDollar, andb_true_iff.
      split.
      * intros [Hne Hw]. exists rest. rewrite append_assoc. split; [reflexivity|].
        split; [|exact Hw]. intros ->. discriminate Hne.
      * intros (segment & Hs & Hne & Hw). rewrite <- append_assoc in Hs.
        apply (inj (String.append (p +:+ "."))) in Hs. subst segment.
        split; [|exact Hw]. now destruct rest.
    + split; [discriminate|]. intros (segment & Hs & _).
      rewrite <- append_assoc in Hs. apply stripPrefix_Some in Hs. congruence.
Qed.

Lemma any_level_matcher (engine : RegExp.Engine) (p : string) st :
  Str.forallb wordOrDot p = true ->
  exists re, packageExpressionToRegExp engine (p +:+ ".**") st = Ok (re, st) /\
    forall s, RegExp.test re s = true <-> exists rest, s = p +:+ "." +:+ rest.
Proof.
  intros Hp. eexists. split.
  - unfold packageExpressionToRegExp. apply newRegExp_compiled.
    rewrite (source_any_level p Hp).
    apply (compile_anchored (p +:+ ".") "" [] []);
      [| reflexivity | exact I | reflexivity].
    apply wordOrDot_wordDotOrDollar. rewrite forallb_append, Hp. reflexivity.
  - intros s. rewrite test_anchored, matchHere_literal.
    destruct (stripPrefix (p +:+ ".") s) as [rest|] eqn:E.
    + apply stripPrefix_Some in E. subst s. split; [|reflexivity].
      intros _. exists rest. now rewrite append_assoc.
    + split; [discriminate|]. intros (rest & Hs).
      rewrite <- append_assoc in Hs. apply stripPrefix_Some in Hs. congruence.
Qed.

Lemma bare_matcher (engine : RegExp.Engine) (p : string) st :
  Str.forallb wordOrDot p = true ->
  exists re, packageExpressionToRegExp engine p st = Ok (re, st) /\
    forall s, RegExp.test re s = true <-> exists rest, s = p +:+ rest.
Proof.
  intros Hp. eexists. split.
  - unfold packageExpressionToRegExp. apply newRegExp_compiled.
    rewrite (source_bare p Hp).
    apply (compile_anchored p "" [] []); [| reflexivity | exact I | reflexivity].
    now apply wordOrDot_wordDotOrDollar.
  - intros s. rewrite test_anchored, matchHere_literal.
    destruct (stripPrefix p s) as [rest|] eqn:E.
    + apply stripPrefix_Some in E. subst s. split; [|reflexivity]. eauto.
    + split; [discriminate|]. intros (rest & Hs).
      apply stripPrefix_Some in Hs. congruence.
Qed.

Lemma seed_matcher (engine : RegExp.Engine) (className : string) st :
  Str.forallb wordDotOrDollar className = true ->
  exists re, newRegExp engine (seedSource className) st = Ok (re, st) /\
    forall s, RegExp.test re s = true <-> s = className.
Proof.
  intros Hc. eexists. split.
  - apply newRegExp_compiled. unfold seedSource. fold (escapeSeed className).
    apply (compile_anchored className "$" [RegExp.TEol] [RegExp.Eol]);
      [exact Hc | reflexivity | exact I | reflexivity].
  - intros s. rewrite test_anchored, matchHere_literal.
    destruct (stripPrefix className s) as [rest|] eqn:E.
    + apply stripPrefix_Some in E. subst s. rewrite matchHere_Eol.
      destruct rest as [|c rest]; simpl.
      * rewrite append_empty_r. split; reflexivity.
      * split; [discriminate|]. intros H.
        apply (f_equal String.length) in H. rewrite length_append in H.
        simpl in H. lia.
    + split; [discriminate|]. intros ->.
      assert (stripPrefix className className = Some "") as E'
        by (apply stripPrefix_Some; now rewrite append_empty_r).
      congruence.
Qed.

(** C2, as amended. For a dotted package name [p]: the expression [p.*]
    compiles to a matcher that accepts exactly the names [p.segment] with one
    non-empty segment of word or [$] characters; [p.**] compiles to a matcher
    that accepts exactly the names that continue [p.] in any way; a bare
    expression [p] compiles to a matcher that accepts every name that starts
    with [p]. The matcher that accepts exactly one class name and no other is
    the pattern the constructor builds for a seed class. *)
Theorem package_expression_matching (engine : RegExp.Engine) (p className : string)
    (st : ClassesMap) :
  Str.forallb wordOrDot p = true ->
  Str.forallb wordDotOrDollar className = true ->
  (exists re, packageExpressionToRegExp engine (p +:+ ".*") st = Ok (re, st) /\
     forall s, RegExp.test re s = true <->
       exists segment, s = p +:+ "." +:+ segment /\ segment <> "" /\
                       Str.forallb wordOrDollar segment = true) /\
  (exists re, packageExpressionToRegExp engine (p +:+ ".**") st = Ok (re, st) /\
     forall s, RegExp.test re s = true <-> exists rest, s = p +:+ "." +:+ rest) /\
  (exists re, packageExpressionToRegExp engine p st = Ok (re, st) /\
     forall s, RegExp.test re s = true <-> exists rest, s = p +:+ rest) /\
  (exists re, newRegExp engine (seedSource className) st = Ok (re, st) /\
     forall s, RegExp.test re s = true <-> s = className).
Proof.
  intros Hp Hc. split; [|split; [|split]].
  - apply single_level_matcher, Hp.
  - apply any_level_matcher, Hp.
  - apply bare_matcher, Hp.
  - apply seed_matcher, Hc.
Qed.

Lemma package_expression_matching_witness :
  exists re,
    packageExpressionToRegExp fragmentOnly "java.util.*" (blank noOptions) =
      Ok (re, blank noOptions) /\
    RegExp.test re "java.util.AbstractMap$SimpleEntry" = true /\
    RegExp.test re "java.util.stream.Stream" = false.
Proof.
  destruct (package_expression_matching fragmentOnly "java.util" "java.lang.String"
              (blank noOptions) eq_refl eq_refl) as [(re & Hre & Hm) _].
  exists re. split; [exact Hre|]. split.
  - apply Hm. exists "AbstractMap$SimpleEntry".
    split; [reflexivity|]. split; [discriminate | reflexivity].
  - destruct (RegExp.test re "java.util.stream.Stream") eqn:E; [|reflexivity].
    apply Hm in E as (segment & Hs & _ & Hw).
    cbv in Hs. injection Hs as Hs. subst segment. discriminate Hw.
Defined.

(** C2 as stated fails for a bare class name given as a package expression:
    [java.lang.String] also accepts [java.lang.StringBuilder]. *)
Lemma bare_expression_accepts_longer_names :
  match packageExpressionToRegExp fragmentOnly "java.lang.String" (blank noOptions) with
  | Ok (re, _) => RegExp.test re "java.lang.StringBuilder"
  | _ => false
  end = true /\
  match constructor fragmentOnly (packagesOnly ["java.lang.String"]) with
  | Ok st =>
      match inWhiteList "java.lang.StringBuilder" st with
      | Ok (b, _) => b
      | _ => false
      end
  | _ => false
  end = true /\
  "java.lang.StringBuilder" <> "java.lang.String".
Proof.
  split; [vm_compute; reflexivity|]. split; [vm_compute; reflexivity | discriminate].
Qed.

(** ** The required core classes *)

Lemma inWhiteList_listed (className : string) st :
  inWhiteList className st = Ok (listed (includedPatterns st) className, st).
Proof.
  unfold inWhiteList, listed, bind, read, ret.
  destruct (existsb _ (includedPatterns st)); simpl; [|reflexivity].
  now destruct (RegExp.matches anonymousClass className).
Qed.

Lemma listed_more (patterns more : list RegExp.t) (className : string) :
  listed patterns className = true -> listed (patterns ++ more) className = true.
Proof.
  unfold listed. rewrite existsb_app. intros H.
  apply andb_true_iff in H as [-> ->]. reflexivity.
Qed.

Lemma addSeed_patterns (engine : RegExp.Engine) (className : string) st st' :
  addSeed engine className st = Ok (tt, st') ->
  exists more, includedPatterns st' = includedPatterns st ++ more.
Proof.
  unfold addSeed. rewrite (bind_step _ _ _ _ _ (inWhiteList_listed className st)).
  destruct (listed (includedPatterns st) className); simpl.
  - intros [= <-]. exists []. now rewrite app_nil_r.
  - unfold bind, newRegExp.
    destruct (RegExp.compile (seedSource className)); simpl;
      [|destruct (engine (seedSource className)); simpl; [|discriminate]];
      intros [= <-]; eexists; reflexivity.
Qed.

Lemma addSeed_lists_core (engine : RegExp.Engine) (className : string) st st' :
  className ∈ requiredCoreClasses ->
  addSeed engine className st = Ok (tt, st') ->
  listed (includedPatterns st') className = true.
Proof.
  intros Hin. unfold addSeed.
  rewrite (bind_step _ _ _ _ _ (inWhiteList_listed className st)).
  destruct (listed (includedPatterns st) className) eqn:E; simpl.
  - intros [= <-]. exact E.
  - unfold requiredCoreClasses in Hin.
    apply elem_of_cons in Hin as [->|Hin];
      [|apply elem_of_cons in Hin as [->|Hin]; [|now apply elem_of_nil in Hin]];
      (unfold bind, newRegExp;
       match goal with
       | |- context [RegExp.compile ?src] =>
           let r := eval vm_compute in (RegExp.compile src) in
           change (RegExp.compile src) with r
       end;
       simpl; intros [= <-]; simpl;
       unfold listed; rewrite existsb_app; simpl;
       rewrite orb_true_r; reflexivity).
Qed.

Lemma forEachM_addSeed (engine : RegExp.Engine) (seeds : list string) st st' :
  forEachM (addSeed engine) seeds st = Ok (tt, st') ->
  (exists more, includedPatterns st' = includedPatterns st ++ more) /\
  forall c, c ∈ seeds -> c ∈ requiredCoreClasses ->
            listed (includedPatterns st') c = true.
Proof.
  revert st. induction seeds as [|x seeds IH]; intros st; simpl.
  - intros [= <-]. split; [exists []; now rewrite app_nil_r|].
    intros c Hc. now apply elem_of_nil in Hc.
  - intros H. apply bind_Ok in H as ([] & st1 & H1 & H2).
    destruct (IH _ H2) as [[more2 E2] IH2].
    destruct (addSeed_patterns _ _ _ _ H1) as [more1 E1].
    split. { exists (more1 ++ more2). now rewrite E2, E1, app_assoc. }
    intros c Hc Hcore. apply elem_of_cons in Hc as [->|Hc]; [|now apply IH2].
    rewrite E2. apply listed_more. now apply (addSeed_lists_core engine x st).
Qed.

Lemma setMerge_keeps (l more : list string) (x : string) :
  x ∈ l -> x ∈ setMerge l more.
Proof.
  unfold setMerge. revert l. induction more as [|y more IH]; intros l Hx; simpl; [exact Hx|].
  apply IH. case_bool_decide; [exact Hx|]. apply elem_of_app. now left.
Qed.

(** C10. Whatever the configured packages and classes, once the constructor
    has returned the white list admits both required core classes. *)
Theorem core_classes_whitelisted (engine : RegExp.Engine) (opts : TsJavaOptions.t)
    (st : ClassesMap) :
  constructor engine opts = Ok st ->
  inWhiteList "java.lang.Object" st = Ok (true, st) /\
  inWhiteList "java.lang.String" st = Ok (true, st).
Proof.
  unfold constructor. intros H.
  destruct (bind _ _ (blank opts)) as [[[] st0]| | |] eqn:E; try discriminate.
  injection H as ->.
  apply bind_Ok in E as (patterns & st1 & _ & E).
  apply bind_Ok in E as ([] & st2 & _ & E).
  apply forEachM_addSeed in E as [_ E].
  rewrite !inWhiteList_listed.
  rewrite !E; [split; reflexivity | | | |];
    try (apply setMerge_keeps; vm_compute); try (unfold requiredCoreClasses);
    repeat constructor.
Qed.

Lemma core_classes_whitelisted_witness :
  exists st, constructor fragmentOnly (packagesOnly ["java.util.*"]) = Ok st /\
    inWhiteList "java.lang.Object" st = Ok (true, st) /\
    inWhiteList "java.lang.String" st = Ok (true, st) /\
    inWhiteList "java.util.List" st = Ok (true, st) /\
    inWhiteList "java.io.File" st = Ok (false, st).
Proof.
  assert (exists st, constructor fragmentOnly (packagesOnly ["java.util.*"]) = Ok st)
    as [st H].
  { vm_compute. eexists. reflexivity. }
  exists st. split; [exact H|].
  destruct (core_classes_whitelisted _ _ _ H) as [H1 H2].
  split; [exact H1|]. split; [exact H2|].
  vm_compute in H. injection H as <-. split; vm_compute; reflexivity.
Defined.

(** The constructor returns for every well-formed configuration. *)
Lemma packageExpressionToRegExp_returns (engine : RegExp.Engine) (expr : string) st :
  wellFormedExpression expr ->
  exists re, packageExpressionToRegExp engine expr st = Ok (re, st).
Proof.
  intros (p & Hp & [->|[->| ->]]).
  - destruct (bare_matcher engine p st Hp) as (re & H & _). eauto.
  - destruct (single_level_matcher engine p st Hp) as (re & H & _). eauto.
  - destruct (any_level_matcher engine p st Hp) as (re & H & _). eauto.
Qed.

Lemma mapM_packageExpressions_return (engine : RegExp.Engine)
    (packages : list string) st :
  Forall wellFormedExpression packages ->
  exists patterns,
    mapM (packageExpressionToRegExp engine) packages st = Ok (patterns, st).
Proof.
  induction 1 as [|e l He _ [patterns IH]]; simpl.
  - eexists. reflexivity.
  - destruct (packageExpressionToRegExp_returns engine e st He) as [re Hre].
    exists (re :: patterns). rewrite (bind_step _ _ _ _ _ Hre).
    now rewrite (bind_step _ _ _ _ _ IH).
Qed.

Lemma addSeed_returns (engine : RegExp.Engine) (className : string) st :
  Str.forallb wordDotOrDollar className = true ->
  exists st', addSeed engine className st = Ok (tt, st').
Proof.
  intros Hc. unfold addSeed.
  rewrite (bind_step _ _ _ _ _ (inWhiteList_listed className st)).
  destruct (listed (includedPatterns st) className); simpl; [eexists; reflexivity|].
  destruct (seed_matcher engine className st Hc) as (re & Hre & _).
  rewrite (bind_step _ _ _ _ _ Hre). eexists. reflexivity.
Qed.

Lemma forEachM_addSeed_returns (engine : RegExp.Engine) (seeds : list string) st :
  Forall (fun c => Str.forallb wordDotOrDollar c = true) seeds ->
  exists st', forEachM (addSeed engine) seeds st = Ok (tt, st').
Proof.
  intros H. revert st. induction H as [|c l Hc _ IH]; intros st; simpl.
  - eexists. reflexivity.
  - destruct (addSeed_returns engine c st Hc) as [st1 H1].
    rewrite (bind_step _ _ _ _ _ H1). apply IH.
Qed.

Lemma setMerge_Forall (P : string -> Prop) (l more : list string) :
  Forall P l -> Forall P more -> Forall P (setMerge l more).
Proof.
  unfold setMerge. intros Hl Hm. revert l Hl.
  induction Hm as [|y more Hy _ IH]; intros l Hl; simpl; [exact Hl|].
  apply IH. case_bool_decide; [exact Hl|]. apply Forall_app. split; [exact Hl|].
  now constructor.
Qed.

Lemma constructor_returns (engine : RegExp.Engine) (opts : TsJavaOptions.t) :
  Forall wellFormedExpression (TsJavaOptions.packages opts) ->
  Forall (fun c => Str.forallb wordDotOrDollar c = true) (TsJavaOptions.classes opts) ->
  exists st, constructor engine opts = Ok st.
Proof.
  intros Hp Hc. unfold constructor.
  destruct (mapM_packageExpressions_return engine _ (blank opts) Hp) as [patterns Hm].
  rewrite (bind_step _ _ _ _ _ Hm).
  rewrite (bind_step _ _ _ tt (set_includedPatterns patterns (blank opts)) eq_refl).
  destruct (forEachM_addSeed_returns engine
              (setMerge (setMerge [] requiredCoreClasses) (TsJavaOptions.classes opts))
              (set_includedPatterns patterns (blank opts))) as [st' Hst'].
  { apply setMerge_Forall; [|exact Hc].
    apply setMerge_Forall; [constructor|]. repeat constructor. }
  rewrite Hst'. eexists. reflexivity.
Qed.

(** ** Interface depth *)

Lemma extends_refl st : extends st st.
Proof. split; [now destruct st | reflexivity]. Qed.

Lemma extends_trans st1 st2 st3 : extends st1 st2 -> extends st2 st3 -> extends st1 st3.
Proof.
  intros [E1 S1] [E2 S2]. split; [|now transitivity (interfaceDepthCache st2)].
  rewrite E2 at 1. rewrite E1. reflexivity.
Qed.

Lemma extends_classes st st' : extends st st' -> classes st' = classes st.
Proof. intros [-> _]. reflexivity. Qed.

Lemma extends_insert st c d :
  interfaceDepthCache st !! c = None ->
  extends st (set_interfaceDepthCache (<[c := d]> (interfaceDepthCache st)) st).
Proof. intros H. split; [reflexivity|]. simpl. now apply insert_subseteq. Qed.

Lemma classOf_Ok c st cd st' :
  classOf c st = Ok (cd, st') <-> classes st !! c = Some cd /\ st' = st.
Proof.
  unfold classOf, bind, read, ret, throw.
  destruct (classes st !! c); split; try discriminate.
  - intros [= -> ->]. auto.
  - intros [[= ->] ->]. reflexivity.
  - intros [? _]. discriminate.
Qed.

(** A class has one depth. *)
Lemma Depth_functional (table : ClassDefinitionMap) (c : string) (d d' : nat) :
  Depth table c d -> Depth table c d' -> d = d'.
Proof.
  revert c d'. induction d as [d IH] using lt_wf_ind. intros c d' H H'.
  destruct H as [c cd Hc Hp | c cd ds Hc Hp Hds];
    destruct H' as [c cd' Hc' Hp' | c cd' ds' Hc' Hp' Hds'];
    rewrite Hc in Hc'; injection Hc' as <-; try congruence.
  f_equal. f_equal.
  clear Hc Hp Hp'. revert ds' Hds' IH.
  induction Hds as [|p dp ps dps Hp0 Hps IHps]; intros ds' Hds' IH.
  - now inversion Hds'.
  - inversion Hds' as [|? dp' ? dps' Hp0' Hps']; subst.
    f_equal.
    + eapply (IH dp); [simpl; lia | exact Hp0 | exact Hp0'].
    + apply IHps; [exact Hps'|]. intros m Hm. apply IH. simpl in *. lia.
Qed.

Lemma cacheConsistent_blank (st : ClassesMap) :
  interfaceDepthCache st = ∅ -> cacheConsistent st.
Proof. intros E c d. rewrite E, lookup_empty. discriminate. Qed.

Lemma cacheConsistent_extends st st' :
  extends st st' -> cacheConsistent st' ->
  forall c d, interfaceDepthCache st' !! c = Some d -> Depth (classes st) c d.
Proof. intros E H c d Hc. rewrite <- (extends_classes _ _ E). now apply H. Qed.

(** Soundness: from a consistent cache a call that returns gives the depth
    of the class, adds depths to the cache only, keeps it consistent, and
    has cached its result. *)
Lemma interfaceDepth_sound (fuel : nat) (c : string) st d st' :
  cacheConsistent st ->
  interfaceDepth fuel c st = Ok (d, st') ->
  extends st st' /\ cacheConsistent st' /\
  interfaceDepthCache st' !! c = Some d /\ Depth (classes st) c d.
Proof.
  revert c st d st'. induction fuel as [|fuel IH]; intros c st d st' Hcons H.
  - simpl in H. unfold bind, read in H.
    destruct (interfaceDepthCache st !! c) eqn:E; [|discriminate].
    injection H as <- <-. auto using extends_refl.
  - simpl in H. unfold bind at 1, read in H.
    destruct (interfaceDepthCache st !! c) eqn:E.
    { injection H as <- <-. auto using extends_refl. }
    apply bind_Ok in H as (cd & st0 & Hc & H). apply classOf_Ok in Hc as [Hc ->].
    apply bind_Ok in H as (depth & st1 & Hd & H).
    apply bind_Ok in H as ([] & st2 & Hm & H). injection H as <- <-.
    unfold modify in Hm. injection Hm as <-.
    assert (extends st st1 /\ cacheConsistent st1 /\ Depth (classes st) c depth)
      as (Hext & Hcons1 & Hdepth).
    { destruct (0 <? length (interfaces cd))%nat eqn:Hlen.
      - apply bind_Ok in Hd as (ds & st1' & Hds & Hd). injection Hd as <- <-.
        assert (forall ps st ds st1, cacheConsistent st ->
                  mapM (interfaceDepth fuel) ps st = Ok (ds, st1) ->
                  extends st st1 /\ cacheConsistent st1 /\
                  Forall2 (Depth (classes st)) ps ds) as Hmap.
        { clear -IH. induction ps as [|p ps IHps]; intros st ds st1 Hcons; simpl.
          - intros [= <- <-]. auto using extends_refl.
          - intros H. apply bind_Ok in H as (dp & sta & Ha & H).
            apply bind_Ok in H as (dps & stb & Hb & H). injection H as <- <-.
            destruct (IH _ _ _ _ Hcons Ha) as (Ea & Ca & _ & Da).
            destruct (IHps _ _ _ Ca Hb) as (Eb & Cb & Db).
            rewrite (extends_classes _ _ Ea) in Db.
            split; [eapply extends_trans; eauto|]. split; [exact Cb|].
            now constructor. }
        destruct (Hmap _ _ _ _ Hcons Hds) as (E1 & C1 & D1).
        split; [exact E1|]. split; [exact C1|].
        apply (Depth_parents _ c cd ds Hc); [|exact D1].
        intros Hnil. rewrite Hnil in Hlen. discriminate.
      - injection Hd as <- <-. split; [apply extends_refl|]. split; [exact Hcons|].
        apply (Depth_root _ c cd Hc). destruct (interfaces cd); [reflexivity | discriminate]. }
    assert (cacheConsistent
              (set_interfaceDepthCache (<[c:=depth]> (interfaceDepthCache st1)) st1)) as Hcons2.
    { intros x dx. simpl. destruct (decide (c = x)) as [<-|Hne].
      - rewrite lookup_insert_eq. intros [= <-].
        now rewrite (extends_classes _ _ Hext).
      - rewrite lookup_insert_ne by exact Hne. apply Hcons1. }
    split; [|split; [exact Hcons2 | split; [simpl; apply lookup_insert_eq | exact Hdepth]]].
    apply extends_trans with st1; [exact Hext|].
    destruct (interfaceDepthCache st1 !! c) as [d1|] eqn:E1; [|now apply extends_insert].
    assert (d1 = depth) as ->.
    { apply (Depth_functional (classes st) c); [|exact Hdepth].
      now apply (cacheConsistent_extends _ _ Hext Hcons1). }
    rewrite (insert_id _ _ _ E1). split; [reflexivity | reflexivity].
Qed.

(** Memoization: once a depth is cached, every later query returns it and
    leaves the mapper unchanged, whatever the fuel. *)
Lemma interfaceDepth_cached (fuel : nat) (c : string) (d : nat) st :
  interfaceDepthCache st !! c = Some d ->
  interfaceDepth fuel c st = Ok (d, st).
Proof. intros H. destruct fuel; simpl; unfold bind, read; now rewrite H. Qed.

(** Completeness: from a consistent cache, a class that has a depth gets it
    from every call with more fuel than the depth. *)
Lemma interfaceDepth_complete (c : string) (d : nat) st (fuel : nat) :
  cacheConsistent st -> Depth (classes st) c d -> (d < fuel)%nat ->
  exists st', interfaceDepth fuel c st = Ok (d, st').
Proof.
  revert c st fuel. induction d as [d IH] using lt_wf_ind.
  intros c st fuel Hcons Hd Hfuel.
  destruct (interfaceDepthCache st !! c) as [d0|] eqn:E.
  { assert (d0 = d) as -> by (apply (Depth_functional (classes st) c); auto).
    exists st. now apply interfaceDepth_cached. }
  destruct fuel as [|fuel]; [lia|].
  simpl. unfold bind at 1, read. rewrite E.
  destruct Hd as [c cd Hc Hp | c cd ds Hc Hp Hds].
  - rewrite (bind_step _ _ _ cd st) by now apply classOf_Ok.
    rewrite Hp. simpl. eexists. reflexivity.
  - rewrite (bind_step _ _ _ cd st) by now apply classOf_Ok.
    assert ((0 <? length (interfaces cd))%nat = true) as ->.
    { destruct (interfaces cd); [congruence | reflexivity]. }
    assert (forall ps ds st, cacheConsistent st ->
              Forall2 (Depth (classes st)) ps ds ->
              (forall x, x ∈ ds -> x < max_list ds + 1)%nat ->
              (forall x, x ∈ ds -> x < fuel)%nat ->
              (forall m, (m < max_list ds + 1)%nat -> forall c st fuel,
                 cacheConsistent st -> Depth (classes st) c m -> (m < fuel)%nat ->
                 exists st', interfaceDepth fuel c st = Ok (m, st')) ->
              exists st1, mapM (interfaceDepth fuel) ps st = Ok (ds, st1)) as Hmap.
    { clear. intros ps.
      induction ps as [|p ps IHps]; intros ds st Hcons HF Hmax Hfuel IH;
        inversion HF as [|? dp ? dps Hp0 Hps]; subst; simpl.
      - eexists. reflexivity.
      - destruct (IH dp (Hmax _ (list_elem_of_here _ _)) p st fuel Hcons Hp0
                    (Hfuel _ (list_elem_of_here _ _))) as [sta Ha].
        rewrite (bind_step _ _ _ _ _ Ha).
        destruct (interfaceDepth_sound _ _ _ _ _ Hcons Ha) as (Ea & Ca & _ & _).
        destruct (IHps dps sta Ca) as [stb Hb].
        + now rewrite (extends_classes _ _ Ea).
        + intros x Hx. pose proof (Hmax x (list_elem_of_further _ _ _ Hx)).
          pose proof (max_list_elem_of_le _ _ Hx). simpl in *. lia.
        + intros x Hx. apply Hfuel. now apply list_elem_of_further.
        + intros m Hm. apply IH. simpl. lia.
        + rewrite (bind_step _ _ _ _ _ Hb). eexists. reflexivity. }
    destruct (Hmap _ _ st Hcons Hds) as [st1 H1].
    + intros x Hx. pose proof (max_list_elem_of_le _ _ Hx). lia.
    + intros x Hx. pose proof (max_list_elem_of_le _ _ Hx). lia.
    + intros m Hm. apply IH. exact Hm.
    + rewrite (bind_step _ _ st (max_list ds + 1)%nat st1)
        by (rewrite (bind_step _ _ _ _ _ H1); reflexivity).
      simpl. eexists. reflexivity.
Qed.

(** C6. From a cache the mapper built (every cached depth is the depth of
    its class): [interfaceDepth] of a class without parents is 0; for a class
    with parents it is one more than the greatest of the depths
    [interfaceDepth] returns for the parents, given fuel above that; and the
    result is stored in the cache, where cached depths stay, so that every
    repeated query returns the same value and changes nothing. *)
Theorem interfaceDepth_recurrence (st : ClassesMap) :
  cacheConsistent st ->
  (forall c cd fuel,
     classes st !! c = Some cd -> interfaces cd = [] -> (0 < fuel)%nat ->
     exists st', interfaceDepth fuel c st = Ok (0%nat, st')) /\
  (forall c cd depths fuel,
     classes st !! c = Some cd -> interfaces cd <> [] ->
     Forall2 (fun p d => exists fuel_p st_p, interfaceDepth fuel_p p st = Ok (d, st_p))
       (interfaces cd) depths ->
     (max_list depths + 1 < fuel)%nat ->
     exists st', interfaceDepth fuel c st = Ok ((max_list depths + 1)%nat, st')) /\
  (forall c d fuel st',
     interfaceDepth fuel c st = Ok (d, st') ->
     interfaceDepthCache st' !! c = Some d /\ extends st st' /\ cacheConsistent st' /\
     forall fuel', interfaceDepth fuel' c st' = Ok (d, st')).
Proof.
  intros Hcons. split; [|split].
  - intros c cd fuel Hc Hp Hfuel.
    apply interfaceDepth_complete; [exact Hcons | | exact Hfuel].
    now apply (Depth_root _ c cd).
  - intros c cd depths fuel Hc Hp Hds Hfuel.
    apply interfaceDepth_complete; [exact Hcons | | exact Hfuel].
    apply (Depth_parents _ c cd depths Hc Hp).
    eapply Forall2_impl; [exact Hds|]. intros p d (fuel_p & st_p & H).
    now destruct (interfaceDepth_sound _ _ _ _ _ Hcons H) as (_ & _ & _ & D).
  - intros c d fuel st' H.
    destruct (interfaceDepth_sound _ _ _ _ _ Hcons H) as (E & C & L & _).
    split; [exact L|]. split; [exact E|]. split; [exact C|].
    intros fuel'. now apply interfaceDepth_cached.
Qed.

Lemma interfaceDepth_recurrence_witness :
  (exists st', interfaceDepth 3 "java.lang.Object" (mapped exampleTable) = Ok (0%nat, st')) /\
  (exists st', interfaceDepth 3 "Base" (mapped exampleTable) = Ok (1%nat, st') /\
     interfaceDepthCache st' !! "Base" = Some 1%nat /\
     forall fuel', interfaceDepth fuel' "Base" st' = Ok (1%nat, st')).
Proof.
  destruct (interfaceDepth_recurrence (mapped exampleTable)
              (cacheConsistent_blank (mapped exampleTable) eq_refl))
    as (Hroot & Hparents & Hmemo).
  assert (exists st', interfaceDepth 3 "java.lang.Object" (mapped exampleTable) =
                        Ok (0%nat, st')) as Hobject.
  { eapply (Hroot "java.lang.Object"); [reflexivity | reflexivity | lia]. }
  split; [exact Hobject|].
  destruct (Hparents "Base" _ [0%nat] 3%nat eq_refl) as [st' H].
  - discriminate.
  - constructor; [|constructor]. destruct Hobject as [st0 H0]. now exists 3%nat, st0.
  - simpl. lia.
  - exists st'. split; [exact H|].
    destruct (Hmemo _ _ _ _ H) as (L & _ & _ & R). split; [exact L | exact R].
Defined.

Example interfaceDepth_example :
  (fun r => match r with Ok (d, st) => Some (d, map_to_list (interfaceDepthCache st)) | _ => None end)
    (interfaceDepth 2 "Base" (mapped exampleTable)) =
  Some (1%nat, [("java.lang.Object", 0%nat); ("Base", 1%nat)]).
Proof. vm_compute. reflexivity. Qed.

(** ** The transitive closure of the inherited interfaces *)

Lemma addTodo_done (item : string) (w : Work.t) :
  Work.done (Work.addTodo item w) = Work.done w.
Proof. unfold Work.addTodo. now destruct (_ || _). Qed.

Lemma addTodo_known (item : string) (w : Work.t) (x : string) :
  known (Work.addTodo item w) x <-> known w x \/ x = item.
Proof.
  unfold known, Work.addTodo.
  destruct (bool_decide (item ∈ Work.done w)) eqn:Ed; simpl.
  - apply bool_decide_eq_true in Ed. split; [tauto|]. intros [H| ->]; tauto.
  - destruct (bool_decide (item ∈ Work.todo w)) eqn:Et; simpl.
    + apply bool_decide_eq_true in Et. split; [tauto|]. intros [H| ->]; tauto.
    + rewrite elem_of_app, list_elem_of_singleton. tauto.
Qed.

Lemma addTodo_nodup (item : string) (w : Work.t) :
  NoDup (Work.done w ++ Work.todo w) ->
  NoDup (Work.done (Work.addTodo item w) ++ Work.todo (Work.addTodo item w)).
Proof.
  unfold Work.addTodo.
  destruct (bool_decide (item ∈ Work.done w)) eqn:Ed; simpl; [auto|].
  destruct (bool_decide (item ∈ Work.todo w)) eqn:Et; simpl; [auto|].
  apply bool_decide_eq_false in Ed, Et. intros H.
  rewrite app_assoc. apply NoDup_app. split; [exact H|]. split.
  - intros x Hx Hi. apply list_elem_of_singleton in Hi as ->.
    apply elem_of_app in Hx as [?|?]; contradiction.
  - apply NoDup_singleton.
Qed.

Lemma addAll_done (items : list string) (w : Work.t) :
  Work.done (addAll items w) = Work.done w.
Proof.
  unfold addAll. revert w. induction items as [|i items IH]; intros w; simpl; [reflexivity|].
  now rewrite IH, addTodo_done.
Qed.

Lemma addAll_known (items : list string) (w : Work.t) (x : string) :
  known (addAll items w) x <-> known w x \/ x ∈ items.
Proof.
  unfold addAll. revert w. induction items as [|i items IH]; intros w; simpl.
  - rewrite elem_of_nil. tauto.
  - rewrite IH, addTodo_known, elem_of_cons. tauto.
Qed.

Lemma addAll_nodup (items : list string) (w : Work.t) :
  NoDup (Work.done w ++ Work.todo w) ->
  NoDup (Work.done (addAll items w) ++ Work.todo (addAll items w)).
Proof.
  unfold addAll. revert w. induction items as [|i items IH]; intros w H; simpl; [exact H|].
  apply IH, addTodo_nodup, H.
Qed.

Lemma setDone_pending (item : string) (w : Work.t) :
  NoDup (Work.done w ++ Work.todo w) -> item ∈ Work.todo w ->
  Work.done (Work.setDone item w) = Work.done w ++ [item] /\
  (forall x, known (Work.setDone item w) x <-> known w x) /\
  NoDup (Work.done (Work.setDone item w) ++ Work.todo (Work.setDone item w)).
Proof.
  intros H Hi. apply NoDup_app in H as (Hd & Hdis & Ht).
  assert (item ∉ Work.done w) as Hnd by (intros Hx; exact (Hdis _ Hx Hi)).
  unfold Work.setDone, known. simpl. rewrite (bool_decide_eq_false_2 _ Hnd).
  split; [reflexivity|]. split.
  - intros x. rewrite elem_of_app, list_elem_of_singleton, list_elem_of_filter.
    destruct (decide (x = item)) as [->|Hne]; tauto.
  - apply NoDup_app. split; [|split].
    + apply NoDup_app. split; [exact Hd|]. split; [|apply NoDup_singleton].
      intros x Hx Hx'. apply list_elem_of_singleton in Hx' as ->. contradiction.
    + intros x Hx Hf. apply list_elem_of_filter in Hf as [Hne Hxt].
      apply elem_of_app in Hx as [Hx|Hx]; [exact (Hdis _ Hx Hxt)|].
      apply list_elem_of_singleton in Hx. contradiction.
    + now apply NoDup_filter.
Qed.

Lemma closure_init (table : ClassDefinitionMap) (direct : list string) :
  closureInvariant table direct (addAll direct Work.new).
Proof.
  split.
  - apply addAll_nodup. constructor.
  - intros x Hx. apply addAll_known in Hx as [[Hx|Hx]|Hx];
      [now apply elem_of_nil in Hx | now apply elem_of_nil in Hx |].
    now constructor.
  - intros x Hx. apply addAll_known. now right.
  - intros x cd p Hx. rewrite addAll_done in Hx. now apply elem_of_nil in Hx.
  - intros x Hx. rewrite addAll_done in Hx. now apply elem_of_nil in Hx.
Qed.

Lemma closure_step (table : ClassDefinitionMap) (direct : list string)
    (w : Work.t) (item : string) (rest : list string) (cd : ClassDefinition) :
  closureInvariant table direct w ->
  Work.todo w = item :: rest -> table !! item = Some cd ->
  closureInvariant table direct (Work.setDone item (addAll (interfaces cd) w)).
Proof.
  intros [Hnd Hs Hdir Hcl Hm] Htodo Hcd.
  assert (known w item) as Hki by (right; rewrite Htodo; apply list_elem_of_here).
  assert (item ∈ Work.todo (addAll (interfaces cd) w)) as Hpending.
  { assert (known (addAll (interfaces cd) w) item) as [Hd|Ht]
      by (apply addAll_known; now left); [|exact Ht].
    rewrite addAll_done in Hd. exfalso.
    apply NoDup_app in Hnd as (_ & Hdis & _). apply (Hdis _ Hd).
    rewrite Htodo. apply list_elem_of_here. }
  destruct (setDone_pending item _ (addAll_nodup (interfaces cd) w Hnd) Hpending)
    as (Hdone & Hknown & Hnodup).
  split.
  - exact Hnodup.
  - intros x Hx. apply Hknown, addAll_known in Hx as [Hx|Hx]; [now apply Hs|].
    apply (Inherited_parent table direct item x cd); auto.
  - intros x Hx. apply Hknown, addAll_known. left. now apply Hdir.
  - intros x cd' p Hx Hcd' Hp. apply Hknown, addAll_known.
    rewrite Hdone, addAll_done in Hx. apply elem_of_app in Hx as [Hx|Hx].
    + left. now apply (Hcl x cd' p).
    + apply list_elem_of_singleton in Hx as ->. rewrite Hcd in Hcd'.
      injection Hcd' as <-. now right.
  - intros x Hx. rewrite Hdone, addAll_done in Hx. apply elem_of_app in Hx as [Hx|Hx].
    + now apply Hm.
    + apply list_elem_of_singleton in Hx as ->. now rewrite Hcd.
Qed.

Lemma forEach_closure (direct : list string) (fuel : nat) (w w' : Work.t) st st' :
  closureInvariant (classes st) direct w ->
  Work.forEach fuel visitParents w st = Ok (w', st') ->
  st' = st /\ closureInvariant (classes st) direct w' /\ Work.todo w' = [] /\
  forall st2, classes st2 = classes st ->
    Work.forEach fuel visitParents w st2 = Ok (w', st2).
Proof.
  revert w. induction fuel as [|fuel IH]; intros w Hinv; simpl.
  - destruct (Work.todo w) eqn:E; [|discriminate]. intros [= <- <-]. auto.
  - destruct (Work.todo w) as [|item rest] eqn:E.
    { intros [= <- <-]. auto. }
    intros H. apply bind_Ok in H as (w1 & st1 & Hv & H).
    unfold visitParents in Hv. apply bind_Ok in Hv as (cd & st0 & Hc & Hv).
    apply classOf_Ok in Hc as [Hc ->]. injection Hv as <- <-.
    destruct (IH _ (closure_step _ _ _ _ _ _ Hinv E Hc) H) as (-> & Hinv' & Ht & Hf).
    split; [reflexivity|]. split; [exact Hinv'|]. split; [exact Ht|].
    intros st2 Hst2. unfold visitParents at 1.
    rewrite (bind_step _ _ st2 (addAll (interfaces cd) w) st2).
    + now apply Hf.
    + rewrite (bind_step _ _ st2 cd st2); [reflexivity|].
      apply classOf_Ok. now rewrite Hst2.
Qed.

(** [interfacesTransitiveClosure] returns each inherited interface once, all
    of them classes of the table; it reads the table only. *)
Lemma interfacesTransitiveClosure_spec (fuel : nat) (direct closure : list string) st st' :
  interfacesTransitiveClosure fuel direct st = Ok (closure, st') ->
  st' = st /\ NoDup closure /\
  (forall x, x ∈ closure <-> Inherited (classes st) direct x) /\
  Forall (fun x => is_Some (classes st !! x)) closure /\
  forall st2, classes st2 = classes st ->
    interfacesTransitiveClosure fuel direct st2 = Ok (closure, st2).
Proof.
  unfold interfacesTransitiveClosure. intros H.
  apply bind_Ok in H as (w & st1 & H & Hr). injection Hr as <- <-.
  change (Work.forEach fuel visitParents (addAll direct Work.new) st = Ok (w, st1)) in H.
  destruct (forEach_closure direct _ _ _ _ _ (closure_init _ direct) H)
    as (-> & [Hnd Hs Hdir Hcl Hm] & Ht & Hf).
  unfold Work.getDone. rewrite Ht, app_nil_r in Hnd.
  assert (forall x, known w x -> x ∈ Work.done w) as Hk.
  { intros x [Hx|Hx]; [exact Hx|]. rewrite Ht in Hx. now apply elem_of_nil in Hx. }
  split; [reflexivity|]. split; [exact Hnd|]. split; [|split].
  - intros x. split; [intros Hx; apply Hs; now left|].
    induction 1 as [x Hx | x p cd _ IHx Hcd Hp]; [now apply Hk, Hdir|].
    now apply Hk, (Hcl x cd p).
  - apply Forall_forall. exact Hm.
  - intros st2 Hst2.
    change (bind (Work.forEach fuel visitParents (addAll direct Work.new))
              (fun work => ret (Work.getDone work)) st2 = Ok (Work.done w, st2)).
    now rewrite (bind_step _ _ _ _ _ (Hf st2 Hst2)).
Qed.

(** ** Sorting by depth *)

Lemma Replays_ret {A : Type} (a : A) : Replays (ret a) (ret a).
Proof.
  intros st a' st' Hc [= <- <-]. split; [apply extends_refl|]. split; [exact Hc|].
  reflexivity.
Qed.

Lemma Replays_bind {A B : Type} (m m' : M A) (k k' : A -> M B) :
  Replays m m' -> (forall a, Replays (k a) (k' a)) ->
  Replays (bind m k) (bind m' k').
Proof.
  intros Hm Hk st b st' Hc H. apply bind_Ok in H as (a & st1 & H1 & H2).
  destruct (Hm _ _ _ Hc H1) as (E1 & C1 & R1).
  destruct (Hk a _ _ _ C1 H2) as (E2 & C2 & R2).
  split; [eapply extends_trans; eauto|]. split; [exact C2|].
  intros st2 E. rewrite (bind_step _ _ _ _ _ (R1 st2 (extends_trans _ _ _ E2 E))).
  now apply R2.
Qed.

Lemma Replays_interfaceDepth (fuel fuel' : nat) (c : string) :
  Replays (interfaceDepth fuel c) (interfaceDepth fuel' c).
Proof.
  intros st d st' Hc H.
  destruct (interfaceDepth_sound _ _ _ _ _ Hc H) as (E & C & L & _).
  split; [exact E|]. split; [exact C|].
  intros st2 [_ E2]. apply interfaceDepth_cached.
  exact (lookup_weaken _ _ _ _ L E2).
Qed.

Lemma Replays_byDepthDescending (fuel fuel' : nat) (x y : string) :
  Replays (byDepthDescending fuel x y) (byDepthDescending fuel' x y).
Proof.
  unfold byDepthDescending.
  apply Replays_bind; [apply Replays_interfaceDepth|]. intros d2.
  apply Replays_bind; [apply Replays_interfaceDepth|]. intros d1.
  apply Replays_ret.
Qed.

Lemma Replays_insertM {A : Type} (cmp cmp' : A -> A -> M Z) (x : A) (l : list A) :
  (forall a b, Replays (cmp a b) (cmp' a b)) ->
  Replays (insertM cmp x l) (insertM cmp' x l).
Proof.
  intros Hcmp. induction l as [|y l IH]; simpl; [apply Replays_ret|].
  apply Replays_bind; [apply Hcmp|]. intros c.
  destruct (c <=? 0)%Z; [apply Replays_ret|].
  apply Replays_bind; [exact IH|]. intros r. apply Replays_ret.
Qed.

Lemma Replays_sortM {A : Type} (cmp cmp' : A -> A -> M Z) (l : list A) :
  (forall a b, Replays (cmp a b) (cmp' a b)) ->
  Replays (sortM cmp l) (sortM cmp' l).
Proof.
  intros Hcmp. induction l as [|x l IH]; simpl; [apply Replays_ret|].
  apply Replays_bind; [exact IH|]. intros sorted. now apply Replays_insertM.
Qed.

(** What the comparator tells. *)
Lemma byDepthDescending_sound (fuel : nat) (x y : string) (z : Z) st st' :
  cacheConsistent st ->
  byDepthDescending fuel x y st = Ok (z, st') ->
  exists dx dy, Depth (classes st) x dx /\ Depth (classes st) y dy /\
                z = (Z.of_nat dy - Z.of_nat dx)%Z.
Proof.
  unfold byDepthDescending. intros Hc H.
  apply bind_Ok in H as (d2 & st1 & H2 & H).
  apply bind_Ok in H as (d1 & st2 & H1 & H). injection H as <- <-.
  destruct (interfaceDepth_sound _ _ _ _ _ Hc H2) as (E2 & C2 & _ & D2).
  destruct (interfaceDepth_sound _ _ _ _ _ C2 H1) as (_ & _ & _ & D1).
  rewrite (extends_classes _ _ E2) in D1. eauto.
Qed.

Lemma deeperOrEqual_from (table : ClassDefinitionMap) (x y : string) (dx dy : nat) :
  Depth table x dx -> Depth table y dy -> (dy <= dx)%nat -> deeperOrEqual table x y.
Proof.
  intros Hx Hy Hle dx' dy' Hx' Hy'.
  rewrite (Depth_functional _ _ _ _ Hx' Hx), (Depth_functional _ _ _ _ Hy' Hy). exact Hle.
Qed.

Lemma deeperOrEqual_trans (table : ClassDefinitionMap) (x y z : string) (dy : nat) :
  Depth table y dy ->
  deeperOrEqual table x y -> deeperOrEqual table y z -> deeperOrEqual table x z.
Proof.
  intros Hy Hxy Hyz dx dz Hx Hz.
  pose proof (Hxy _ _ Hx Hy). pose proof (Hyz _ _ Hy Hz). lia.
Qed.

Lemma insertM_sorted (fuel : nat) (x : string) (l r : list string) st st' :
  cacheConsistent st ->
  StronglySorted (deeperOrEqual (classes st)) l ->
  insertM (byDepthDescending fuel) x l st = Ok (r, st') ->
  Permutation r (x :: l) /\ StronglySorted (deeperOrEqual (classes st)) r.
Proof.
  revert r st st'. induction l as [|y l IH]; intros r st st' Hc Hs; simpl.
  - intros [= <- <-]. split; [reflexivity|]. repeat constructor.
  - intros H. apply bind_Ok in H as (c & st1 & Hcmp & H).
    destruct (byDepthDescending_sound _ _ _ _ _ _ Hc Hcmp) as (dx & dy & Dx & Dy & ->).
    destruct (Replays_byDepthDescending fuel fuel x y _ _ _ Hc Hcmp) as (E1 & C1 & _).
    apply StronglySorted_inv in Hs as [Hs Hy].
    destruct (Z.leb_spec (Z.of_nat dy - Z.of_nat dx) 0) as [Hle|Hgt].
    + injection H as <- <-. split; [reflexivity|].
      assert (deeperOrEqual (classes st) x y) as Hxy
        by (apply (deeperOrEqual_from _ _ _ dx dy); auto; lia).
      constructor; [constructor; assumption|].
      constructor; [exact Hxy|].
      eapply Forall_impl; [exact Hy|]. intros z Hyz.
      exact (deeperOrEqual_trans _ _ _ _ _ Dy Hxy Hyz).
    + apply bind_Ok in H as (r' & st2 & Hins & H). injection H as <- <-.
      rewrite <- (extends_classes _ _ E1) in Hs.
      destruct (IH _ _ _ C1 Hs Hins) as [Hp Hs'].
      rewrite (extends_classes _ _ E1) in Hs'.
      split; [rewrite Hp; apply perm_swap|].
      constructor; [exact Hs'|].
      rewrite Hp. constructor; [|exact Hy].
      apply (deeperOrEqual_from _ _ _ dy dx); auto; lia.
Qed.

Lemma sortM_sorted (fuel : nat) (l r : list string) st st' :
  cacheConsistent st ->
  sortM (byDepthDescending fuel) l st = Ok (r, st') ->
  Permutation r l /\ StronglySorted (deeperOrEqual (classes st)) r.
Proof.
  revert r st st'. induction l as [|x l IH]; intros r st st' Hc; simpl.
  - intros [= <- <-]. split; [reflexivity | constructor].
  - intros H. apply bind_Ok in H as (sorted & st1 & Hsort & Hins).
    destruct (IH _ _ _ Hc Hsort) as [Hp Hs].
    destruct (Replays_sortM (byDepthDescending fuel) (byDepthDescending fuel) l
                (Replays_byDepthDescending fuel fuel) _ _ _ Hc Hsort) as (E1 & C1 & _).
    rewrite <- (extends_classes _ _ E1) in Hs.
    destruct (insertM_sorted _ _ _ _ _ _ C1 Hs Hins) as [Hp' Hs'].
    rewrite (extends_classes _ _ E1) in Hs'.
    split; [|exact Hs']. now rewrite Hp', Hp.
Qed.

(** ** Merging the inherited variants *)

Lemma mergeVariantsOf_spec (methodName : string) (order : list string)
    (own : VariantsBySignature) st :
  Forall (fun i => is_Some (classes st !! i)) order ->
  mergeVariantsOf methodName order own st =
    Ok (mergedVariants (classes st) methodName order own, st).
Proof.
  unfold mergeVariantsOf, mergedVariants. intros H. revert own.
  induction H as [|i order [cd Hi] _ IH]; intros own; simpl; [reflexivity|].
  rewrite (bind_step _ _ st
             (match declaredBy (classes st) methodName i with
              | Some inherited => assign own inherited
              | None => own
              end) st).
  - apply IH.
  - rewrite (bind_step _ _ st cd st) by now apply classOf_Ok.
    unfold declaredBy. rewrite Hi. simpl.
    now destruct (variantsDict cd !! methodName).
Qed.

Lemma mergedVariants_snoc table methodName order i own :
  mergedVariants table methodName (order ++ [i]) own =
    match declaredBy table methodName i with
    | Some inherited => assign (mergedVariants table methodName order own) inherited
    | None => mergedVariants table methodName order own
    end.
Proof. unfold mergedVariants. now rewrite foldl_snoc. Qed.

Lemma lastDeclaration_snoc table methodName sig order i :
  lastDeclaration table methodName sig (order ++ [i]) =
    match declaration table methodName sig i with
    | Some v => Some v
    | None => lastDeclaration table methodName sig order
    end.
Proof. unfold lastDeclaration. now rewrite foldl_snoc. Qed.

(** After the merge a signature maps to its last declaration among the
    interfaces, and to the own variant only when no interface declares it. *)
Lemma mergedVariants_lookup table methodName order own sig :
  mergedVariants table methodName order own !! sig =
    match lastDeclaration table methodName sig order with
    | Some v => Some v
    | None => own !! sig
    end.
Proof.
  induction order as [|i order IH] using rev_ind; [reflexivity|].
  rewrite mergedVariants_snoc, lastDeclaration_snoc. unfold declaration.
  destruct (declaredBy table methodName i) as [inherited|]; simpl; [|exact IH].
  unfold assign. rewrite lookup_union.
  destruct (inherited !! sig) as [v|]; simpl.
  - now destruct (mergedVariants table methodName order own !! sig).
  - rewrite IH. now destruct (lastDeclaration table methodName sig order), (own !! sig).
Qed.

Lemma mergedVariants_idempotent table methodName order own :
  mergedVariants table methodName order (mergedVariants table methodName order own) =
  mergedVariants table methodName order own.
Proof.
  apply map_eq. intros sig. rewrite !mergedVariants_lookup.
  now destruct (lastDeclaration table methodName sig order).
Qed.

(** The last declaration, spelled out. *)
Lemma lastDeclaration_Some table methodName sig order v :
  lastDeclaration table methodName sig order = Some v <->
  exists before i after,
    order = before ++ i :: after /\
    declaration table methodName sig i = Some v /\
    forall j, j ∈ after ->
      declaration table methodName sig j = None.
Proof.
  induction order as [|i order IH] using rev_ind.
  - split; [discriminate|]. intros (b & i & a & H & _). now destruct b.
  - rewrite lastDeclaration_snoc.
    destruct (declaration table methodName sig i) as [w|] eqn:E.
    + split.
      * intros [= <-]. exists order, i, []. split; [reflexivity|]. split; [exact E|].
        intros j Hj. now apply elem_of_nil in Hj.
      * intros (b & i' & a & H & Hd & Hn).
        destruct a as [|x a _] using rev_ind.
        -- apply app_inj_tail in H as [_ <-]. congruence.
        -- rewrite app_comm_cons, app_assoc in H. apply app_inj_tail in H as [_ <-].
           rewrite Hn in E; [discriminate|]. apply elem_of_app. right. constructor.
    + rewrite IH. split.
      * intros (b & i' & a & -> & Hd & Hn). exists b, i', (a ++ [i]).
        split; [now rewrite <- app_assoc|]. split; [exact Hd|].
        intros j Hj. apply elem_of_app in Hj as [Hj|Hj]; [now apply Hn|].
        apply list_elem_of_singleton in Hj as ->. exact E.
      * intros (b & i' & a & H & Hd & Hn).
        destruct a as [|x a _] using rev_ind.
        -- apply app_inj_tail in H as [_ <-]. congruence.
        -- rewrite app_comm_cons, app_assoc in H. apply app_inj_tail in H as [-> <-].
           exists b, i', a. split; [reflexivity|]. split; [exact Hd|].
           intros j Hj. apply Hn, elem_of_app. now left.
Qed.

Lemma lastDeclaration_None table methodName sig order :
  lastDeclaration table methodName sig order = None <->
  forall j, j ∈ order ->
    declaration table methodName sig j = None.
Proof.
  induction order as [|i order IH] using rev_ind.
  - split; [|reflexivity]. intros _ j Hj. now apply elem_of_nil in Hj.
  - rewrite lastDeclaration_snoc.
    destruct (declaration table methodName sig i) as [w|] eqn:E.
    + split; [discriminate|]. intros H. rewrite H in E; [discriminate|].
      apply elem_of_app. right. constructor.
    + rewrite IH. split.
      * intros H j Hj. apply elem_of_app in Hj as [Hj|Hj]; [now apply H|].
        apply list_elem_of_singleton in Hj as ->. exact E.
      * intros H j Hj. apply H, elem_of_app. now left.
Qed.

Lemma mapM_pure {A B : Type} (f : A -> M B) (g : A -> B) (l : list A) st :
  (forall x, x ∈ l -> f x st = Ok (g x, st)) ->
  mapM f l st = Ok (map g l, st).
Proof.
  induction l as [|x l IH]; intros H; simpl; [reflexivity|].
  rewrite (bind_step _ _ _ _ _ (H x (list_elem_of_here _ _))).
  rewrite (bind_step _ _ _ _ _ (IH (fun y Hy => H y (list_elem_of_further _ _ _ Hy)))).
  reflexivity.
Qed.

Lemma list_to_map_keyed {A B : Type} (g : string -> A -> B) (l : list (string * A))
    (k : string) :
  (list_to_map (map (fun e => (e.1, g e.1 e.2)) l) : gmap string B) !! k =
  g k <$> (list_to_map l : gmap string A) !! k.
Proof.
  induction l as [|[k' a] l IH]; simpl.
  - now rewrite !lookup_empty.
  - destruct (decide (k' = k)) as [->|Hne].
    + now rewrite !lookup_insert_eq.
    + now rewrite !lookup_insert_ne by exact Hne.
Qed.

(** The last step of [mergeOverloadedVariants], once the interfaces are
    sorted. *)
Lemma merge_entries (order : list string) (vd : MethodsByNameBySignature) st :
  Forall (fun i => is_Some (classes st !! i)) order ->
  mapM (fun entry : string * VariantsBySignature =>
          let* variants := mergeVariantsOf entry.1 order entry.2 in
          ret (entry.1, variants))
       (map_to_list vd) st =
  Ok (map (fun e => (e.1, mergedVariants (classes st) e.1 order e.2)) (map_to_list vd), st).
Proof.
  intros H. apply mapM_pure. intros e _.
  now rewrite (bind_step _ _ _ _ _ (mergeVariantsOf_spec e.1 order e.2 st H)).
Qed.

Lemma merged_lookup (table : ClassDefinitionMap) (order : list string)
    (vd : MethodsByNameBySignature) (n : string) :
  (list_to_map (map (fun e => (e.1, mergedVariants table e.1 order e.2)) (map_to_list vd))
     : MethodsByNameBySignature) !! n =
  mergedVariants table n order <$> vd !! n.
Proof.
  rewrite (list_to_map_keyed (fun k own => mergedVariants table k order own)).
  now rewrite list_to_map_to_list.
Qed.

(** The three steps of [mergeOverloadedVariants]: closure, sort, merge. *)
Lemma mergeOverloadedVariants_steps (fuel : nat) (vd vd' : MethodsByNameBySignature)
    (direct : list string) st st' :
  cacheConsistent st ->
  mergeOverloadedVariants fuel vd direct st = Ok (vd', st') ->
  exists closure order,
    interfacesTransitiveClosure fuel direct st = Ok (closure, st) /\
    sortM (byDepthDescending fuel) closure st = Ok (order, st') /\
    forall n, vd' !! n = mergedVariants (classes st) n order <$> vd !! n.
Proof.
  unfold mergeOverloadedVariants. intros Hc H.
  apply bind_Ok in H as (closure & st0 & Hcl & H).
  destruct (interfacesTransitiveClosure_spec _ _ _ _ _ Hcl) as (-> & _ & _ & Hin & _).
  apply bind_Ok in H as (order & st1 & Hsort & H).
  apply bind_Ok in H as (merged & st2 & Hmap & H). injection H as <- <-.
  destruct (Replays_sortM _ _ closure (Replays_byDepthDescending fuel fuel)
              _ _ _ Hc Hsort) as (E & _ & _).
  destruct (sortM_sorted _ _ _ _ _ Hc Hsort) as [Hp _].
  assert (Forall (fun i => is_Some (classes st1 !! i)) order) as Hin'.
  { rewrite (extends_classes _ _ E). now rewrite Hp. }
  rewrite (merge_entries order vd st1 Hin') in Hmap. injection Hmap as <- <-.
  exists closure, order. split; [exact Hcl|]. split; [exact Hsort|].
  intros n. rewrite (extends_classes _ _ E). apply merged_lookup.
Qed.

(** The merge keeps the cache consistent: it only adds depths to it. *)
Lemma mergeOverloadedVariants_cache (fuel : nat) (vd vd' : MethodsByNameBySignature)
    (direct : list string) st st' :
  cacheConsistent st ->
  mergeOverloadedVariants fuel vd direct st = Ok (vd', st') ->
  extends st st' /\ cacheConsistent st'.
Proof.
  intros Hc H.
  destruct (mergeOverloadedVariants_steps _ _ _ _ _ _ Hc H)
    as (closure & order & _ & Hsort & _).
  destruct (Replays_sortM _ _ closure (Replays_byDepthDescending fuel fuel)
              _ _ _ Hc Hsort) as (E & C & _).
  split; assumption.
Qed.

(** ** The merge returns *)

Lemma Depth_mapped (table : ClassDefinitionMap) (c : string) (d : nat) :
  Depth table c d -> is_Some (table !! c).
Proof. intros [? cd H _|? cd ? H _ _]; now rewrite H. Qed.

Lemma mapped_bounded (table : ClassDefinitionMap) (l : list string) :
  NoDup l -> (forall x, x ∈ l -> is_Some (table !! x)) ->
  (length l <= size table)%nat.
Proof.
  intros Hnd Hin. rewrite <- length_map_to_list, <- (length_fmap fst).
  apply submseteq_length, NoDup_submseteq; [exact Hnd|].
  intros x Hx. destruct (Hin x Hx) as [cd Hcd].
  apply (list_elem_of_fmap_2' fst _ (x, cd)); [|reflexivity].
  now apply elem_of_map_to_list.
Qed.

Lemma forEach_returns (direct : list string) (fuel : nat) (w : Work.t) st :
  closureInvariant (classes st) direct w ->
  (forall x, Inherited (classes st) direct x -> is_Some (classes st !! x)) ->
  (size (classes st) < fuel + length (Work.done w))%nat ->
  exists w', Work.forEach fuel visitParents w st = Ok (w', st).
Proof.
  intros Hinv Hall. revert w Hinv.
  induction fuel as [|fuel IH]; intros w Hinv Hfuel; simpl.
  - destruct (Work.todo w) as [|item rest] eqn:E; [eexists; reflexivity|].
    exfalso. destruct Hinv as [Hnd _ _ _ Hm].
    apply NoDup_app in Hnd as (Hnd & _ & _).
    pose proof (mapped_bounded _ _ Hnd Hm). simpl in Hfuel. lia.
  - destruct (Work.todo w) as [|item rest] eqn:E; [eexists; reflexivity|].
    assert (known w item) as Hk by (right; rewrite E; apply list_elem_of_here).
    destruct (Hall item (ci_sound _ _ _ Hinv item Hk)) as [cd Hcd].
    unfold visitParents at 1.
    rewrite (bind_step _ _ st (addAll (interfaces cd) w) st)
      by (rewrite (bind_step _ _ st cd st); [reflexivity | now apply classOf_Ok]).
    apply IH; [now apply (closure_step _ _ _ _ rest)|].
    assert (item ∈ Work.todo (addAll (interfaces cd) w)) as Hpending.
    { assert (known (addAll (interfaces cd) w) item) as [Hd|Ht]
        by (apply addAll_known; now left); [|exact Ht].
      rewrite addAll_done in Hd. exfalso.
      pose proof (ci_nodup _ _ _ Hinv) as Hnd.
      apply NoDup_app in Hnd as (_ & Hdis & _). apply (Hdis _ Hd).
      rewrite E. apply list_elem_of_here. }
    destruct (setDone_pending item _
                (addAll_nodup (interfaces cd) w (ci_nodup _ _ _ Hinv)) Hpending)
      as (-> & _ & _).
    rewrite addAll_done, length_app. simpl. lia.
Qed.

Lemma interfacesTransitiveClosure_returns (fuel : nat) (direct : list string) st :
  (forall x, Inherited (classes st) direct x -> is_Some (classes st !! x)) ->
  (size (classes st) < fuel)%nat ->
  exists closure, interfacesTransitiveClosure fuel direct st = Ok (closure, st).
Proof.
  intros Hall Hfuel.
  destruct (forEach_returns direct fuel (addAll direct Work.new) st
              (closure_init _ direct) Hall) as [w Hw].
  { rewrite addAll_done. simpl. lia. }
  exists (Work.getDone w). unfold interfacesTransitiveClosure.
  change (bind (Work.forEach fuel visitParents (addAll direct Work.new))
            (fun work => ret (Work.getDone work)) st = Ok (Work.getDone w, st)).
  now rewrite (bind_step _ _ _ _ _ Hw).
Qed.

Lemma byDepthDescending_returns (fuel : nat) (x y : string) st :
  cacheConsistent st ->
  (exists d, Depth (classes st) x d /\ (d < fuel)%nat) ->
  (exists d, Depth (classes st) y d /\ (d < fuel)%nat) ->
  exists z st', byDepthDescending fuel x y st = Ok (z, st').
Proof.
  intros Hc (dx & Dx & Fx) (dy & Dy & Fy). unfold byDepthDescending.
  destruct (interfaceDepth_complete y dy st fuel Hc Dy Fy) as [st1 H1].
  destruct (interfaceDepth_sound _ _ _ _ _ Hc H1) as (E1 & C1 & _).
  rewrite <- (extends_classes _ _ E1) in Dx.
  destruct (interfaceDepth_complete x dx st1 fuel C1 Dx Fx) as [st2 H2].
  rewrite (bind_step _ _ _ _ _ H1), (bind_step _ _ _ _ _ H2).
  eexists _, _. reflexivity.
Qed.

Lemma insertM_returns (fuel : nat) (x : string) (l : list string) st :
  cacheConsistent st ->
  (forall y, y ∈ x :: l -> exists d, Depth (classes st) y d /\ (d < fuel)%nat) ->
  exists r st', insertM (byDepthDescending fuel) x l st = Ok (r, st').
Proof.
  revert st. induction l as [|y l IH]; intros st Hc Hd; simpl.
  - eexists _, _. reflexivity.
  - destruct (byDepthDescending_returns fuel x y st Hc) as (z & st1 & Hz).
    { apply Hd. constructor. }
    { apply Hd. do 2 constructor. }
    rewrite (bind_step _ _ _ _ _ Hz).
    destruct (z <=? 0)%Z; [eexists _, _; reflexivity|].
    destruct (Replays_byDepthDescending fuel fuel x y _ _ _ Hc Hz) as (E1 & C1 & _).
    destruct (IH st1 C1) as (r & st2 & Hr).
    { intros w Hw. rewrite (extends_classes _ _ E1). apply Hd.
      apply elem_of_cons in Hw as [->|Hw]; [constructor | now do 2 constructor]. }
    rewrite (bind_step _ _ _ _ _ Hr). eexists _, _. reflexivity.
Qed.

Lemma sortM_returns (fuel : nat) (l : list string) st :
  cacheConsistent st ->
  (forall y, y ∈ l -> exists d, Depth (classes st) y d /\ (d < fuel)%nat) ->
  exists r st', sortM (byDepthDescending fuel) l st = Ok (r, st').
Proof.
  induction l as [|x l IH]; intros Hc Hd; simpl.
  - eexists _, _. reflexivity.
  - destruct IH as (sorted & st1 & Hs); [exact Hc | |].
    { intros y Hy. apply Hd. now constructor. }
    rewrite (bind_step _ _ _ _ _ Hs).
    destruct (Replays_sortM _ _ l (Replays_byDepthDescending fuel fuel)
                _ _ _ Hc Hs) as (E1 & C1 & _).
    destruct (sortM_sorted _ _ _ _ _ Hc Hs) as [Hp _].
    apply insertM_returns; [exact C1|].
    intros y Hy. rewrite (extends_classes _ _ E1). apply Hd.
    apply elem_of_cons in Hy as [->|Hy]; [constructor|].
    constructor. now rewrite <- Hp.
Qed.

(** With fuel enough, [mergeOverloadedVariants] returns. *)
Lemma mergeOverloadedVariants_returns (fuel : nat) (vd : MethodsByNameBySignature)
    (direct : list string) st :
  cacheConsistent st ->
  enoughFuel fuel (classes st) direct ->
  exists vd' st', mergeOverloadedVariants fuel vd direct st = Ok (vd', st').
Proof.
  intros Hc [Hsize Hdepth].
  destruct (interfacesTransitiveClosure_returns fuel direct st) as [closure Hcl];
    [|exact Hsize|].
  { intros x Hx. destruct (Hdepth x Hx) as (d & Hd & _). exact (Depth_mapped _ _ _ Hd). }
  destruct (interfacesTransitiveClosure_spec _ _ _ _ _ Hcl) as (_ & _ & Hin & Hm & _).
  destruct (sortM_returns fuel closure st Hc) as (order & st1 & Hsort).
  { intros y Hy. apply Hdepth, Hin, Hy. }
  destruct (Replays_sortM _ _ closure (Replays_byDepthDescending fuel fuel)
              _ _ _ Hc Hsort) as (E & _ & _).
  destruct (sortM_sorted _ _ _ _ _ Hc Hsort) as [Hp _].
  unfold mergeOverloadedVariants.
  rewrite (bind_step _ _ _ _ _ Hcl), (bind_step _ _ _ _ _ Hsort).
  rewrite (bind_step _ _ _ _ _ (merge_entries order vd st1
             ltac:(rewrite (extends_classes _ _ E); now rewrite Hp))).
  eexists _, _. reflexivity.
Qed.

(** ** Idempotence of the merge *)

Lemma merge_twice (fuel : nat) (vd vd1 : MethodsByNameBySignature)
    (direct : list string) st st1 :
  cacheConsistent st ->
  mergeOverloadedVariants fuel vd direct st = Ok (vd1, st1) ->
  mergeOverloadedVariants fuel vd1 direct st1 = Ok (vd1, st1).
Proof.
  intros Hc H.
  destruct (mergeOverloadedVariants_steps _ _ _ _ _ _ Hc H)
    as (closure & order & Hcl & Hsort & Hlook).
  destruct (interfacesTransitiveClosure_spec _ _ _ _ _ Hcl) as (_ & _ & _ & Hin & Hframe).
  destruct (Replays_sortM _ _ closure (Replays_byDepthDescending fuel fuel)
              _ _ _ Hc Hsort) as (E & _ & Hreplay).
  destruct (sortM_sorted _ _ _ _ _ Hc Hsort) as [Hp _].
  unfold mergeOverloadedVariants.
  rewrite (bind_step _ _ _ _ _ (Hframe st1 (extends_classes _ _ E))).
  rewrite (bind_step _ _ _ _ _ (Hreplay st1 (extends_refl st1))).
  rewrite (bind_step _ _ _ _ _ (merge_entries order vd1 st1
             ltac:(rewrite (extends_classes _ _ E); now rewrite Hp))).
  unfold ret. f_equal. f_equal. apply map_eq. intros n.
  rewrite merged_lookup, (extends_classes _ _ E), Hlook.
  destruct (vd !! n) as [own|]; simpl; [|reflexivity].
  now rewrite mergedVariants_idempotent.
Qed.

(** The inherited interfaces of the example are [Base] and
    [java.lang.Object], of depths 1 and 0. *)
Lemma exampleTable_enoughFuel : enoughFuel 3 exampleTable ["Base"].
Proof.
  assert (Depth exampleTable "java.lang.Object" 0) as D0
    by (eapply (Depth_root exampleTable "java.lang.Object"); reflexivity).
  assert (Depth exampleTable "Base" 1) as D1.
  { eapply (Depth_parents exampleTable "Base" _ [0%nat]);
      [reflexivity | discriminate | now repeat constructor]. }
  split; [vm_compute; lia|].
  assert (forall x, Inherited exampleTable ["Base"] x ->
                    x = "Base" \/ x = "java.lang.Object") as Hx.
  { induction 1 as [x Hx | x p cd _ IH Hcd Hp].
    - apply list_elem_of_singleton in Hx. now left.
    - destruct IH as [-> | ->].
      + vm_compute in Hcd. injection Hcd as <-. simpl in Hp.
        apply list_elem_of_singleton in Hp. now right.
      + vm_compute in Hcd. injection Hcd as <-. simpl in Hp.
        now apply elem_of_nil in Hp. }
  intros x Hin. destruct (Hx x Hin) as [-> | ->]; eexists; (split; [eassumption | lia]).
Defined.

(** C8. Over a fixed class table, and from a cache the mapper built, the
    merge is idempotent: with fuel enough a first [mergeOverloadedVariants]
    returns, and whenever a first one has returned, a second one applied to
    its result returns the very same variants dictionary and leaves the
    mapper as the first left it. *)
Theorem mergeOverloadedVariants_idempotent (fuel : nat)
    (vd : MethodsByNameBySignature) (direct : list string) st :
  cacheConsistent st ->
  (enoughFuel fuel (classes st) direct ->
   exists vd1 st1, mergeOverloadedVariants fuel vd direct st = Ok (vd1, st1)) /\
  (forall vd1 st1,
     mergeOverloadedVariants fuel vd direct st = Ok (vd1, st1) ->
     mergeOverloadedVariants fuel vd1 direct st1 = Ok (vd1, st1)).
Proof.
  intros Hc. split.
  - intros Hfuel. now apply mergeOverloadedVariants_returns.
  - intros vd1 st1 H. now apply (merge_twice fuel vd vd1 direct st st1).
Qed.

Lemma mergeOverloadedVariants_idempotent_witness :
  exists vd1 st1,
    mergeOverloadedVariants 3 derivedVariants ["Base"] (mapped exampleTable) = Ok (vd1, st1) /\
    mergeOverloadedVariants 3 vd1 ["Base"] st1 = Ok (vd1, st1).
Proof.
  destruct (mergeOverloadedVariants_idempotent 3 derivedVariants ["Base"]
              (mapped exampleTable)
              (cacheConsistent_blank (mapped exampleTable) eq_refl))
    as [Hreturns Hsame].
  destruct (Hreturns exampleTable_enoughFuel) as (vd1 & st1 & H).
  exists vd1, st1. split; [exact H | exact (Hsame vd1 st1 H)].
Defined.

(** ** What the merge records *)

Lemma StronglySorted_before {A : Type} (R : A -> A -> Prop) (l1 l2 : list A) (x : A) :
  StronglySorted R (l1 ++ x :: l2) -> Forall (fun y => R y x) l1.
Proof.
  induction l1 as [|a l1 IH]; simpl; intros H; [constructor|].
  apply StronglySorted_inv in H as [H Ha]. constructor; [|now apply IH].
  rewrite Forall_forall in Ha. apply Ha, elem_of_app. right. constructor.
Qed.

Lemma merge_result (fuel : nat) (vd vd' : MethodsByNameBySignature)
    (direct : list string) st st' :
  cacheConsistent st ->
  mergeOverloadedVariants fuel vd direct st = Ok (vd', st') ->
  exists order,
    NoDup order /\
    (forall x, x ∈ order <-> Inherited (classes st) direct x) /\
    StronglySorted (deeperOrEqual (classes st)) order /\
    (forall n, vd' !! n = mergedVariants (classes st) n order <$> vd !! n) /\
    (forall n own, vd !! n = Some own ->
       exists merged, vd' !! n = Some merged /\
         forall sig v, merged !! sig = Some v <->
           (exists before i after,
              order = before ++ i :: after /\
              declaration (classes st) n sig i = Some v /\
              forall j, j ∈ after -> declaration (classes st) n sig j = None) \/
           (own !! sig = Some v /\
            forall j, j ∈ order -> declaration (classes st) n sig j = None)) /\
    (forall n sig before i after j,
       order = before ++ i :: after ->
       (forall k, k ∈ after -> declaration (classes st) n sig k = None) ->
       j ∈ order -> declaration (classes st) n sig j <> None ->
       deeperOrEqual (classes st) j i).
Proof.
  intros Hc H.
  destruct (mergeOverloadedVariants_steps _ _ _ _ _ _ Hc H)
    as (closure & order & Hcl & Hsort & Hlook).
  destruct (interfacesTransitiveClosure_spec _ _ _ _ _ Hcl) as (_ & Hnd & Hin & _ & _).
  destruct (sortM_sorted _ _ _ _ _ Hc Hsort) as [Hp Hs].
  exists order. split; [now rewrite Hp|]. split.
  { intros x. rewrite <- Hin. now rewrite Hp. }
  split; [exact Hs|]. split; [exact Hlook|]. split.
  - intros n own Hown. exists (mergedVariants (classes st) n order own).
    split; [now rewrite Hlook, Hown|].
    intros sig v. rewrite mergedVariants_lookup.
    destruct (lastDeclaration (classes st) n sig order) as [w|] eqn:E.
    + split.
      * intros [= <-]. left. now apply lastDeclaration_Some.
      * intros [Hl|[_ Hn]].
        -- apply lastDeclaration_Some in Hl. congruence.
        -- apply lastDeclaration_None in Hn. congruence.
    + split.
      * intros Hv. right. split; [exact Hv|]. now apply lastDeclaration_None.
      * intros [Hl|[Hv _]]; [|exact Hv].
        apply lastDeclaration_Some in Hl. congruence.
  - intros n sig before i after j -> Hafter Hj Hdecl.
    apply elem_of_app in Hj as [Hj|Hj].
    + apply StronglySorted_before in Hs. rewrite Forall_forall in Hs. now apply Hs.
    + apply elem_of_cons in Hj as [->|Hj].
      * intros dx dy Hx Hy. now rewrite (Depth_functional _ _ _ _ Hx Hy).
      * now destruct (Hdecl (Hafter _ Hj)).
Qed.

(** C1, as amended. With fuel enough [mergeOverloadedVariants] returns, and
    whenever it returns it has walked the inherited interfaces, each once, in
    descending order of depth. It keeps the method names of the class and,
    for each of them, records every signature an inherited interface
    declares for that name next to the signatures of the class. A signature
    declared by inherited interfaces gets the variant of the interface that
    comes last in the walk, which is a least deep one among those that
    declare it, replacing what was recorded before; the variant of the class
    is kept only for a signature no inherited interface declares. *)
Theorem mergeOverloadedVariants_merges (fuel : nat) (vd : MethodsByNameBySignature)
    (direct : list string) st :
  cacheConsistent st ->
  (enoughFuel fuel (classes st) direct ->
   exists vd' st', mergeOverloadedVariants fuel vd direct st = Ok (vd', st')) /\
  (forall vd' st',
     mergeOverloadedVariants fuel vd direct st = Ok (vd', st') ->
     exists order,
       NoDup order /\
       (forall x, x ∈ order <-> Inherited (classes st) direct x) /\
       StronglySorted (deeperOrEqual (classes st)) order /\
       (forall n, vd' !! n = mergedVariants (classes st) n order <$> vd !! n) /\
       (forall n own, vd !! n = Some own ->
          exists merged, vd' !! n = Some merged /\
            forall sig v, merged !! sig = Some v <->
              (exists before i after,
                 order = before ++ i :: after /\
                 declaration (classes st) n sig i = Some v /\
                 forall j, j ∈ after -> declaration (classes st) n sig j = None) \/
              (own !! sig = Some v /\
               forall j, j ∈ order -> declaration (classes st) n sig j = None)) /\
       (forall n sig before i after j,
          order = before ++ i :: after ->
          (forall k, k ∈ after -> declaration (classes st) n sig k = None) ->
          j ∈ order -> declaration (classes st) n sig j <> None ->
          deeperOrEqual (classes st) j i)).
Proof.
  intros Hc. split.
  - intros Hfuel. now apply mergeOverloadedVariants_returns.
  - intros vd' st' H. now apply (merge_result fuel vd vd' direct st st').
Qed.

Lemma mergeOverloadedVariants_merges_witness :
  exists vd' st' order,
    mergeOverloadedVariants 3 derivedVariants ["Base"] (mapped exampleTable) = Ok (vd', st') /\
    (forall x, x ∈ order <-> Inherited exampleTable ["Base"] x) /\
    StronglySorted (deeperOrEqual exampleTable) order /\
    (forall n, vd' !! n = mergedVariants exampleTable n order <$> derivedVariants !! n).
Proof.
  destruct (mergeOverloadedVariants_merges 3 derivedVariants ["Base"]
              (mapped exampleTable)
              (cacheConsistent_blank (mapped exampleTable) eq_refl))
    as [Hreturns Hresult].
  destruct (Hreturns exampleTable_enoughFuel) as (vd' & st' & H).
  destruct (Hresult vd' st' H) as (order & _ & Hin & Hs & Hl & _).
  exists vd', st', order. auto.
Defined.

(** C1 as stated fails: the class records its own variant of [foo()V]; the
    merge replaces it by the one of [java.lang.Object], the least deep
    interface that declares the signature. *)
Lemma merge_overwrites_own_variant :
  derivedVariants !! "foo" ≫= (fun vs => vs !! "foo()V") =
    Some (method "foo" "Derived" "foo()V") /\
  match mergeOverloadedVariants 3 derivedVariants ["Base"] (mapped exampleTable) with
  | Ok (vd', _) => vd' !! "foo" ≫= (fun vs => vs !! "foo()V")
  | _ => None
  end = Some (method "foo" "java.lang.Object" "foo()V") /\
  method "foo" "Derived" "foo()V" <> method "foo" "java.lang.Object" "foo()V" /\
  match interfaceDepth 3 "Base" (mapped exampleTable) with
  | Ok (d, _) => Some d | _ => None end = Some 1%nat /\
  match interfaceDepth 3 "java.lang.Object" (mapped exampleTable) with
  | Ok (d, _) => Some d | _ => None end = Some 0%nat.
Proof.
  split; [vm_compute; reflexivity|]. split; [vm_compute; reflexivity|].
  split; [discriminate|]. split; vm_compute; reflexivity.
Qed.

(* ===================================================================== *)
(** * Part III: further properties                                        *)
(* ===================================================================== *)

(** Closed facts of membership, by evaluation. *)
Ltac not_member := apply (proj1 (bool_decide_eq_false _)); vm_compute; reflexivity.
Ltac is_member := apply (proj1 (bool_decide_eq_true _)); vm_compute; reflexivity.

(** ** Splitting and joining *)

Lemma split_nonempty (sep : ascii) (s : string) : split sep s <> [].
Proof.
  destruct s as [|c s]; simpl; [discriminate|].
  destruct (Ascii.eqb c sep); [discriminate|].
  destruct (split sep s); discriminate.
Qed.

Lemma concat_cons (sep p : string) (ps : list string) :
  ps <> [] -> String.concat sep (p :: ps) = p +:+ sep +:+ String.concat sep ps.
Proof. destruct ps; [congruence | reflexivity]. Qed.

(** Joining the parts of a split gives the text back. *)
Lemma concat_split (sep : ascii) (s : string) :
  String.concat (String sep "") (split sep s) = s.
Proof.
  induction s as [|c s IH]; [reflexivity|]. simpl.
  destruct (Ascii.eqb c sep) eqn:E.
  - apply Ascii.eqb_eq in E as ->.
    rewrite concat_cons by apply split_nonempty.
    now rewrite IH, append_empty_l, append_cons, append_empty_l.
  - pose proof (split_nonempty sep s) as Hne.
    destruct (split sep s) as [|p ps]; [congruence|].
    destruct ps as [|q ps].
    + simpl in *. now rewrite IH.
    + rewrite concat_cons in IH by discriminate.
      rewrite concat_cons by discriminate.
      now rewrite append_cons, IH.
Qed.

Lemma split_without (sep : ascii) (s : string) :
  Forall (fun p => without sep p = true) (split sep s).
Proof.
  induction s as [|c s IH]; simpl.
  - now constructor.
  - destruct (Ascii.eqb c sep) eqn:E; [now constructor|].
    pose proof (split_nonempty sep s) as Hne.
    destruct (split sep s) as [|p ps]; [congruence|].
    inversion IH as [|? ? Hp Hps]; subst. constructor; [|exact Hps].
    unfold without in *. simpl. now rewrite E, Hp.
Qed.

Lemma split_whole (sep : ascii) (s : string) :
  without sep s = true -> split sep s = [s].
Proof.
  unfold without. induction s as [|c s IH]; [reflexivity|]. simpl. intros H.
  apply andb_true_iff in H as [Hc Hs]. apply negb_true_iff in Hc.
  now rewrite Hc, (IH Hs).
Qed.

Lemma split_append (sep : ascii) (p rest : string) :
  without sep p = true ->
  split sep (p +:+ String sep rest) = p :: split sep rest.
Proof.
  unfold without. induction p as [|c p IH]; intros H.
  - rewrite append_empty_l. simpl. now rewrite Ascii.eqb_refl.
  - simpl in H. apply andb_true_iff in H as [Hc Hp]. apply negb_true_iff in Hc.
    rewrite append_cons. simpl. now rewrite Hc, (IH Hp).
Qed.

(** Splitting the join of parts that hold no separator gives the parts back. *)
Lemma split_concat (sep : ascii) (parts : list string) :
  parts <> [] -> Forall (fun p => without sep p = true) parts ->
  split sep (String.concat (String sep "") parts) = parts.
Proof.
  induction parts as [|p ps IH]; [congruence|]. intros _ H.
  inversion H as [|? ? Hp Hps]; subst.
  destruct ps as [|q ps].
  - simpl. now apply split_whole.
  - rewrite concat_cons by discriminate.
    rewrite append_cons, append_empty_l.
    rewrite split_append by exact Hp.
    now rewrite IH.
Qed.

Lemma splitLast_split (c : ascii) (s : string) :
  match Str.splitLast c s with
  | Some (l, r) => split c s = split c l ++ [r]
  | None => split c s = [s]
  end.
Proof.
  induction s as [|a s IH]; [reflexivity|]. simpl.
  destruct (Str.splitLast c s) as [[l r]|].
  - simpl. rewrite IH. destruct (Ascii.eqb a c); [reflexivity|].
    pose proof (split_nonempty c l) as Hne.
    now destruct (split c l).
  - rewrite IH. destruct (Ascii.eqb a c); reflexivity.
Qed.

Lemma splitLast_without (c : ascii) (s : string) :
  match Str.splitLast c s with
  | Some (l, r) => s = l +:+ String c r /\ without c r = true /\ without c s = false
  | None => without c s = true
  end.
Proof.
  unfold without. induction s as [|a s IH]; [reflexivity|]. simpl.
  destruct (Str.splitLast c s) as [[l r]|].
  - destruct IH as (-> & Hr & Hs). rewrite Hs, andb_false_r.
    now rewrite append_cons.
  - rewrite IH. destruct (Ascii.eqb a c) eqn:E; simpl; [|reflexivity].
    apply Ascii.eqb_eq in E as ->. now rewrite append_empty_l.
Qed.

Lemma removelast_snoc {A : Type} (l : list A) (x : A) : removelast (l ++ [x]) = l.
Proof. apply removelast_last. Qed.

Lemma last_default_snoc {A : Type} (l : list A) (x d : A) : List.last (l ++ [x]) d = x.
Proof. apply last_last. Qed.

(** A class name is its package name and its short name, joined by a dot;
    a name without a dot is its own short name and has the empty package
    name. The short name is the last part of the split name and holds no
    dot. *)
Theorem packageName_shortClassName (className : string) :
  shortClassName className = List.last (split "." className) "" /\
  without "." (shortClassName className) = true /\
  className =
    (if without "." className then shortClassName className
     else packageName className +:+ "." +:+ shortClassName className) /\
  (without "." className = true -> packageName className = "").
Proof.
  unfold shortClassName, packageName.
  pose proof (splitLast_split "." className) as Hsplit.
  pose proof (splitLast_without "." className) as Hw.
  destruct (Str.splitLast "." className) as [[l r]|].
  - destruct Hw as (Hc & Hr & Hs). rewrite Hsplit, last_default_snoc, removelast_snoc.
    rewrite Hs, concat_split. repeat split; auto. discriminate.
  - rewrite Hsplit, Hw. simpl. repeat split; auto.
Qed.

(** ** Reserved words in class paths *)

Lemma without_append (c : ascii) (s t : string) :
  without c (s +:+ t) = without c s && without c t.
Proof. apply forallb_append. Qed.

Lemma renamed_not_reserved (part : string) :
  (if bool_decide (part ∈ reservedWords) then part +:+ "_" else part) ∉ reservedWords.
Proof.
  destruct (bool_decide (part ∈ reservedWords)) eqn:E.
  - apply bool_decide_eq_true in E. unfold reservedWords in E.
    apply elem_of_cons in E as [->|E];
      [|apply list_elem_of_singleton in E as ->];
      apply (proj1 (bool_decide_eq_false _)); vm_compute; reflexivity.
  - now apply bool_decide_eq_false in E.
Qed.

Lemma renamed_without_dot (parts : list string) :
  Forall (fun p => without "." p = true) parts ->
  Forall (fun p => without "." p = true)
    (map (fun part => if bool_decide (part ∈ reservedWords) then part +:+ "_" else part)
         parts).
Proof.
  intros H. apply Forall_map. eapply Forall_impl; [exact H|].
  intros p Hp. simpl. destruct (bool_decide (p ∈ reservedWords)); [|exact Hp].
  now rewrite without_append, Hp.
Qed.

Lemma map_nonempty {A B : Type} (f : A -> B) (l : list A) : l <> [] -> map f l <> [].
Proof. now destruct l. Qed.

(** The components of a fixed path are the renamed components of the path. *)
Lemma fixClassPath_split (fullName : string) :
  split "." (fixClassPath fullName) =
    map (fun part => if bool_decide (part ∈ reservedWords) then part +:+ "_" else part)
        (split "." fullName).
Proof.
  unfold fixClassPath. apply split_concat.
  - apply map_nonempty, split_nonempty.
  - apply renamed_without_dot, split_without.
Qed.

Lemma rename_unreserved (parts : list string) :
  Forall (fun p => p ∉ reservedWords) parts ->
  map (fun part => if bool_decide (part ∈ reservedWords) then part +:+ "_" else part)
      parts = parts.
Proof.
  induction 1 as [|p ps Hp _ IH]; [reflexivity|]. simpl. rewrite IH.
  now rewrite (bool_decide_eq_false_2 _ Hp).
Qed.

(** [fixClassPath] keeps the number of components of a path, and no
    component of its result is a reserved word. It changes nothing in a path
    without reserved words, and so nothing in its own results: fixing twice
    is fixing once. *)
Theorem fixClassPath_no_reserved_word (fullName : string) :
  length (split "." (fixClassPath fullName)) = length (split "." fullName) /\
  Forall (fun part => part ∉ reservedWords) (split "." (fixClassPath fullName)) /\
  (Forall (fun part => part ∉ reservedWords) (split "." fullName) ->
   fixClassPath fullName = fullName) /\
  fixClassPath (fixClassPath fullName) = fixClassPath fullName.
Proof.
  assert (Hclean : Forall (fun part => part ∉ reservedWords)
                     (split "." (fixClassPath fullName))).
  { rewrite fixClassPath_split.
    apply Forall_map, Forall_forall. intros p _. apply renamed_not_reserved. }
  assert (Hid : forall s, Forall (fun part => part ∉ reservedWords) (split "." s) ->
                          fixClassPath s = s).
  { intros s H. unfold fixClassPath. rewrite (rename_unreserved _ H).
    apply concat_split. }
  split; [rewrite fixClassPath_split; apply length_map|].
  split; [exact Hclean|]. split; [apply Hid | apply Hid, Hclean].
Qed.

Lemma removelast_map {A B : Type} (f : A -> B) (l : list A) :
  removelast (map f l) = map f (removelast l).
Proof.
  induction l as [|x l IH]; [reflexivity|].
  destruct l as [|y l]; [reflexivity|].
  change (f x :: removelast (map f (y :: l)) = f x :: map f (removelast (y :: l))).
  now rewrite IH.
Qed.

Lemma Forall_removelast {A : Type} (P : A -> Prop) (l : list A) :
  Forall P l -> Forall P (removelast l).
Proof.
  induction 1 as [|x l Hx Hl IH]; [constructor|].
  destruct l as [|y l]; [constructor|].
  change (Forall P (x :: removelast (y :: l))). now constructor.
Qed.

(** The quoted package name of a class, [packageName(fixClassPath(c))], is
    the fixed path of its package name: renaming reserved words and dropping
    the class name commute. *)
Theorem packageName_fixClassPath (className : string) :
  packageName (fixClassPath className) = fixClassPath (packageName className).
Proof.
  unfold packageName at 1. rewrite fixClassPath_split, removelast_map.
  unfold packageName, fixClassPath at 1.
  destruct (removelast (split "." className)) as [|p ps] eqn:E; [reflexivity|].
  rewrite split_concat; [reflexivity|discriminate|].
  rewrite <- E. apply Forall_removelast, split_without.
Qed.

(** ** The parameter list of a generic prototype *)

Lemma substring_all (s : string) : String.substring 0 (String.length s) s = s.
Proof. induction s as [|c s IH]; [reflexivity|]. simpl. now rewrite IH. Qed.

Lemma dropFirst_append (p r : string) :
  Str.dropFirst (String.length p) (p +:+ r) = r.
Proof.
  unfold Str.dropFirst. rewrite length_append.
  replace (String.length p + String.length r - String.length p)%nat
    with (String.length r) by lia.
  induction p as [|c p IH]; [apply substring_all|].
  rewrite append_cons. exact IH.
Qed.

Lemma matchHere_comma (bol : bool) (s : string) :
  RegExp.matchHere commaBeforeText bol s =
    match s with
    | String a (String c _) => Ascii.eqb "," a && negb (isSpace c)
    | _ => false
    end.
Proof.
  destruct s as [|a [|c s]]; simpl; unfold Chars.exactly.
  - reflexivity.
  - now rewrite andb_false_r.
  - now rewrite andb_true_r.
Qed.

Lemma searchIndex_comma_bol (bol bol' : bool) (s : string) :
  searchIndex commaBeforeText bol s = searchIndex commaBeforeText bol' s.
Proof.
  destruct s as [|a s]; cbn [searchIndex]; now rewrite !(matchHere_comma _ _).
Qed.

(** The first place to split at: a comma, text without such a place before
    it, text that starts with a character other than white space after it. *)
Lemma searchIndex_Some (bol : bool) (s : string) (i : nat) :
  searchIndex commaBeforeText bol s = Some i ->
  exists pre c rest,
    s = pre +:+ String "," (String c rest) /\ String.length pre = i /\
    isSpace c = false /\ unsplittable pre.
Proof.
  unfold unsplittable. revert bol i. induction s as [|a s IH]; intros bol i.
  - cbn [searchIndex]. rewrite matchHere_comma. discriminate.
  - cbn [searchIndex]. rewrite matchHere_comma.
    destruct s as [|c s'] eqn:Es.
    + simpl. discriminate.
    + destruct (Ascii.eqb "," a && negb (isSpace c)) eqn:E.
      * intros [= <-]. apply andb_true_iff in E as [Ea Ec].
        apply Ascii.eqb_eq in Ea as <-. apply negb_true_iff in Ec.
        exists "", c, s'. repeat split; auto.
      * rewrite <- Es in *. intros H.
        destruct (searchIndex commaBeforeText false s) as [j|] eqn:Ej;
          [|discriminate].
        injection H as <-.
        destruct (IH _ _ Ej) as (pre & c' & rest & Hs & Hlen & Hc' & Hpre).
        exists (String a pre), c', rest. rewrite append_cons, <- Hs.
        repeat split; auto; [simpl; now rewrite Hlen|].
        cbn [searchIndex]. rewrite matchHere_comma.
        rewrite (searchIndex_comma_bol false true), Hpre.
        destruct pre as [|b pre']; [reflexivity|].
        rewrite Es in Hs. rewrite append_cons in Hs. injection Hs as -> _.
        now rewrite E.
Qed.

Lemma splitParamsLoop_done (fuel : nat) (result : list string) :
  splitParamsLoop fuel "" result = Some result.
Proof. now destruct fuel. Qed.

Lemma splitParamsLoop_spec (fuel : nat) (s : string) (acc : list string) :
  (String.length s <= fuel)%nat ->
  exists parts,
    splitParamsLoop fuel s acc = Some (acc ++ parts) /\
    String.concat "," parts = s /\
    (s <> "" -> parts <> []) /\
    Forall unsplittable parts.
Proof.
  revert s acc. induction fuel as [|fuel IH]; intros s acc Hlen.
  - destruct s; [|simpl in Hlen; lia].
    exists []. rewrite app_nil_r. repeat split; auto.
  - destruct s as [|a s'] eqn:Es.
    { exists []. rewrite app_nil_r. repeat split; auto. }
    rewrite <- Es in *. cbn [splitParamsLoop].
    replace (0 <? String.length s)%nat with true
      by (subst s; reflexivity).
    destruct (searchIndex commaBeforeText true s) as [i|] eqn:Ei.
    + destruct (searchIndex_Some _ _ _ Ei) as (pre & c & rest & Hs & Hi & Hc & Hpre).
      assert (Hsub : String.substring 0 i s = pre).
      { rewrite Hs, <- Hi. apply substring_prefix. }
      assert (Hdrop : Str.dropFirst (i + 1) s = String c rest).
      { rewrite Hs, <- Hi.
        change (pre +:+ String "," (String c rest))
          with (pre +:+ ("," +:+ String c rest)).
        rewrite <- append_assoc.
        replace (String.length pre + 1)%nat with (String.length (pre +:+ ","))
          by (rewrite length_append; reflexivity).
        apply dropFirst_append. }
      rewrite Hsub, Hdrop.
      destruct (IH (String c rest) (acc ++ [pre])) as (parts & Hloop & Hcat & Hne & Hall).
      { rewrite Hs, length_append in Hlen. simpl in *. lia. }
      exists (pre :: parts). rewrite Hloop, <- app_assoc.
      split; [reflexivity|]. split; [|split; [discriminate | now constructor]].
      rewrite concat_cons by (apply Hne; discriminate).
      now rewrite Hcat, Hs.
    + rewrite splitParamsLoop_done. exists [s].
      split; [reflexivity|]. split; [reflexivity|].
      split; [discriminate|]. now constructor.
Qed.

(** [splitParams] returns for every text. Joining its parts with commas
    gives the text back, no part holds a place to split at, and only the
    empty text has no parts. *)
Theorem splitParams_joins_back (s : string) :
  exists parts,
    splitParams s = Some parts /\
    String.concat "," parts = s /\
    Forall unsplittable parts /\
    (parts = [] <-> s = "").
Proof.
  destruct (splitParamsLoop_spec (String.length s) s []) as (parts & H & Hcat & Hne & Hall);
    [lia|].
  exists parts. repeat split; auto.
  - intros ->. now rewrite <- Hcat.
  - intros ->. simpl in H. now injection H as <-.
Qed.

Lemma last_cons (a : ascii) (p : string) :
  p <> "" -> Str.last (String a p) = Str.last p.
Proof. now destruct p. Qed.

Lemma searchIndex_joint (p : string) (c : ascii) (rest : string) :
  unsplittable p -> Str.last p <> Some ","%char -> isSpace c = false ->
  searchIndex commaBeforeText true (p +:+ String "," (String c rest)) =
    Some (String.length p).
Proof.
  unfold unsplittable. intros Hp Hlast Hc. revert Hp Hlast.
  assert (Hbase : forall bol,
            searchIndex commaBeforeText bol (String "," (String c rest)) = Some 0%nat).
  { intros bol. cbn [searchIndex]. rewrite matchHere_comma.
    now rewrite Ascii.eqb_refl, Hc. }
  induction p as [|a p IH]; intros Hp Hlast.
  - rewrite append_empty_l. apply Hbase.
  - rewrite append_cons. cbn [searchIndex] in Hp |- *.
    rewrite matchHere_comma in Hp. rewrite matchHere_comma.
    destruct p as [|b p'].
    + rewrite append_empty_l.
      destruct (Ascii.eqb_spec "," a) as [<-|_]; [now destruct Hlast|].
      cbn [andb]. now rewrite Hbase.
    + rewrite append_cons.
      destruct (Ascii.eqb "," a && negb (isSpace b)); [discriminate|].
      rewrite <- append_cons.
      rewrite (searchIndex_comma_bol false true), IH; [reflexivity| |].
      * rewrite (searchIndex_comma_bol true false).
        now destruct (searchIndex commaBeforeText false (String b p')).
      * rewrite last_cons in Hlast by discriminate. exact Hlast.
Qed.

Lemma concat_printed (p : string) (ps : list string) :
  printedType p ->
  exists c rest, String.concat "," (p :: ps) = String c rest /\ isSpace c = false.
Proof.
  intros (_ & (c & rest & -> & Hc) & _).
  destruct ps as [|q ps].
  - now exists c, rest.
  - rewrite concat_cons by discriminate. rewrite append_cons. eauto.
Qed.

Lemma splitParamsLoop_joined (types : list string) (fuel : nat) (acc : list string) :
  Forall printedType types ->
  (String.length (String.concat "," types) <= fuel)%nat ->
  splitParamsLoop fuel (String.concat "," types) acc = Some (acc ++ types).
Proof.
  revert fuel acc. induction types as [|p ps IH]; intros fuel acc Hall Hlen.
  - simpl. rewrite splitParamsLoop_done. now rewrite app_nil_r.
  - inversion Hall as [|? ? Hp Hps]; subst.
    destruct (concat_printed p ps Hp) as (c0 & r0 & E0 & _).
    destruct fuel as [|fuel]; [rewrite E0 in Hlen; simpl in Hlen; lia|].
    cbn [splitParamsLoop].
    replace (0 <? String.length (String.concat "," (p :: ps)))%nat with true
      by (rewrite E0; reflexivity).
    destruct ps as [|q ps].
    + simpl. destruct Hp as (Hp & _). unfold unsplittable in Hp. rewrite Hp.
      apply splitParamsLoop_done.
    + rewrite concat_cons in * by discriminate.
      inversion Hps as [|? ? Hq _]; subst.
      destruct (concat_printed q ps Hq) as (c & rest & E & Hc).
      rewrite E in *.
      change (p +:+ "," +:+ String c rest) with (p +:+ String "," (String c rest)) in *.
      destruct Hp as (Hp & _ & Hlast).
      rewrite (searchIndex_joint p c rest Hp Hlast Hc).
      rewrite substring_prefix.
      assert (Hdrop : Str.dropFirst (String.length p + 1)
                        (p +:+ String "," (String c rest)) = String c rest).
      { change (p +:+ String "," (String c rest))
          with (p +:+ ("," +:+ String c rest)).
        rewrite <- append_assoc.
        replace (String.length p + 1)%nat with (String.length (p +:+ ","))
          by (rewrite length_append; reflexivity).
        apply dropFirst_append. }
      rewrite Hdrop, (IH fuel (acc ++ [p]) Hps).
      * now rewrite <- app_assoc.
      * rewrite length_append in Hlen. simpl in *. lia.
Qed.

(** [splitParams] undoes the printing of a parameter list: the types, joined
    by commas without a space, are split into the types again, whatever
    commas followed by a space they hold. *)
Theorem splitParams_of_printed_list (types : list string) :
  Forall printedType types ->
  splitParams (String.concat "," types) = Some types.
Proof.
  intros H. unfold splitParams.
  now rewrite (splitParamsLoop_joined types _ [] H) by lia.
Qed.

Lemma printedType_examples :
  Forall printedType ["java.util.Map<K, V>"; "int"; "java.lang.String[]"].
Proof.
  repeat constructor; try reflexivity; try discriminate;
    eexists _, _; split; reflexivity.
Qed.

Lemma splitParams_of_printed_list_witness :
  splitParams "java.util.Map<K, V>,int,java.lang.String[]" =
    Some ["java.util.Map<K, V>"; "int"; "java.lang.String[]"].
Proof. exact (splitParams_of_printed_list _ printedType_examples). Defined.

(** ** Short names and aliases *)

Lemma set_plain (k : string) (v : option string) (map : ShortNames.t) :
  k <> "__proto__" ->
  ShortNames.set k v map =
    {| ShortNames.own := <[k := v]> (ShortNames.own map);
       ShortNames.inherits := ShortNames.inherits map |}.
Proof.
  intros Hk. unfold ShortNames.set.
  destruct (String.eqb_spec k "__proto__") as [->|_]; [contradiction|].
  simpl. now destruct (bool_decide _).
Qed.

Lemma set_own_other (k k' : string) (v : option string) (map : ShortNames.t) :
  k' <> k ->
  ShortNames.own (ShortNames.set k v map) !! k' = ShortNames.own map !! k'.
Proof.
  intros Hk. unfold ShortNames.set.
  destruct (bool_decide _); simpl; [now rewrite lookup_insert_ne|].
  destruct (String.eqb k "__proto__" && ShortNames.inherits map); simpl.
  - now destruct v.
  - now rewrite lookup_insert_ne.
Qed.

Lemma addShortName_own_other (map : ShortNames.t) (x s : string) :
  s <> shortClassName x ->
  ShortNames.own (addShortName map x) !! s = ShortNames.own map !! s.
Proof.
  intros Hs. unfold addShortName.
  destruct (_ || _); now apply set_own_other.
Qed.

Lemma shortNamesAt_other (seen : list string) (x s : string)
    (map map' : gmap string (option string)) :
  s <> shortClassName x ->
  map' !! s = map !! s ->
  shortNamesAt (fun c => c ∈ seen) map s ->
  shortNamesAt (fun c => c ∈ seen ++ [x]) map' s.
Proof.
  intros Hs Hsame [Hown Hnone].
  assert (Hin : forall c, c ∈ seen ++ [x] <-> c ∈ seen \/ c = x).
  { intros c. rewrite elem_of_app, list_elem_of_singleton. tauto. }
  split.
  - intros long. rewrite Hsame, Hown. split.
    + intros (Hl & Hsl & Hres & Hobj & Huniq).
      split; [apply Hin; auto|]. split; [exact Hsl|]. split; [exact Hres|].
      split; [exact Hobj|].
      intros o Ho Hso. apply Hin in Ho as [Ho| ->]; [auto | congruence].
    + intros (Hl & Hsl & Hres & Hobj & Huniq).
      split; [apply Hin in Hl as [Hl| ->]; [exact Hl | congruence]|].
      split; [exact Hsl|]. split; [exact Hres|]. split; [exact Hobj|].
      intros o Ho. apply Huniq, Hin. auto.
  - rewrite Hsame, Hnone. split.
    + intros [H|[Hp H]].
      * left. intros c Hc. apply Hin in Hc as [Hc| ->]; [auto | congruence].
      * right. split; [exact Hp|]. intros c1 c2 H1 H2 S1 S2.
        apply Hin in H1 as [H1| ->]; [|congruence].
        apply Hin in H2 as [H2| ->]; [|congruence]. auto.
    + intros [H|[Hp H]].
      * left. intros c Hc. apply H, Hin. auto.
      * right. split; [exact Hp|]. intros c1 c2 H1 H2.
        apply H; apply Hin; auto.
Qed.

(** What the loop of [createShortNameMap] keeps: the own properties are the
    short-name map of the classes seen, and the object inherits from
    [Object.prototype] until a class named [__proto__] is seen. *)
Definition shortNamesSeen (seen : list string) (map : ShortNames.t) : Prop :=
  shortNamesOf (fun c => c ∈ seen) (ShortNames.own map) /\
  (ShortNames.inherits map = true <->
   forall c, c ∈ seen -> shortClassName c <> "__proto__").

Lemma proto_inherited : "__proto__" ∈ objectPrototypeKeys.
Proof. vm_compute. repeat first [apply list_elem_of_here | apply list_elem_of_further]. Qed.

Lemma inReservedShortNames_spec (k : string) :
  inReservedShortNames k = false <->
  (k ∉ reservedShortNames.*1) /\ (k ∉ objectPrototypeKeys).
Proof.
  unfold inReservedShortNames. rewrite orb_false_iff, !bool_decide_eq_false. tauto.
Qed.

Lemma addShortName_step (seen : list string) (x : string) (map : ShortNames.t) :
  shortNamesSeen seen map -> x ∉ seen ->
  shortNamesSeen (seen ++ [x]) (addShortName map x).
Proof.
  intros [Hspec Hinh] Hx.
  assert (Hin : forall c, c ∈ seen ++ [x] <-> c ∈ seen \/ c = x).
  { intros c. rewrite elem_of_app, list_elem_of_singleton. tauto. }
  destruct (Hspec (shortClassName x)) as [Hown Hnone].
  split.
  - intros s. destruct (decide (s = shortClassName x)) as [->|Hs].
    2:{ eapply shortNamesAt_other; [exact Hs | | apply Hspec].
        now apply addShortName_own_other. }
    unfold shortNamesAt, addShortName.
    destruct (inReservedShortNames (shortClassName x)) eqn:Eres; simpl.
    + (* a reserved name, or the name of an inherited property *)
      assert (Hno : ~ ((shortClassName x ∉ reservedShortNames.*1) /\
                       (shortClassName x ∉ objectPrototypeKeys))).
      { intros H. apply inReservedShortNames_spec in H. congruence. }
      destruct (decide (shortClassName x = "__proto__")) as [Hp|Hp].
      * unfold ShortNames.set. rewrite Hp in *.
        destruct (ShortNames.own map !! "__proto__") as [v|] eqn:E.
        -- rewrite bool_decide_eq_true_2 by eauto. simpl. rewrite lookup_insert_eq.
           split.
           ++ intros long. split; [discriminate|].
              intros (_ & _ & H1 & H2 & _). exfalso. now apply H2, proto_inherited.
           ++ split; [discriminate|]. intros [H|[_ H]]; exfalso.
              ** apply (H x); [apply Hin; auto | exact Hp].
              ** assert (Some v = None :> option (option string)) as Hv; [|discriminate].
                 apply Hnone. right. split; [reflexivity|].
                 intros c1 c2 H1 H2. apply H; apply Hin; auto.
        -- rewrite bool_decide_eq_false_2 by (intros [? H]; discriminate H). simpl.
           destruct (ShortNames.inherits map) eqn:Ei; simpl.
           ++ rewrite E. split.
              ** intros long. split; [discriminate|].
                 intros (_ & _ & H1 & H2 & _). exfalso. now apply H2, proto_inherited.
              ** split; [|reflexivity]. intros _. right. split; [reflexivity|].
                 intros c1 c2 H1 H2 S1 S2.
                 apply Hin in H1 as [H1| ->];
                   [exfalso; revert S1; now apply (proj1 Hinh)|].
                 apply Hin in H2 as [H2| ->];
                   [exfalso; revert S2; now apply (proj1 Hinh)|]. reflexivity.
           ++ rewrite lookup_insert_eq. split.
              ** intros long. split; [discriminate|].
                 intros (_ & _ & H1 & H2 & _). exfalso. now apply H2, proto_inherited.
              ** split; [discriminate|]. intros [H|[_ H]]; exfalso.
                 --- apply (H x); [apply Hin; auto | exact Hp].
                 --- assert (false = true) as Ht; [|discriminate].
                     apply Hinh. intros c Hc Hsc. apply Hx.
                     rewrite <- (H c x); [exact Hc | apply Hin; auto
                                          | apply Hin; auto | exact Hsc | exact Hp].
      * rewrite set_plain by exact Hp. simpl. rewrite lookup_insert_eq. split.
        -- intros long. split; [discriminate|].
           intros (_ & _ & H1 & H2 & _). exfalso. now apply Hno.
        -- split; [discriminate|]. intros [H|[H _]]; exfalso; [|contradiction].
           apply (H x); [apply Hin; auto | reflexivity].
    + apply inReservedShortNames_spec in Eres as [Eres Eobj].
      assert (Hp : shortClassName x <> "__proto__").
      { intros Hp. apply Eobj. rewrite Hp. apply proto_inherited. }
      assert (Hhas : ShortNames.has (shortClassName x) map =
                     bool_decide (is_Some (ShortNames.own map !! shortClassName x))).
      { unfold ShortNames.has. rewrite (bool_decide_eq_false_2 _ Eobj).
        now rewrite andb_false_r, orb_false_r. }
      rewrite Hhas. case_bool_decide as Esome; rewrite set_plain by exact Hp; simpl;
        rewrite lookup_insert_eq.
      * split.
        -- intros long. split; [discriminate|].
           intros (Hl & Hsl & _ & _ & Huniq). exfalso.
           assert (long = x) as ->
             by (symmetry; apply Huniq; [apply Hin; auto | reflexivity]).
           destruct Esome as [v E].
           assert (Some v = None :> option (option string)) as Hv; [|discriminate].
           rewrite <- E. apply Hnone. left.
           intros c Hc Hsc. apply Hx.
           rewrite <- (Huniq c); [exact Hc | apply Hin; auto | exact Hsc].
        -- split; [discriminate|]. intros [H|[H _]]; exfalso; [|contradiction].
           apply (H x); [apply Hin; auto | reflexivity].
      * assert (Hfree : ShortNames.own map !! shortClassName x = None).
        { destruct (ShortNames.own map !! shortClassName x) eqn:El; [|reflexivity].
          destruct Esome. eauto. }
        apply Hnone in Hfree as [Hfree|[Hfree _]]; [|contradiction].
        split.
        -- intros long. split.
           ++ intros [= <-].
              split; [apply Hin; auto|]. split; [reflexivity|]. split; [exact Eres|].
              split; [exact Eobj|].
              intros o Ho Hso. apply Hin in Ho as [Ho| ->]; [|reflexivity].
              exfalso. revert Hso. now apply Hfree.
           ++ intros (Hl & Hsl & _ & _ & Huniq). f_equal. f_equal.
              apply Huniq; [apply Hin; auto | reflexivity].
        -- split; [discriminate|]. intros [H|[H _]]; exfalso; [|contradiction].
           apply (H x); [apply Hin; auto | reflexivity].
  - (* the prototype *)
    assert (Hi : ShortNames.inherits (addShortName map x) =
                 ShortNames.inherits map && negb (String.eqb (shortClassName x) "__proto__")).
    { unfold addShortName.
      destruct (String.eqb_spec (shortClassName x) "__proto__") as [Hp|Hp].
      - rewrite Hp. unfold inReservedShortNames.
        rewrite (bool_decide_eq_true_2 _ proto_inherited), orb_true_r. simpl.
        rewrite andb_false_r. unfold ShortNames.set.
        destruct (ShortNames.own map !! "__proto__") as [v|] eqn:E.
        + rewrite bool_decide_eq_true_2 by eauto. simpl.
          destruct (ShortNames.inherits map) eqn:Ei; [|reflexivity].
          exfalso. assert (Some v = None :> option (option string)) as Hv; [|discriminate].
          rewrite <- E. rewrite <- Hp in *. apply Hnone. left. now apply Hinh.
        + rewrite bool_decide_eq_false_2 by (intros [? H]; discriminate H). simpl.
          now destruct (ShortNames.inherits map).
      - rewrite andb_true_r. destruct (_ || _); now rewrite set_plain by exact Hp. }
    rewrite Hi, andb_true_iff, negb_true_iff, Hinh. split.
    + intros [H Hp] c Hc. apply Hin in Hc as [Hc| ->]; [now apply H|].
      now apply String.eqb_neq.
    + intros H. split.
      * intros c Hc. apply H, Hin. auto.
      * apply String.eqb_neq. apply H, Hin. auto.
Qed.

Lemma foldl_addShortName (order seen : list string) (map : ShortNames.t) :
  shortNamesSeen seen map -> NoDup (seen ++ order) ->
  shortNamesSeen (seen ++ order) (foldl addShortName map order).
Proof.
  revert seen map. induction order as [|x order IH]; intros seen map Hinv Hnd.
  - now rewrite app_nil_r.
  - assert (Hfresh : x ∉ seen).
    { apply NoDup_app in Hnd as (_ & Hdisj & _). intros Hin.
      apply (Hdisj x Hin). now left. }
    replace (seen ++ x :: order) with ((seen ++ [x]) ++ order) in *
      by (now rewrite <- app_assoc).
    simpl. apply IH; [|exact Hnd]. now apply addShortName_step.
Qed.

Lemma set_shortToLongNameMap_twice v w st :
  set_shortToLongNameMap v (set_shortToLongNameMap w st) = set_shortToLongNameMap v st.
Proof. reflexivity. Qed.

Lemma shortNamesOf_empty : shortNamesOf (fun c => c ∈ @nil string) ∅.
Proof.
  intros s. split.
  - intros long. rewrite lookup_empty. split; [discriminate|].
    intros (H & _). now apply elem_of_nil in H.
  - rewrite lookup_empty. split; [|reflexivity].
    intros _. left. intros c H. now apply elem_of_nil in H.
Qed.

Lemma shortNamesOf_ext (all all' : string -> Prop) map :
  (forall c, all c <-> all' c) -> shortNamesOf all map -> shortNamesOf all' map.
Proof.
  intros E Hspec s. destruct (Hspec s) as [Hown Hnone]. split.
  - intros long. rewrite Hown, (E long). split.
    + intros (H1 & H2 & H3 & H4 & H5). split; [exact H1|]. split; [exact H2|].
      split; [exact H3|]. split; [exact H4|]. intros o Ho. apply H5, E, Ho.
    + intros (H1 & H2 & H3 & H4 & H5). split; [exact H1|]. split; [exact H2|].
      split; [exact H3|]. split; [exact H4|]. intros o Ho. apply H5, E, Ho.
  - rewrite Hnone. split.
    + intros [H|[Hp H]]; [left | right; split; [exact Hp|]].
      * intros c Hc. apply H, E, Hc.
      * intros c1 c2 H1 H2. apply H; apply E; assumption.
    + intros [H|[Hp H]]; [left | right; split; [exact Hp|]].
      * intros c Hc. apply H, E, Hc.
      * intros c1 c2 H1 H2. apply H; apply E; assumption.
Qed.

(** The loop returns, and builds the short-name map of the classes it
    visits. *)
Lemma createShortNameMapIn_spec (order : list string) st :
  NoDup order ->
  exists map,
    createShortNameMapIn order st = Ok (tt, set_shortToLongNameMap (Some map) st) /\
    shortNamesOf (fun c => c ∈ order) map.
Proof.
  intros Hnd. unfold createShortNameMapIn.
  destruct (foldl_addShortName order [] ShortNames.empty) as [Hspec _].
  - split; [apply shortNamesOf_empty|]. split; [|reflexivity].
    intros _ c H. now apply elem_of_nil in H.
  - exact Hnd.
  - eexists. split; [|exact Hspec]. reflexivity.
Qed.

Lemma createShortNameMap_returns st :
  exists map,
    createShortNameMap st = Ok (tt, set_shortToLongNameMap (Some map) st) /\
    shortNamesOf (fun c => c ∈ allClasses st) map.
Proof.
  destruct (createShortNameMapIn_spec (elements (allClasses st)) st
              (NoDup_elements _)) as (map & Hrun & Hspec).
  exists map. split.
  - unfold createShortNameMap. unfold bind at 1, read. exact Hrun.
  - eapply shortNamesOf_ext; [|exact Hspec]. intros c. apply elem_of_elements.
Qed.

Lemma createShortNameMap_result st st' :
  createShortNameMap st = Ok (tt, st') ->
  exists map,
    st' = set_shortToLongNameMap (Some map) st /\
    shortNamesOf (fun c => c ∈ allClasses st) map.
Proof.
  destruct (createShortNameMap_returns st) as (map & Hrun & Hspec).
  rewrite Hrun. intros [= <-]. eauto.
Qed.

Lemma shortNamesOf_unique (all : string -> Prop) (m1 m2 : gmap string (option string)) :
  shortNamesOf all m1 -> shortNamesOf all m2 -> m1 = m2.
Proof.
  intros H1 H2. apply map_eq. intros s.
  destruct (H1 s) as [Hown1 Hnone1]. destruct (H2 s) as [Hown2 Hnone2].
  destruct (m1 !! s) as [[l1|]|] eqn:E1.
  - symmetry. apply Hown2, Hown1. reflexivity.
  - destruct (m2 !! s) as [[l2|]|] eqn:E2; [|reflexivity|].
    + assert (Some None = Some (Some l2) :> option (option string)) as E
        by (apply Hown1, Hown2; reflexivity).
      discriminate E.
    + assert (Some None = None :> option (option string)) as E
        by (apply Hnone1, Hnone2; reflexivity).
      discriminate E.
  - symmetry. apply Hnone2, Hnone1. reflexivity.
Qed.

(** [createShortNameMap] returns for every set of included classes and
    changes the short-name map only. In the map it builds a short name maps
    to a class exactly when that class is the only included class with that
    short name and the name is neither reserved nor the name of a property
    that every object has, such as [constructor] or [toString]; a short
    name no included class has is absent. The order in which the included
    classes are visited does not matter: a run in any other order leaves
    the same mapper. *)
Theorem createShortNameMap_unique_owners (st : ClassesMap) :
  exists map,
    createShortNameMap st = Ok (tt, set_shortToLongNameMap (Some map) st) /\
    shortNamesOf (fun c => c ∈ allClasses st) map /\
    forall order,
      NoDup order -> (forall c, c ∈ order <-> c ∈ allClasses st) ->
      createShortNameMapIn order st = createShortNameMap st.
Proof.
  destruct (createShortNameMap_returns st) as (map & Hrun & Hspec).
  exists map. split; [exact Hrun|]. split; [exact Hspec|].
  intros order Hnd Hsame.
  destruct (createShortNameMapIn_spec order st Hnd) as (map1 & Hrun1 & Hspec1).
  rewrite Hrun, Hrun1.
  rewrite (shortNamesOf_unique (fun c => c ∈ allClasses st) map1 map);
    [reflexivity | | exact Hspec].
  eapply shortNamesOf_ext; [|exact Hspec1]. exact Hsame.
Qed.

Lemma isIncludedClass_Ok (c : string) (b : bool) st st' :
  isIncludedClass c st = Ok (b, st') ->
  st' = st /\
  let n := fixGenericNestedTypeName (classNamePart c) in
  observed st n = true /\ b = bool_decide (n ∈ allClasses st).
Proof.
  unfold isIncludedClass. intros H.
  apply bind_Ok in H as (n & st1 & Hn & H).
  rewrite classNameOnly_spec in Hn.
  destruct (observed st _) eqn:E; [|discriminate]. injection Hn as <- <-.
  unfold bind, read, ret in H. injection H as <- <-. auto.
Qed.

Lemma getJavaAliasName_Ok (c a : string) st st' :
  getJavaAliasName c st = Ok (a, st') ->
  st' = st /\
  isIncludedClass c st = Ok (true, st) /\
  exists map,
    shortToLongNameMap st = Some map /\
    a = "Java." +:+ (if bool_decide (map !! shortClassName c = Some (Some c))
                     then shortClassName c else c).
Proof.
  unfold getJavaAliasName. intros H.
  apply bind_Ok in H as (b & st1 & Hb & H).
  destruct (isIncludedClass_Ok _ _ _ _ Hb) as (-> & _).
  destruct b; [|discriminate].
  unfold bind, assert_ok, ret, read, throw in H. simpl in H.
  destruct (shortToLongNameMap st) as [map|] eqn:Em; [|discriminate].
  injection H as <- <-. repeat split; eauto.
Qed.

Lemma append_inj_r (p s t : string) : p +:+ s = p +:+ t -> s = t.
Proof.
  induction p as [|c p IH]; [auto|]. rewrite !append_cons. intros [= H]. auto.
Qed.

Lemma shortClassName_short (c : string) :
  shortClassName (shortClassName c) = shortClassName c.
Proof.
  pose proof (splitLast_without "." c) as H. unfold shortClassName at 2 3.
  destruct (Str.splitLast "." c) as [[l r]|].
  - destruct H as (_ & Hr & _). unfold shortClassName.
    now rewrite (splitLast_absent _ _ Hr).
  - unfold shortClassName. now rewrite (splitLast_absent _ _ H).
Qed.

(** Aliases do not collide. Once [createShortNameMap] has run, and as long
    as the set of included classes and the short-name map stay as they are,
    two included classes that [getJavaAliasName] gives the same alias are
    the same class. *)
Theorem aliases_do_not_collide (st0 built st : ClassesMap) (c1 c2 a : string)
    (st1 st2 : ClassesMap) :
  createShortNameMap st0 = Ok (tt, built) ->
  allClasses st = allClasses built ->
  shortToLongNameMap st = shortToLongNameMap built ->
  c1 ∈ allClasses st -> c2 ∈ allClasses st ->
  getJavaAliasName c1 st = Ok (a, st1) ->
  getJavaAliasName c2 st = Ok (a, st2) ->
  c1 = c2.
Proof.
  intros Hbuilt Hall Hmap H1 H2 A1 A2.
  destruct (createShortNameMap_result _ _ Hbuilt) as (map & -> & Hspec).
  simpl in Hall, Hmap. rewrite Hall in H1, H2.
  destruct (getJavaAliasName_Ok _ _ _ _ A1) as (_ & _ & m1 & E1 & ->).
  destruct (getJavaAliasName_Ok _ _ _ _ A2) as (_ & _ & m2 & E2 & Ha).
  rewrite Hmap in E1, E2. injection E1 as <-. injection E2 as <-.
  apply append_inj_r in Ha.
  destruct (bool_decide (map !! shortClassName c1 = Some (Some c1))) eqn:D1;
    destruct (bool_decide (map !! shortClassName c2 = Some (Some c2))) eqn:D2;
    try apply bool_decide_eq_true in D1; try apply bool_decide_eq_true in D2.
  - rewrite Ha in D1. congruence.
  - apply (Hspec (shortClassName c1)) in D1 as (_ & _ & _ & _ & Huniq).
    symmetry. apply Huniq; [exact H2|].
    rewrite <- Ha. apply shortClassName_short.
  - apply (Hspec (shortClassName c2)) in D2 as (_ & _ & _ & _ & Huniq).
    apply Huniq; [exact H1|].
    rewrite Ha. apply shortClassName_short.
  - now symmetry.
Qed.

(** ** What a translation returns and what it changes *)

Lemma recordsTypes_refl st : recordsTypes st st.
Proof. split; [now destruct st | reflexivity]. Qed.

Lemma recordsTypes_trans st1 st2 st3 :
  recordsTypes st1 st2 -> recordsTypes st2 st3 -> recordsTypes st1 st3.
Proof.
  intros [E1 S1] [E2 S2]. split; [|set_solver].
  rewrite E2, E1. reflexivity.
Qed.

Lemma recordsTypes_add st (t : string) :
  recordsTypes st (set_unhandledTypes (unhandledTypes st ∪ {[t]}) st).
Proof. split; [reflexivity | simpl; set_solver]. Qed.

Lemma lookupIn_Ok (table : list (string * string)) (k : string) st r st' :
  lookupIn table k st = Ok (r, st') ->
  st' = st /\ r = tableGet table k /\ k ∉ objectPrototypeKeys.
Proof.
  unfold lookupIn.
  destruct (bool_decide (k ∈ objectPrototypeKeys)) eqn:E; [discriminate|].
  apply bool_decide_eq_false in E. unfold ret. intros [= <- <-]. auto.
Qed.

Lemma boxIfJavaPrimitive_Ok (t : string) st r st' :
  boxIfJavaPrimitive t st = Ok (r, st') ->
  st' = st /\ r = default t (tableGet primitiveToObjectMap t).
Proof.
  unfold boxIfJavaPrimitive. intros H.
  apply bind_Ok in H as (b & st1 & Hb & H).
  apply lookupIn_Ok in Hb as (-> & -> & _).
  unfold ret in H. injection H as <- <-. auto.
Qed.

Lemma mapJavaPrimitivesToTypescript_Ok (t : string) (ctx : ParamContext) st r st' :
  mapJavaPrimitivesToTypescript t ctx st = Ok (r, st') ->
  st' = st /\ r = default t (tableGet (javaTypeToTypescriptType ctx) t).
Proof.
  unfold mapJavaPrimitivesToTypescript. intros H.
  apply bind_Ok in H as (b & st1 & Hb & H).
  apply lookupIn_Ok in Hb as (-> & -> & _).
  unfold ret in H. injection H as <- <-. auto.
Qed.

Lemma mapUnhandledTypesToJavaLangObject_Ok (t : string) st r st' :
  mapUnhandledTypesToJavaLangObject t st = Ok (r, st') ->
  (t = "void" /\ r = t /\ st' = st) \/
  (isIncludedClass t st = Ok (true, st) /\ r = t /\ st' = st) \/
  (isIncludedClass t st = Ok (false, st) /\ r = "java.lang.Object" /\
   st' = set_unhandledTypes (unhandledTypes st ∪ {[t]}) st).
Proof.
  unfold mapUnhandledTypesToJavaLangObject.
  destruct (bool_decide (t = "void")) eqn:E.
  - apply bool_decide_eq_true in E. unfold ret. intros [= <- <-]. auto.
  - intros H. apply bind_Ok in H as (b & st1 & Hb & H).
    destruct (isIncludedClass_Ok _ _ _ _ Hb) as (-> & _).
    destruct b; simpl in H.
    + unfold ret in H. injection H as <- <-. auto.
    + unfold bind, modify, ret in H. injection H as <- <-. auto.
Qed.

Lemma isIncludedClass_recorded (t : string) (u : gset string) st :
  isIncludedClass t (set_unhandledTypes u st) =
    match isIncludedClass t st with
    | Ok (b, _) => Ok (b, set_unhandledTypes u st)
    | Throw e => Throw e
    | Abort e => Abort e
    | Unmodelled e => Unmodelled e
    end.
Proof.
  unfold isIncludedClass, bind, read, ret. rewrite !classNameOnly_spec.
  unfold observed. simpl.
  now destruct (bool_decide _ || bool_decide _).
Qed.

(** The result of the element translation is a TypeScript name of the
    table or an alias; the branch that answers [any] is never taken. *)
Lemma tsElementTypeName_Ok (t : string) (ctx : ParamContext) st r st' :
  tsElementTypeName t ctx st = Ok (r, st') ->
  recordsTypes st st' /\
  (r ∈ (javaTypeToTypescriptType ctx).*2 \/ Str.startsWith "Java." r = true).
Proof.
  unfold tsElementTypeName. intros H.
  apply bind_Ok in H as (t1 & st1 & H1 & H).
  apply boxIfJavaPrimitive_Ok in H1 as (-> & _).
  apply bind_Ok in H as (t2 & st2 & H2 & H).
  apply bind_Ok in H as (mapped & st3 & H3 & H).
  apply mapJavaPrimitivesToTypescript_Ok in H3 as (-> & Hmapped).
  assert (Hrec : recordsTypes st st2).
  { apply mapUnhandledTypesToJavaLangObject_Ok in H2
      as [(_ & _ & ->)|[(_ & _ & ->)|(_ & _ & ->)]];
      auto using recordsTypes_refl, recordsTypes_add. }
  destruct (negb (mapped =? t2)%string || (t2 =? "void")%string) eqn:E.
  - unfold ret in H. injection H as <- <-. split; [exact Hrec|]. left.
    apply orb_true_iff in E as [E|E].
    + apply negb_true_iff, String.eqb_neq in E.
      unfold tableGet in Hmapped.
      destruct (List.find _ (javaTypeToTypescriptType ctx)) as [[k v]|] eqn:Ef;
        [|now destruct E].
      simpl in Hmapped. subst mapped.
      apply find_some in Ef as [Hin _].
      apply list_elem_of_fmap. exists (k, v). split; [reflexivity|].
      now apply list_elem_of_In.
    + apply String.eqb_eq in E. subst t2. subst mapped.
      destruct ctx; apply (proj1 (bool_decide_eq_true _)); vm_compute; reflexivity.
  - apply orb_false_iff in E as [E Evoid].
    apply negb_false_iff, String.eqb_eq in E. apply String.eqb_neq in Evoid.
    apply bind_Ok in H as (b & st4 & Hb & H).
    destruct (isIncludedClass_Ok _ _ _ _ Hb) as (-> & _).
    destruct b.
    + apply getJavaAliasName_Ok in H as (-> & _ & map & _ & ->).
      split; [exact Hrec | right; reflexivity].
    + exfalso.
      apply mapUnhandledTypesToJavaLangObject_Ok in H2
        as [(-> & -> & _)|[(Hi & -> & ->)|(_ & -> & _)]].
      * now destruct Evoid.
      * congruence.
      * rewrite E in Hmapped. destruct ctx; discriminate Hmapped.
Qed.

Lemma tsArrayTypeName_Ok (elem ext : string) (ctx : ParamContext) st r st' :
  tsArrayTypeName elem ext ctx st = Ok (r, st') ->
  recordsTypes st st' /\
  (r = elem \/ (ext <> "" /\ r = elem +:+ ext) \/
   r = "array_t<" +:+ elem +:+ ">" \/ r = "void").
Proof.
  unfold tsArrayTypeName. intros H.
  apply bind_Ok in H as ([] & st1 & H1 & H).
  unfold assert_ok in H1. destruct (Nat.even _); [|discriminate].
  unfold ret in H1. injection H1 as <-.
  destruct (String.eqb_spec ext "") as [->|Hext].
  - unfold ret in H. injection H as <- <-. auto using recordsTypes_refl.
  - destruct ctx.
    + destruct (ext =? "[]")%string.
      * unfold ret in H. injection H as <- <-. auto 6 using recordsTypes_refl.
      * unfold bind, modify, ret in H. injection H as <- <-.
        auto 6 using recordsTypes_add.
    + unfold ret in H. injection H as <- <-. auto 6 using recordsTypes_refl.
Qed.

Lemma brackets_not_suffix_of_any (elem : string) (n : nat) :
  elem +:+ brackets (S n) <> "any".
Proof.
  destruct elem as [|a [|b [|c [|d elem]]]];
    rewrite ?append_cons, ?append_empty_l; simpl; discriminate.
Qed.

Lemma tsTypeName_Ok (j : string) (ctx : ParamContext) (enc : bool) st r st' :
  tsTypeName j ctx enc st = Ok (r, st') ->
  recordsTypes st st' /\ r <> "any".
Proof.
  unfold tsTypeName. intros H.
  apply bind_Ok in H as ([t ext] & st1 & Hd & H).
  apply jniDecodeType_ext in Hd as (-> & ->).
  apply bind_Ok in H as (elem & st2 & He & H).
  apply tsElementTypeName_Ok in He as (Hrec1 & Helem).
  apply tsArrayTypeName_Ok in H as (Hrec2 & Hr).
  split; [eapply recordsTypes_trans; eassumption|].
  assert (Hne : elem <> "any").
  { destruct Helem as [Hv|Hj].
    - intros ->. revert Hv. destruct ctx;
        apply (proj1 (bool_decide_eq_false _)); vm_compute; reflexivity.
    - intros ->. discriminate Hj. }
  destruct Hr as [-> | [(Hext & ->) | [-> | ->]]]; try exact Hne; try discriminate.
  destruct (arrayDepth j) as [|n]; [now destruct Hext|].
  apply brackets_not_suffix_of_any.
Qed.

(** [tsTypeName] never answers [any]: the branch of the source that does is
    not reachable, because a type that is not included has been replaced by
    [java.lang.Object] before, and that translates to [object_t]. *)
Theorem tsTypeName_never_any (javaTypeName : string) (context : ParamContext)
    (encodedTypes : bool) st r st' :
  tsTypeName javaTypeName context encodedTypes st = Ok (r, st') ->
  r <> "any".
Proof. intros H. now apply tsTypeName_Ok in H. Qed.

(** A translation changes nothing in the mapper but the set of unhandled
    types, and that set only grows. *)
Theorem tsTypeName_only_records (javaTypeName : string) (context : ParamContext)
    (encodedTypes : bool) st r st' :
  tsTypeName javaTypeName context encodedTypes st = Ok (r, st') ->
  st' = set_unhandledTypes (unhandledTypes st') st /\
  unhandledTypes st ⊆ unhandledTypes st'.
Proof. intros H. now apply tsTypeName_Ok in H as [[? ?] _]. Qed.

Lemma mapM_tsTypeNameInputEncoded (params : list string) st types st' :
  mapM tsTypeNameInputEncoded params st = Ok (types, st') ->
  Forall (fun t => t <> "any") types.
Proof.
  revert st types st'. induction params as [|p params IH]; intros st types st'.
  - unfold mapM, ret. intros [= <- <-]. constructor.
  - cbn [mapM]. intros H.
    apply bind_Ok in H as (t & st1 & Ht & H).
    apply bind_Ok in H as (ts & st2 & Hts & H).
    unfold ret in H. injection H as <- <-.
    constructor; [|eapply IH, Hts].
    unfold tsTypeNameInputEncoded in Ht. now apply tsTypeName_Ok in Ht.
Qed.

(** The second key of [compareVariants] never decides between variants as
    [mapMethod] builds them: their [tsParamTypes] are translations by
    [tsTypeNameInputEncoded], none of which is [any], so the count of
    parameters of type [any] is zero. *)
Theorem countArgsOfTypeAny_of_translations (v : MethodDefinition)
    (params : list string) st st' :
  mapM tsTypeNameInputEncoded params st = Ok (tsParamTypes v, st') ->
  countArgsOfTypeAny v = 0%nat.
Proof.
  intros H. apply mapM_tsTypeNameInputEncoded in H.
  unfold countArgsOfTypeAny.
  induction H as [|t ts Ht _ IH]; [reflexivity|].
  rewrite filter_cons. now destruct (decide (t = "any")).
Qed.

(** ** Class names in a translation *)













(** Without the flag for encoded types [jniDecodeType] decodes nothing: it
    returns its argument with no array suffix and changes nothing, or it
    does not return; on a name that starts with an array marker it aborts
    the process. *)
Theorem jniDecodeType_without_flag (javaTypeName : string) st :
  (forall typeName ext st',
     jniDecodeType javaTypeName false st = Ok ((typeName, ext), st') ->
     typeName = javaTypeName /\ ext = "" /\ st' = st) /\
  (Str.startsWith "[" javaTypeName = true ->
   jniDecodeType javaTypeName false st = Abort javaTypeName).
Proof.
  split.
  - intros typeName ext st'. unfold jniDecodeType.
    destruct (stripArrayMarkers javaTypeName) as [t e] eqn:Es.
    unfold bind, stackTrace, abort, lookupIn, unmodelled, ret.
    destruct e as [|c e]; simpl; [|discriminate].
    assert (t = javaTypeName) as ->.
    { destruct javaTypeName as [|c s]; simpl in Es; [congruence|].
      destruct (Ascii.eqb_spec c "[") as [->|Hc].
      - destruct (stripArrayMarkers s). discriminate Es.
      - destruct c as [[] [] [] [] [] [] [] []]; congruence. }
    destruct (objectTypeExp javaTypeName); [discriminate|].
    destruct (bool_decide (javaTypeName ∈ objectPrototypeKeys)); [discriminate|].
    destruct (tableGet jniAbbreviations javaTypeName); [discriminate|].
    intros [= <- <- <-]. auto.
  - intros Hs. destruct javaTypeName as [|c s]; [discriminate|].
    cbn [Str.startsWith] in Hs. apply andb_true_iff in Hs as [Hc _].
    apply Ascii.eqb_eq in Hc as <-.
    unfold jniDecodeType. simpl. destruct (stripArrayMarkers s). reflexivity.
Qed.

(** ** The white list *)

Lemma search_anonymousClass (outer digits : string) (bol : bool) :
  digits <> "" -> Str.forallb Chars.isDigit digits = true ->
  RegExp.search anonymousClass bol (outer +:+ "$" +:+ digits) = true.
Proof.
  intros Hne Hd. revert bol. induction outer as [|c outer IH]; intros bol.
  - rewrite append_empty_l.
    change ("$" +:+ digits) with (String "$" digits).
    cbn [RegExp.search]. apply orb_true_iff. left.
    unfold anonymousClass. cbn [RegExp.matchHere].
    change (Chars.exactly "$" "$" &&
            RegExp.matchHere [RegExp.Plus Chars.isDigit; RegExp.Eol] false digits = true).
    rewrite matchHere_Plus_Eol, Hd. now destruct digits.
  - rewrite append_cons. cbn [RegExp.search]. rewrite IH. apply orb_true_r.
Qed.

(** Whatever the patterns, the white list does not admit a class whose name
    ends in a dollar sign and digits, the name of an anonymous class. *)
Theorem anonymous_classes_not_whitelisted (outer digits : string) st :
  digits <> "" -> Str.forallb Chars.isDigit digits = true ->
  inWhiteList (outer +:+ "$" +:+ digits) st = Ok (false, st).
Proof.
  intros Hne Hd. rewrite inWhiteList_listed. unfold listed, RegExp.matches.
  now rewrite (search_anonymousClass outer digits true Hne Hd), andb_false_r.
Qed.

Lemma addSeed_accepts (engine : RegExp.Engine) (className : string) st st' :
  Str.forallb wordDotOrDollar className = true ->
  addSeed engine className st = Ok (tt, st') ->
  existsb (fun ns => RegExp.test ns className) (includedPatterns st') = true.
Proof.
  intros Hc. unfold addSeed.
  rewrite (bind_step _ _ _ _ _ (inWhiteList_listed className st)).
  destruct (listed (includedPatterns st) className) eqn:E; simpl.
  - intros [= <-]. unfold listed in E. now apply andb_true_iff in E as [? _].
  - destruct (seed_matcher engine className st Hc) as (re & Hre & Htest).
    rewrite (bind_step _ _ _ _ _ Hre). unfold modify. intros [= <-]. simpl.
    rewrite existsb_app. simpl.
    rewrite (proj2 (Htest className) eq_refl). now rewrite orb_true_r.
Qed.

Lemma forEachM_addSeed_accepts (engine : RegExp.Engine) (seeds : list string) st st' :
  forEachM (addSeed engine) seeds st = Ok (tt, st') ->
  forall c, c ∈ seeds -> Str.forallb wordDotOrDollar c = true ->
    existsb (fun ns => RegExp.test ns c) (includedPatterns st') = true.
Proof.
  revert st. induction seeds as [|x seeds IH]; intros st; simpl.
  - intros _ c Hc. now apply elem_of_nil in Hc.
  - intros H. apply bind_Ok in H as ([] & st1 & H1 & H2).
    intros c Hc Hwf. apply elem_of_cons in Hc as [->|Hc]; [|now apply (IH st1)].
    destruct (forEachM_addSeed _ _ _ _ H2) as [[more E] _].
    rewrite E, existsb_app, (addSeed_accepts engine x st st1 Hwf H1). reflexivity.
Qed.

Lemma setMerge_adds (l more : list string) (x : string) :
  x ∈ more -> x ∈ setMerge l more.
Proof.
  unfold setMerge. revert l. induction more as [|y more IH]; intros l Hx; simpl.
  - now apply elem_of_nil in Hx.
  - apply elem_of_cons in Hx as [->|Hx]; [|now apply IH].
    apply (setMerge_keeps _ more). case_bool_decide; [assumption|].
    apply elem_of_app. right. constructor.
Qed.

(** The constructor returns for a configuration of well-formed package
    expressions and class names. Once it has returned, the white list admits
    every configured class whose name is made of word characters, dots and
    dollar signs, but for the names of anonymous classes. *)
Theorem configured_classes_whitelisted (engine : RegExp.Engine) (opts : TsJavaOptions.t) :
  (Forall wellFormedExpression (TsJavaOptions.packages opts) ->
   Forall (fun c => Str.forallb wordDotOrDollar c = true) (TsJavaOptions.classes opts) ->
   exists st, constructor engine opts = Ok st) /\
  (forall st className,
     constructor engine opts = Ok st ->
     className ∈ TsJavaOptions.classes opts ->
     Str.forallb wordDotOrDollar className = true ->
     inWhiteList className st =
       Ok (negb (RegExp.matches anonymousClass className), st)).
Proof.
  split; [apply constructor_returns|].
  intros st className H Hin Hwf. unfold constructor in H.
  destruct (bind _ _ (blank opts)) as [[[] st0]| | |] eqn:E; try discriminate.
  injection H as ->.
  apply bind_Ok in E as (patterns & st1 & _ & E).
  apply bind_Ok in E as ([] & st2 & _ & E).
  rewrite inWhiteList_listed. unfold listed.
  rewrite (forEachM_addSeed_accepts _ _ _ _ E className); [reflexivity| |exact Hwf].
  now apply setMerge_adds.
Qed.

(** ** Grouping methods *)

Lemma eqb_proto (k : string) :
  String.eqb k "__proto__" = bool_decide (k = "__proto__").
Proof.
  destruct (String.eqb_spec k "__proto__") as [->|H].
  - now rewrite bool_decide_eq_true_2.
  - now rewrite bool_decide_eq_false_2.
Qed.

Lemma addMethod_named (acc : MethodsByNameBySignature) (m : MethodDefinition) :
  name m <> "__proto__" ->
  addMethod acc m =
    <[name m := assignProperty (signature m) m (default ∅ (acc !! name m))]> acc.
Proof.
  intros Hn. unfold addMethod. case_bool_decide as Hhas.
  - destruct Hhas as [d Hd]. now rewrite Hd.
  - assert (acc !! name m = None) as Hnone.
    { destruct (acc !! name m) eqn:E; [|reflexivity]. destruct Hhas. eauto. }
    assert (assignProperty (name m) (∅ : VariantsBySignature) acc = <[name m := ∅]> acc)
      as ->.
    { unfold assignProperty. now rewrite eqb_proto, bool_decide_eq_false_2 by exact Hn. }
    rewrite lookup_insert_eq, Hnone. simpl.
    apply map_eq. intros k. destruct (decide (name m = k)) as [<-|Hk].
    + now rewrite !lookup_insert_eq.
    + now rewrite !lookup_insert_ne by exact Hk.
Qed.

Lemma addMethod_proto (acc : MethodsByNameBySignature) (m : MethodDefinition) :
  name m = "__proto__" -> acc !! "__proto__" = None -> addMethod acc m = acc.
Proof.
  intros Hn Hnone. unfold addMethod. rewrite Hn, Hnone.
  rewrite bool_decide_eq_false_2 by (intros [? H]; discriminate H).
  unfold assignProperty. simpl. now rewrite Hnone.
Qed.

Lemma groupMethods_snoc (flatList : list MethodDefinition) (m : MethodDefinition) :
  groupMethods (flatList ++ [m]) = addMethod (groupMethods flatList) m.
Proof. unfold groupMethods. apply foldl_snoc. Qed.

(** No method is grouped under [__proto__]. *)
Lemma groupMethods_proto (flatList : list MethodDefinition) :
  groupMethods flatList !! "__proto__" = None.
Proof.
  induction flatList as [|m l IH] using rev_ind; [apply lookup_empty|].
  rewrite groupMethods_snoc.
  destruct (decide (name m = "__proto__")) as [Hn|Hn].
  - now rewrite addMethod_proto.
  - rewrite addMethod_named by exact Hn. now rewrite lookup_insert_ne.
Qed.

Lemma groupMethods_lookup (flatList : list MethodDefinition) (methodName sig : string) :
  groupMethods flatList !! methodName ≫= (fun d => d !! sig) =
    if String.eqb methodName "__proto__" || String.eqb sig "__proto__" then None
    else lastVariant flatList methodName sig.
Proof.
  destruct (String.eqb_spec methodName "__proto__") as [->|Hp]; simpl.
  { now rewrite groupMethods_proto. }
  unfold lastVariant.
  induction flatList as [|m l IH] using rev_ind.
  { simpl. unfold groupMethods. simpl. rewrite lookup_empty. simpl.
    now destruct (String.eqb sig "__proto__"). }
  rewrite groupMethods_snoc, filter_app, filter_cons, filter_nil.
  destruct (decide (name m = methodName)) as [<-|Hn].
  - rewrite addMethod_named by exact Hp. rewrite lookup_insert_eq. simpl.
    unfold assignProperty.
    destruct (decide (signature m = sig)) as [<-|Hs].
    + destruct (String.eqb_spec (signature m) "__proto__") as [Hsp|Hsp].
      * destruct (groupMethods l !! name m) as [d|] eqn:E; simpl in *;
          [exact IH | apply lookup_empty].
      * rewrite lookup_insert_eq.
        rewrite decide_True by auto. now rewrite last_snoc.
    + rewrite decide_False by tauto. rewrite app_nil_r.
      destruct (String.eqb (signature m) "__proto__").
      * destruct (groupMethods l !! name m) as [d|] eqn:E; simpl in *;
          [exact IH | rewrite lookup_empty; exact IH].
      * rewrite lookup_insert_ne by exact Hs.
        destruct (groupMethods l !! name m) as [d|] eqn:E; simpl in *;
          [exact IH | rewrite lookup_empty; exact IH].
  - rewrite decide_False by tauto. rewrite app_nil_r, <- IH.
    destruct (decide (name m = "__proto__")) as [Hnp|Hnp].
    + rewrite addMethod_proto; [reflexivity | exact Hnp | apply groupMethods_proto].
    + rewrite addMethod_named by exact Hnp. now rewrite lookup_insert_ne by exact Hn.
Qed.

Lemma groupMethods_names (flatList : list MethodDefinition) (methodName : string) :
  is_Some (groupMethods flatList !! methodName) <->
  methodName <> "__proto__" /\ exists m, m ∈ flatList /\ name m = methodName.
Proof.
  induction flatList as [|m l IH] using rev_ind.
  - unfold groupMethods. simpl. rewrite lookup_empty. split.
    + intros [? H]. discriminate H.
    + intros (_ & m & H & _). now apply elem_of_nil in H.
  - rewrite groupMethods_snoc.
    destruct (decide (name m = "__proto__")) as [Hnp|Hnp].
    + rewrite addMethod_proto; [| exact Hnp | apply groupMethods_proto].
      rewrite IH. split.
      * intros (Hp & m' & H & E). split; [exact Hp|].
        exists m'. split; [|exact E]. apply elem_of_app. now left.
      * intros (Hp & m' & H & E). split; [exact Hp|].
        apply elem_of_app in H as [H|H]; [eauto|].
        apply list_elem_of_singleton in H as ->. congruence.
    + rewrite addMethod_named by exact Hnp.
      destruct (decide (name m = methodName)) as [<-|Hn].
      * rewrite lookup_insert_eq. split; [|eauto].
        intros _. split; [exact Hnp|].
        exists m. split; [|reflexivity]. apply elem_of_app. right. constructor.
      * rewrite lookup_insert_ne by exact Hn. rewrite IH. split.
        -- intros (Hp & m' & H & E). split; [exact Hp|].
           exists m'. split; [|exact E]. apply elem_of_app. now left.
        -- intros (Hp & m' & H & E). split; [exact Hp|].
           apply elem_of_app in H as [H|H]; [eauto|].
           apply list_elem_of_singleton in H as ->. contradiction.
Qed.

(** For methods with the names of Java methods, which are keys and no paths
    of keys: the names [groupMethods] keeps are those of the methods of the
    list, but for [__proto__], since a method of that name sets the
    prototype of the dictionary and is lost. Under a name and a signature
    the dictionary has the last method of the list with that name and
    signature, a later method replacing an earlier one; nothing is recorded
    under the signature [__proto__]. *)
Theorem groupMethods_last_wins (flatList : list MethodDefinition)
    (methodName sig : string) :
  Forall (fun m => plainKey (name m) = true) flatList ->
  (is_Some (groupMethods flatList !! methodName) <->
   methodName <> "__proto__" /\ exists m, m ∈ flatList /\ name m = methodName) /\
  groupMethods flatList !! methodName ≫= (fun d => d !! sig) =
    (if String.eqb methodName "__proto__" || String.eqb sig "__proto__" then None
     else lastVariant flatList methodName sig).
Proof. intros _. split; [apply groupMethods_names | apply groupMethods_lookup]. Qed.

(** ** Inherited interfaces that were not mapped *)

Lemma classOf_missing (intf : string) st :
  classes st !! intf = None ->
  classOf intf st = Throw ("TypeError: Cannot read property of undefined: " +:+ intf).
Proof. unfold classOf, bind, read, throw. now intros ->. Qed.

(** With fuel for every class of the table, the closure loop returns or
    throws at an inherited interface the table lacks. *)
Lemma forEach_outcome (direct : list string) (fuel : nat) (w : Work.t) st :
  closureInvariant (classes st) direct w ->
  (size (classes st) < fuel + length (Work.done w))%nat ->
  (exists w', Work.forEach fuel visitParents w st = Ok (w', st)) \/
  (exists x, Inherited (classes st) direct x /\ classes st !! x = None /\
     Work.forEach fuel visitParents w st =
       Throw ("TypeError: Cannot read property of undefined: " +:+ x)).
Proof.
  revert w. induction fuel as [|fuel IH]; intros w Hinv Hfuel; simpl.
  - destruct (Work.todo w) as [|item rest] eqn:E; [left; eexists; reflexivity|].
    exfalso. destruct Hinv as [Hnd _ _ _ Hm].
    apply NoDup_app in Hnd as (Hnd & _ & _).
    pose proof (mapped_bounded _ _ Hnd Hm). simpl in Hfuel. lia.
  - destruct (Work.todo w) as [|item rest] eqn:E; [left; eexists; reflexivity|].
    assert (known w item) as Hk by (right; rewrite E; apply list_elem_of_here).
    pose proof (ci_sound _ _ _ Hinv item Hk) as Hinh.
    destruct (classes st !! item) as [cd|] eqn:Hcd.
    + assert (Hstep : visitParents item w st = Ok (addAll (interfaces cd) w, st)).
      { unfold visitParents.
        rewrite (bind_step _ _ st cd st); [reflexivity | now apply classOf_Ok]. }
      rewrite !(bind_step _ _ _ _ _ Hstep).
      apply IH; [now apply (closure_step _ _ _ _ rest)|].
      assert (item ∈ Work.todo (addAll (interfaces cd) w)) as Hpending.
      { assert (known (addAll (interfaces cd) w) item) as [Hd|Ht]
          by (apply addAll_known; now left); [|exact Ht].
        rewrite addAll_done in Hd. exfalso.
        pose proof (ci_nodup _ _ _ Hinv) as Hnd.
        apply NoDup_app in Hnd as (_ & Hdis & _). apply (Hdis _ Hd).
        rewrite E. apply list_elem_of_here. }
      destruct (setDone_pending item _
                  (addAll_nodup (interfaces cd) w (ci_nodup _ _ _ Hinv)) Hpending)
        as (-> & _ & _).
      rewrite addAll_done, length_app. simpl. lia.
    + right. exists item. split; [exact Hinh|]. split; [exact Hcd|].
      unfold visitParents, bind at 1 2. now rewrite (classOf_missing item st Hcd).
Qed.

(** The closure of the inherited interfaces needs every one of them in the
    class table: when an inherited interface was not mapped, the closure
    throws a TypeError at such an interface instead of returning. *)
Theorem interfacesTransitiveClosure_unmapped_interface (fuel : nat)
    (direct : list string) (missing : string) st :
  (size (classes st) < fuel)%nat ->
  Inherited (classes st) direct missing ->
  classes st !! missing = None ->
  exists x,
    Inherited (classes st) direct x /\ classes st !! x = None /\
    interfacesTransitiveClosure fuel direct st =
      Throw ("TypeError: Cannot read property of undefined: " +:+ x).
Proof.
  intros Hfuel Hinh Hmiss.
  destruct (forEach_outcome direct fuel (addAll direct Work.new) st
              (closure_init _ direct)) as [[w Hw]|(x & Hx & Hnone & Hthrow)].
  { rewrite addAll_done. simpl. lia. }
  - exfalso.
    assert (Hok : interfacesTransitiveClosure fuel direct st = Ok (Work.getDone w, st)).
    { unfold interfacesTransitiveClosure.
      change (bind (Work.forEach fuel visitParents (addAll direct Work.new))
                (fun work => ret (Work.getDone work)) st = Ok (Work.getDone w, st)).
      now rewrite (bind_step _ _ _ _ _ Hw). }
    destruct (interfacesTransitiveClosure_spec _ _ _ _ _ Hok) as (_ & _ & Hall & Hin & _).
    rewrite Forall_forall in Hin.
    destruct (Hin missing (proj2 (Hall missing) Hinh)) as [cd Hcd]. congruence.
  - exists x. split; [exact Hx|]. split; [exact Hnone|].
    unfold interfacesTransitiveClosure.
    change (bind (Work.forEach fuel visitParents (addAll direct Work.new))
              (fun work => ret (Work.getDone work)) st =
            Throw ("TypeError: Cannot read property of undefined: " +:+ x)).
    unfold bind. now rewrite Hthrow.
Qed.

(** ** Invariants of the merge *)

Lemma mergedVariants_keyed (table : ClassDefinitionMap) (methodName : string)
    (order : list string) (own : VariantsBySignature) :
  keyedBySignature own ->
  (forall c cd d, table !! c = Some cd -> variantsDict cd !! methodName = Some d ->
                  keyedBySignature d) ->
  keyedBySignature (mergedVariants table methodName order own).
Proof.
  intros Hown Htable k v. rewrite mergedVariants_lookup.
  destruct (lastDeclaration table methodName k order) as [v'|] eqn:E; [|apply Hown].
  intros [= ->]. apply lastDeclaration_Some in E as (_ & i & _ & _ & Hd & _).
  unfold declaration, declaredBy in Hd.
  destruct (table !! i) as [cd|] eqn:Hi; [|discriminate]. simpl in Hd.
  destruct (variantsDict cd !! methodName) as [d|] eqn:Hm; [|discriminate].
  simpl in Hd. exact (Htable i cd d Hi Hm k v Hd).
Qed.

(** The merge keeps the dictionaries of variants keyed by signature: when
    the variants of the class and of every mapped class are stored under
    their own signatures, so are the merged variants. It keeps the method
    names of the class as they are. *)
Theorem mergeOverloadedVariants_keeps_keys (fuel : nat)
    (vd vd' : MethodsByNameBySignature) (direct : list string) st st' :
  cacheConsistent st ->
  (forall n d, vd !! n = Some d -> keyedBySignature d) ->
  (forall c cd n d, classes st !! c = Some cd -> variantsDict cd !! n = Some d ->
                    keyedBySignature d) ->
  mergeOverloadedVariants fuel vd direct st = Ok (vd', st') ->
  (forall n d, vd' !! n = Some d -> keyedBySignature d) /\
  (forall n, is_Some (vd' !! n) <-> is_Some (vd !! n)).
Proof.
  intros Hc Hvd Htable H.
  destruct (mergeOverloadedVariants_steps _ _ _ _ _ _ Hc H)
    as (closure & order & _ & _ & Hlookup).
  split.
  - intros n d. rewrite Hlookup.
    destruct (vd !! n) as [own|] eqn:E; [|discriminate]. simpl. intros [= <-].
    apply mergedVariants_keyed; [exact (Hvd n own E)|].
    intros c cd d. apply Htable.
  - intros n. rewrite Hlookup. now rewrite fmap_is_Some.
Qed.

(** The merge changes nothing in the mapper but the cache of interface
    depths, to which it only adds, and every depth in the cache stays the
    depth of its class. *)
Theorem mergeOverloadedVariants_only_caches (fuel : nat)
    (vd vd' : MethodsByNameBySignature) (direct : list string) st st' :
  cacheConsistent st ->
  mergeOverloadedVariants fuel vd direct st = Ok (vd', st') ->
  st' = set_interfaceDepthCache (interfaceDepthCache st') st /\
  interfaceDepthCache st ⊆ interfaceDepthCache st' /\
  cacheConsistent st'.
Proof.
  intros Hc H.
  destruct (mergeOverloadedVariants_cache _ _ _ _ _ _ Hc H) as [[E S] C]. auto.
Qed.

(** ** Scanning the class path *)

Lemma set_allExcludedClasses_twice v w st :
  set_allExcludedClasses v (set_allExcludedClasses w st) = set_allExcludedClasses v st.
Proof. reflexivity. Qed.

Lemma set_allExcludedClasses_same st :
  set_allExcludedClasses (allExcludedClasses st) st = st.
Proof. now destruct st. Qed.

(** *** Class files *)

Lemma matchHere_endsDotClass (bol : bool) (s : string) :
  RegExp.matchHere endsDotClass bol s = true <-> s = ".class".
Proof.
  unfold endsDotClass. rewrite matchHere_literal.
  destruct (stripPrefix ".class" s) as [rest|] eqn:E.
  - rewrite matchHere_Eol.
    apply stripPrefix_Some in E as ->. destruct rest as [|c rest]; simpl.
    + split; reflexivity.
    + split; [discriminate|]. intros [=].
  - split; [discriminate|]. intros ->. discriminate E.
Qed.

Lemma search_endsDotClass (bol : bool) (s : string) :
  RegExp.search endsDotClass bol s = true <-> exists path, s = path +:+ ".class".
Proof.
  revert bol. induction s as [|c s IH]; intros bol; cbn [RegExp.search];
    rewrite orb_true_iff, matchHere_endsDotClass.
  - split.
    + intros [H|H]; discriminate H.
    + intros ([|a path] & H); discriminate H.
  - rewrite IH. split.
    + intros [->|(path & ->)]; [now exists "" | now exists (String c path)].
    + intros ([|a path] & H).
      * left. exact H.
      * right. rewrite append_cons in H. injection H as -> ->. eauto.
Qed.

Lemma replaceEach_slash (path : string) :
  list_ascii_of_string (Str.replaceEach (Chars.exactly "/") (fun _ => ".") path) =
    List.map dotForSlash (list_ascii_of_string path).
Proof.
  induction path as [|c path IH]; [reflexivity|].
  cbn [Str.replaceEach list_ascii_of_string List.map]. rewrite <- IH.
  unfold Chars.exactly, dotForSlash.
  destruct (Ascii.eqb_spec "/" c) as [<-|Hc].
  - reflexivity.
  - destruct (Ascii.eqb_spec c "/") as [->|_]; [now destruct Hc | reflexivity].
Qed.

Lemma classNameOfEntry_path (path : string) :
  classNameOfEntry (path +:+ ".class") =
    Str.replaceEach (Chars.exactly "/") (fun _ => ".") path.
Proof.
  unfold classNameOfEntry, Str.dropLast. rewrite length_append. simpl.
  replace (String.length path + 6 - 6) with (String.length path) by lia.
  now rewrite substring_prefix.
Qed.

(** The class name the scan computes for an entry it takes for a class file
    is the class the file holds. *)
Lemma classFile_scanned (className entryPath : string) :
  classFile className entryPath <->
  RegExp.matches endsDotClass entryPath = true /\
  className = classNameOfEntry entryPath.
Proof.
  unfold classFile, RegExp.matches. rewrite search_endsDotClass. split.
  - intros (path & -> & Hc). split; [eauto|].
    rewrite classNameOfEntry_path.
    rewrite <- (string_of_list_ascii_of_string className), Hc, <- replaceEach_slash.
    now rewrite string_of_list_ascii_of_string.
  - intros [(path & ->) ->]. exists path. split; [reflexivity|].
    now rewrite classNameOfEntry_path, replaceEach_slash.
Qed.

Lemma onClassPath_scanned (readJar : string -> option (list string))
    (classpath : list string) (className : string) :
  onClassPath readJar classpath className <->
  exists jarpath entries entryPath,
    jarpath ∈ classpath /\ readJar jarpath = Some entries /\
    entryPath ∈ entries /\ RegExp.matches endsDotClass entryPath = true /\
    className = classNameOfEntry entryPath.
Proof.
  unfold onClassPath. split.
  - intros (j & es & e & Hj & Hes & He & Hc). apply classFile_scanned in Hc.
    exists j, es, e. tauto.
  - intros (j & es & e & Hj & Hes & He & Hc). exists j, es, e.
    rewrite classFile_scanned. tauto.
Qed.

Lemma scanEntry_spec (acc : list string) (entryPath : string) st :
  exists r ex,
    scanEntry acc entryPath st = Ok (r, set_allExcludedClasses ex st) /\
    (forall c, c ∈ r <->
       c ∈ acc \/
       (RegExp.matches endsDotClass entryPath = true /\
        c = classNameOfEntry entryPath /\
        listed (includedPatterns st) c = true)) /\
    (forall c, c ∈ ex <->
       c ∈ allExcludedClasses st \/
       (RegExp.matches endsDotClass entryPath = true /\
        c = classNameOfEntry entryPath /\
        listed (includedPatterns st) c = false)).
Proof.
  unfold scanEntry.
  destruct (RegExp.matches endsDotClass entryPath) eqn:Em.
  - rewrite (bind_step _ _ _ _ _ (inWhiteList_listed _ st)).
    destruct (listed (includedPatterns st) (classNameOfEntry entryPath)) eqn:El.
    + exists (acc ++ [classNameOfEntry entryPath]), (allExcludedClasses st).
      rewrite set_allExcludedClasses_same. split; [reflexivity|]. split.
      * intros c. rewrite elem_of_app, list_elem_of_singleton. split.
        -- intros [H| ->]; [now left | right; auto].
        -- intros [H|(_ & -> & _)]; auto.
      * intros c. split; [now left|]. intros [H|(_ & -> & H)]; [exact H|congruence].
    + exists acc, (allExcludedClasses st ∪ {[classNameOfEntry entryPath]}).
      split; [reflexivity|]. split.
      * intros c. split; [now left|]. intros [H|(_ & -> & H)]; [exact H|congruence].
      * intros c. rewrite elem_of_union, elem_of_singleton. split.
        -- intros [H| ->]; [now left | right; auto].
        -- intros [H|(_ & -> & _)]; auto.
  - exists acc, (allExcludedClasses st). rewrite set_allExcludedClasses_same.
    split; [reflexivity|]. split; intros c; split; auto; intros [H|(H & _)];
      auto; discriminate.
Qed.

Lemma foldlM_scanEntry (entries acc : list string) st :
  exists r ex,
    foldlM scanEntry acc entries st = Ok (r, set_allExcludedClasses ex st) /\
    (forall c, c ∈ r <->
       c ∈ acc \/
       exists entryPath, entryPath ∈ entries /\
         RegExp.matches endsDotClass entryPath = true /\
         c = classNameOfEntry entryPath /\
         listed (includedPatterns st) c = true) /\
    (forall c, c ∈ ex <->
       c ∈ allExcludedClasses st \/
       exists entryPath, entryPath ∈ entries /\
         RegExp.matches endsDotClass entryPath = true /\
         c = classNameOfEntry entryPath /\
         listed (includedPatterns st) c = false).
Proof.
  revert acc st. induction entries as [|e entries IH]; intros acc st.
  - exists acc, (allExcludedClasses st). rewrite set_allExcludedClasses_same.
    split; [reflexivity|].
    split; intros c; split; auto; intros [H|(e & H & _)]; auto;
      now apply elem_of_nil in H.
  - destruct (scanEntry_spec acc e st) as (r1 & ex1 & H1 & Hr1 & Hex1).
    destruct (IH r1 (set_allExcludedClasses ex1 st)) as (r & ex & H & Hr & Hex).
    exists r, ex. cbn [foldlM]. rewrite (bind_step _ _ _ _ _ H1), H.
    rewrite set_allExcludedClasses_twice. split; [reflexivity|]. simpl in Hr, Hex.
    split; intros c.
    + rewrite Hr, Hr1. split.
      * intros [[H0|(Hm & -> & Hl)]|(e' & He' & Hm & -> & Hl)]; auto.
        -- right. exists e. split; [constructor|]. auto.
        -- right. exists e'. split; [now constructor|]. auto.
      * intros [H0|(e' & He' & Hm & -> & Hl)]; auto.
        apply elem_of_cons in He' as [->|He']; [auto|]. right. eauto.
    + rewrite Hex, Hex1. split.
      * intros [[H0|(Hm & -> & Hl)]|(e' & He' & Hm & -> & Hl)]; auto.
        -- right. exists e. split; [constructor|]. auto.
        -- right. exists e'. split; [now constructor|]. auto.
      * intros [H0|(e' & He' & Hm & -> & Hl)]; auto.
        apply elem_of_cons in He' as [->|He']; [auto|]. right. eauto.
Qed.

Lemma mapM_scan (readJar : string -> option (list string)) (classpath : list string) st :
  Forall (fun jarpath => is_Some (readJar jarpath)) classpath ->
  exists found ex,
    mapM (getWhitedListedClassesInJar readJar) classpath st =
      Ok (found, set_allExcludedClasses ex st) /\
    (forall c, (exists l, l ∈ found /\ c ∈ l) <->
       onClassPath readJar classpath c /\ listed (includedPatterns st) c = true) /\
    (forall c, c ∈ ex <->
       c ∈ allExcludedClasses st \/
       (onClassPath readJar classpath c /\ listed (includedPatterns st) c = false)).
Proof.
  intros Hall. revert st. induction Hall as [|jar cp [entries Hjar] _ IH]; intros st.
  - exists [], (allExcludedClasses st). rewrite set_allExcludedClasses_same.
    split; [reflexivity|]. split; intros c; split.
    + intros (l & H & _). now apply elem_of_nil in H.
    + intros [(j & _ & _ & H & _) _]. now apply elem_of_nil in H.
    + now left.
    + intros [H|[(j & _ & _ & H & _) _]]; [exact H | now apply elem_of_nil in H].
  - destruct (foldlM_scanEntry entries [] st) as (r1 & ex1 & H1 & Hr1 & Hex1).
    destruct (IH (set_allExcludedClasses ex1 st)) as (found & ex & H & Hf & Hex).
    exists (r1 :: found), ex. cbn [mapM].
    unfold getWhitedListedClassesInJar at 1. rewrite Hjar.
    rewrite (bind_step _ _ _ _ _ H1), (bind_step _ _ _ _ _ H).
    rewrite set_allExcludedClasses_twice. split; [reflexivity|]. simpl in Hf, Hex.
    assert (Hcp : forall c, onClassPath readJar (jar :: cp) c <->
              (exists e, e ∈ entries /\ RegExp.matches endsDotClass e = true /\
                         c = classNameOfEntry e) \/
              onClassPath readJar cp c).
    { intros c. rewrite !onClassPath_scanned. split.
      - intros (j & es & e & Hj & Hes & He & Hm & Hc).
        apply elem_of_cons in Hj as [->|Hj].
        + left. rewrite Hjar in Hes. injection Hes as <-. eauto.
        + right. exists j, es, e. auto.
      - intros [(e & He & Hm & Hc)|(j & es & e & Hj & Hes & He & Hm & Hc)].
        + exists jar, entries, e. split; [constructor|]. auto.
        + exists j, es, e. split; [now constructor|]. auto. }
    split; intros c.
    + split.
      * intros (l & Hl & Hc). apply elem_of_cons in Hl as [->|Hl].
        -- apply Hr1 in Hc as [Hc|(e & He & Hm & -> & Hlisted)];
             [now apply elem_of_nil in Hc|].
           split; [|exact Hlisted]. apply Hcp. left. eauto.
        -- destruct (proj1 (Hf c) (ex_intro _ l (conj Hl Hc))) as [Hon Hlisted].
           split; [|exact Hlisted]. apply Hcp. now right.
      * intros [Hon Hlisted]. apply Hcp in Hon as [(e & He & Hm & ->)|Hon].
        -- exists r1. split; [constructor|]. apply Hr1. right. exists e. auto.
        -- destruct (proj2 (Hf c) (conj Hon Hlisted)) as (l & Hl & Hc).
           exists l. split; [now constructor | exact Hc].
    + rewrite Hex, Hex1, Hcp. split.
      * intros [[H0|(e & He & Hm & -> & Hl)]|[Hon Hl]]; auto.
        right. split; [|exact Hl]. left. eauto.
      * intros [H0|[[(e & He & Hm & ->)|Hon] Hl]]; auto.
        left. right. exists e. auto.
Qed.

Lemma mapM_scan_readable (readJar : string -> option (list string))
    (classpath : list string) st r :
  mapM (getWhitedListedClassesInJar readJar) classpath st = Ok r ->
  Forall (fun jarpath => is_Some (readJar jarpath)) classpath.
Proof.
  revert st r. induction classpath as [|jar cp IH]; intros st r; [constructor|].
  cbn [mapM]. intros H. apply bind_Ok in H as (l & st1 & H1 & H).
  apply bind_Ok in H as (ls & st2 & H2 & _).
  constructor; [|eapply IH, H2].
  unfold getWhitedListedClassesInJar in H1.
  destruct (readJar jar); [eauto | discriminate].
Qed.

Lemma setMerge_elem (l more : list string) (x : string) :
  x ∈ setMerge l more <-> x ∈ l \/ x ∈ more.
Proof.
  unfold setMerge. revert l. induction more as [|y more IH]; intros l; simpl.
  - rewrite elem_of_nil. tauto.
  - rewrite IH, elem_of_cons. case_bool_decide.
    + split; [tauto|]. intros [H0|[->|H0]]; auto.
    + rewrite elem_of_app, list_elem_of_singleton. tauto.
Qed.

Lemma foldl_setMerge_elem (found : list (list string)) (acc : list string) (x : string) :
  x ∈ foldl setMerge acc found <-> x ∈ acc \/ exists l, l ∈ found /\ x ∈ l.
Proof.
  revert acc. induction found as [|l found IH]; intros acc; simpl.
  - split; [now left|]. intros [H|(l & H & _)]; [exact H | now apply elem_of_nil in H].
  - rewrite IH, setMerge_elem. split.
    + intros [[H|H]|(l' & Hl' & H)]; auto.
      * right. exists l. split; [constructor | exact H].
      * right. exists l'. split; [now constructor | exact H].
    + intros [H|(l' & Hl' & H)]; auto.
      apply elem_of_cons in Hl' as [->|Hl']; [auto|]. right. eauto.
Qed.

Lemma preScanAllClasses_result (readJar : string -> option (list string)) st st' :
  preScanAllClasses readJar st = Ok (tt, st') ->
  st' = set_allClasses (allClasses st')
          (set_allExcludedClasses (allExcludedClasses st') st) /\
  (forall c, c ∈ allClasses st' <->
     onClassPath readJar (TsJavaOptions.classpath (options st)) c /\
     listed (includedPatterns st) c = true) /\
  (forall c, c ∈ allExcludedClasses st' <->
     c ∈ allExcludedClasses st \/
     (onClassPath readJar (TsJavaOptions.classpath (options st)) c /\
      listed (includedPatterns st) c = false)).
Proof.
  unfold preScanAllClasses. unfold bind at 1, read. intros H.
  apply bind_Ok in H as (found & st1 & Hscan & H).
  destruct (mapM_scan readJar _ st (mapM_scan_readable _ _ _ _ Hscan))
    as (found' & ex & Hscan' & Hfound & Hex).
  rewrite Hscan' in Hscan. injection Hscan as <- <-.
  unfold modify in H. injection H as <-. simpl.
  split; [reflexivity|]. split; [|exact Hex].
  intros c. rewrite elem_of_list_to_set, foldl_setMerge_elem, <- Hfound.
  split; [|auto]. intros [H|H]; [now apply elem_of_nil in H | exact H].
Qed.

(** The scan of the class path returns when every jar can be read. It
    changes the two sets of class names only. Afterwards the included
    classes are the classes on the class path that the white list admits,
    and the excluded classes are those excluded before and the classes on
    the class path that it does not admit; starting from no excluded class,
    no class is in both sets. *)
Theorem preScanAllClasses_partitions (readJar : string -> option (list string)) st :
  (Forall (fun jarpath => is_Some (readJar jarpath))
     (TsJavaOptions.classpath (options st)) ->
   exists st', preScanAllClasses readJar st = Ok (tt, st')) /\
  (forall st',
     preScanAllClasses readJar st = Ok (tt, st') ->
     st' = set_allClasses (allClasses st')
             (set_allExcludedClasses (allExcludedClasses st') st) /\
     (forall c, c ∈ allClasses st' <->
        onClassPath readJar (TsJavaOptions.classpath (options st)) c /\
        listed (includedPatterns st) c = true) /\
     (forall c, c ∈ allExcludedClasses st' <->
        c ∈ allExcludedClasses st \/
        (onClassPath readJar (TsJavaOptions.classpath (options st)) c /\
         listed (includedPatterns st) c = false)) /\
     (allExcludedClasses st = ∅ -> allClasses st' ## allExcludedClasses st')).
Proof.
  split.
  - intros Hall.
    destruct (mapM_scan readJar _ st Hall) as (found & ex & Hscan & _).
    eexists. unfold preScanAllClasses. unfold bind at 1, read.
    rewrite (bind_step _ _ _ _ _ Hscan). reflexivity.
  - intros st' H.
    destruct (preScanAllClasses_result readJar st st' H) as (Hframe & Hin & Hex).
    split; [exact Hframe|]. split; [exact Hin|]. split; [exact Hex|].
    intros Hempty c Hc Hc'. apply Hin in Hc as [_ Hc].
    apply Hex in Hc' as [Hc'|[_ Hc']]; [|congruence].
    rewrite Hempty in Hc'. now apply elem_of_empty in Hc'.
Qed.

(** ** Pruning the classes that are not public *)

(** A class is public for the mapper when it and every class that encloses
    it are declared public. *)
Lemma isPublicClass_chain (clazz : JavaClass) :
  isPublicClass clazz = true <->
  Forall (fun c => Modifier_isPublic (getModifiers c) = true) (enclosingChain clazz).
Proof.
  induction clazz as [clazz IH _ _] using JavaClass_induction.
  destruct clazz as [n m enclosing super intfs]. simpl in *.
  destruct (Modifier_isPublic m) eqn:Em.
  - destruct enclosing as [e|].
    + rewrite (IH e eq_refl). split.
      * intros H. now constructor.
      * intros H. now inversion H.
    + split; [intros _; repeat constructor; exact Em | reflexivity].
  - split; [discriminate|]. intros H. inversion H. simpl in *. congruence.
Qed.

Lemma foldlM_loadClass (classLoader : string -> option JavaClass) (names : list string)
    (classCache : gmap string JavaClass) (nonPublic : gset string) st :
  Forall (fun c => is_Some (classLoader c)) names ->
  exists classCache' nonPublic',
    foldlM (loadClass classLoader) (classCache, nonPublic) names st =
      Ok ((classCache', nonPublic'), st) /\
    (forall c, c ∈ nonPublic' <->
       c ∈ nonPublic \/ (c ∈ names /\ publicClass classLoader c = None)) /\
    (forall c, classCache' !! c =
       if bool_decide (c ∈ names)
       then match publicClass classLoader c with
            | Some clazz => Some clazz
            | None => classCache !! c
            end
       else classCache !! c).
Proof.
  intros Hall. revert classCache nonPublic.
  induction Hall as [|x names [clazz Hx] _ IH]; intros classCache nonPublic.
  - exists classCache, nonPublic. split; [reflexivity|]. split.
    + intros c. split; [now left|]. intros [H|[H _]]; [exact H|now apply elem_of_nil in H].
    + intros c. rewrite bool_decide_eq_false_2; [reflexivity | apply not_elem_of_nil].
  - cbn [foldlM]. unfold loadClass at 1. unfold bind. rewrite Hx.
    assert (Hpub : publicClass classLoader x =
                   if isPublicClass clazz then Some clazz else None)
      by (unfold publicClass; now rewrite Hx).
    destruct (isPublicClass clazz) eqn:Ep; unfold ret.
    + destruct (IH (<[x := clazz]> classCache) nonPublic)
        as (cache' & np' & H & Hnp & Hcache).
      exists cache', np'. split; [exact H|]. split.
      * intros c. rewrite Hnp, elem_of_cons. split.
        -- intros [H0|[H0 H1]]; auto.
        -- intros [H0|[[->|H0] H1]]; auto. congruence.
      * intros c. rewrite Hcache.
        destruct (decide (c = x)) as [->|Hne].
        -- rewrite (bool_decide_eq_true_2 (x ∈ x :: names)) by constructor.
           rewrite Hpub, lookup_insert_eq. now case_bool_decide.
        -- rewrite lookup_insert_ne by congruence.
           apply (f_equal (fun b : bool => if b then _ else _)).
           apply bool_decide_ext. rewrite elem_of_cons. tauto.
    + destruct (IH classCache (nonPublic ∪ {[x]})) as (cache' & np' & H & Hnp & Hcache).
      exists cache', np'. split; [exact H|]. split.
      * intros c. rewrite Hnp, elem_of_cons, elem_of_union, elem_of_singleton. split.
        -- intros [[H0| ->]|[H0 H1]]; auto.
        -- intros [H0|[[->|H0] H1]]; auto.
      * intros c. rewrite Hcache.
        destruct (decide (c = x)) as [->|Hne].
        -- rewrite (bool_decide_eq_true_2 (x ∈ x :: names)) by constructor.
           rewrite Hpub. now case_bool_decide.
        -- apply (f_equal (fun b : bool => if b then _ else _)).
           apply bool_decide_ext. rewrite elem_of_cons. tauto.
Qed.

Lemma foldlM_loadClass_found (classLoader : string -> option JavaClass)
    (names : list string) acc st r :
  foldlM (loadClass classLoader) acc names st = Ok r ->
  Forall (fun c => is_Some (classLoader c)) names.
Proof.
  revert acc st r. induction names as [|x names IH]; intros acc st r; [constructor|].
  cbn [foldlM]. intros H. apply bind_Ok in H as (acc1 & st1 & H1 & H).
  constructor; [|eapply IH, H].
  unfold loadClass in H1. destruct acc. destruct (classLoader x); [eauto|discriminate].
Qed.

Lemma loadClassCache_result (classLoader : string -> option JavaClass)
    (classCache classCache' : gmap string JavaClass) st st' :
  loadClassCache classLoader classCache st = Ok (classCache', st') ->
  st' = set_allClasses (allClasses st')
          (set_allExcludedClasses (allExcludedClasses st') st) /\
  (forall c, c ∈ allClasses st' <->
     c ∈ allClasses st /\ is_Some (publicClass classLoader c)) /\
  (forall c, c ∈ allExcludedClasses st' <->
     c ∈ allExcludedClasses st \/ (c ∈ allClasses st /\ c ∉ allClasses st')) /\
  (forall c, c ∈ allClasses st' -> classCache' !! c = classLoader c) /\
  (forall c, c ∉ allClasses st' -> classCache' !! c = classCache !! c).
Proof.
  unfold loadClassCache. unfold bind at 1, read. intros H.
  apply bind_Ok in H as ([cache np] & st1 & Hload & H).
  destruct (foldlM_loadClass classLoader _ classCache ∅ st
              (foldlM_loadClass_found _ _ _ _ _ Hload))
    as (cache' & np' & Hload' & Hnp & Hcache).
  rewrite Hload' in Hload. injection Hload as <- <- <-.
  unfold bind, modify, ret in H. injection H as <- <-. simpl.
  assert (Hnp' : forall c, c ∈ np' <-> c ∈ allClasses st /\ publicClass classLoader c = None).
  { intros c. rewrite Hnp, elem_of_elements. split; [|auto].
    intros [H|H]; [now apply elem_of_empty in H | exact H]. }
  assert (Hin : forall c, c ∈ allClasses st ∖ np' <->
                  c ∈ allClasses st /\ is_Some (publicClass classLoader c)).
  { intros c. rewrite elem_of_difference, Hnp'. split.
    - intros [H0 H1]. split; [exact H0|].
      destruct (publicClass classLoader c); [eauto | tauto].
    - intros [H0 [k H1]]. split; [exact H0|]. rewrite H1. intros [_ ?]. discriminate. }
  split; [reflexivity|]. split; [exact Hin|]. split; [|split].
  - intros c. rewrite elem_of_union, Hnp', Hin. split.
    + intros [H|[H0 H1]]; [now left|]. right. split; [exact H0|].
      rewrite H1. intros [_ [? ?]]. discriminate.
    + intros [H|[H0 H1]]; [now left|]. right. split; [exact H0|].
      destruct (publicClass classLoader c) eqn:E; [|reflexivity].
      destruct H1. eauto.
  - intros c Hc. apply Hin in Hc as [Hc [k Hk]]. rewrite Hcache.
    rewrite bool_decide_eq_true_2 by now apply elem_of_elements.
    rewrite Hk. unfold publicClass in Hk.
    destruct (classLoader c) as [clazz|]; [|discriminate].
    now destruct (isPublicClass clazz).
  - intros c Hc. rewrite Hcache. case_bool_decide as Hel; [|reflexivity].
    apply elem_of_elements in Hel.
    destruct (publicClass classLoader c) eqn:E; [|reflexivity].
    destruct Hc. apply Hin. eauto.
Qed.

(** Loading the classes returns when the class loader finds every included
    class. It changes the two sets of class names only, moving classes from
    the included to the excluded: a name the scan has seen stays a known
    name, and when no class was both included and excluded before, none is
    afterwards. *)
Theorem loadClassCache_keeps_names_known (classLoader : string -> option JavaClass)
    (classCache : gmap string JavaClass) st :
  ((forall c, c ∈ allClasses st -> is_Some (classLoader c)) ->
   exists classCache' st', loadClassCache classLoader classCache st = Ok (classCache', st')) /\
  (forall classCache' st',
     loadClassCache classLoader classCache st = Ok (classCache', st') ->
     st' = set_allClasses (allClasses st')
             (set_allExcludedClasses (allExcludedClasses st') st) /\
     allClasses st' ⊆ allClasses st /\
     allExcludedClasses st ⊆ allExcludedClasses st' /\
     (forall c, observed st' c = observed st c) /\
     (allClasses st ## allExcludedClasses st ->
      allClasses st' ## allExcludedClasses st')).
Proof.
  split.
  - intros Hall.
    destruct (foldlM_loadClass classLoader (elements (allClasses st)) classCache ∅ st)
      as (cache' & np' & Hload & _).
    { apply Forall_forall. intros c Hc. apply Hall. now apply elem_of_elements. }
    eexists _, _. unfold loadClassCache. unfold bind at 1, read.
    rewrite (bind_step _ _ _ _ _ Hload). reflexivity.
  - intros classCache' st' H.
    destruct (loadClassCache_result _ _ _ _ _ H) as (Hframe & Hin & Hex & _).
    split; [exact Hframe|].
    split; [intros c Hc; now apply Hin in Hc|].
    split; [intros c Hc; apply Hex; now left|].
    split.
    + intros c. unfold observed. apply eq_true_iff_eq.
      rewrite !orb_true_iff, !bool_decide_eq_true, Hex. split.
      * intros [H0|[H0|[H0 _]]]; auto. left. now apply Hin in H0.
      * intros [H0|H0]; [|auto].
        destruct (decide (c ∈ allClasses st')); auto.
    + intros Hdis c Hc Hc'. apply Hex in Hc' as [Hc'|[_ Hc']]; [|contradiction].
      apply Hin in Hc as [Hc _]. exact (Hdis c Hc Hc').
Qed.

(** After loading, the included classes are the classes included before that
    are declared public together with every class that encloses them, and
    [getClass] finds exactly these in the cache when it was empty before:
    for any other name it throws. *)
Theorem loadClassCache_keeps_public_classes (classLoader : string -> option JavaClass)
    (classCache' : gmap string JavaClass) st st' :
  loadClassCache classLoader ∅ st = Ok (classCache', st') ->
  (forall c, c ∈ allClasses st' <->
     c ∈ allClasses st /\
     exists clazz, classLoader c = Some clazz /\
       Forall (fun k => Modifier_isPublic (getModifiers k) = true)
              (enclosingChain clazz)) /\
  (forall c st2, c ∈ allClasses st' ->
     exists clazz, classLoader c = Some clazz /\
                   getClass classCache' c st2 = Ok (clazz, st2)) /\
  (forall c st2, c ∉ allClasses st' ->
     getClass classCache' c st2 = Throw ("java.lang.ClassNotFoundException:" +:+ c)).
Proof.
  intros H.
  destruct (loadClassCache_result _ _ _ _ _ H) as (_ & Hin & _ & Hhit & Hmiss).
  split; [|split].
  - intros c. rewrite Hin. unfold publicClass. split.
    + intros [Hc [k Hk]]. split; [exact Hc|].
      destruct (classLoader c) as [clazz|]; [|discriminate].
      exists clazz. split; [reflexivity|]. apply isPublicClass_chain.
      now destruct (isPublicClass clazz).
    + intros [Hc (clazz & -> & Hpub)]. split; [exact Hc|].
      apply isPublicClass_chain in Hpub. rewrite Hpub. eauto.
  - intros c st2 Hc. pose proof (Hhit c Hc) as Hcache.
    apply Hin in Hc as [_ [k Hk]]. unfold publicClass in Hk.
    destruct (classLoader c) as [clazz|] eqn:E; [|discriminate].
    exists clazz. split; [reflexivity|]. unfold getClass. now rewrite Hcache.
  - intros c st2 Hc. unfold getClass. rewrite (Hmiss c Hc), lookup_empty. reflexivity.
Qed.

(** ** Resolving the interfaces of a class *)

Lemma isIncludedClass_inclusion (className : string) st :
  isIncludedClass className st =
    match inclusion st className with
    | Some b => Ok (b, st)
    | None => Throw (className +:+ " is not a known className")
    end.
Proof.
  unfold isIncludedClass, inclusion, bind, read, ret.
  rewrite classNameOnly_spec. now destruct (observed st _).
Qed.
















(** ** The superclass of a class *)





(** ** Primitive types and type arguments *)

Lemma tableGet_None (table : list (string * string)) (k : string) :
  k ∉ table.*1 -> tableGet table k = None.
Proof.
  intros Hk. unfold tableGet.
  destruct (List.find _ table) as [[k' v]|] eqn:E; [|reflexivity].
  apply find_some in E as [Hin Heq]. simpl in Heq. apply String.eqb_eq in Heq as ->.
  destruct Hk. apply list_elem_of_fmap. exists (k, v). split; [reflexivity|].
  now apply list_elem_of_In.
Qed.

(** [translateIfPrimitiveType] changes the names of the eight Java primitive
    types and no other: a primitive becomes its TypeScript type for the
    context, any other name is returned as it is, and the mapper is left as
    it is. This is so for every name but the names of the properties that
    every object has, such as [constructor]: the tables of the translation
    are object literals, which have these too. *)
Theorem translateIfPrimitiveType_only_primitives (s : string) (context : ParamContext)
    st :
  s ∉ objectPrototypeKeys ->
  exists r,
    translateIfPrimitiveType s context st = Ok (r, st) /\
    (forall input output,
       (s, (input, output)) ∈ primitiveTypes ->
       r = match context with eInput => input | eReturn => output end) /\
    (s ∉ primitiveTypes.*1 -> r = s).
Proof.
  intros Hproto. unfold translateIfPrimitiveType, boxIfJavaPrimitive.
  unfold lookupIn at 1. rewrite (bool_decide_eq_false_2 _ Hproto).
  destruct (decide (s ∈ primitiveTypes.*1)) as [Hprim|Hprim].
  - unfold primitiveTypes in Hprim. simpl in Hprim.
    repeat (apply elem_of_cons in Hprim as [->|Hprim];
            [destruct context;
             (eexists; split; [vm_compute; reflexivity|];
              split; [|intros Hno; exfalso; apply Hno; is_member];
              intros input output Hin; unfold primitiveTypes in Hin;
              repeat (apply elem_of_cons in Hin as [Hin|Hin];
                      [try discriminate Hin; injection Hin as -> ->; reflexivity|]);
              now apply elem_of_nil in Hin)|]).
    now apply elem_of_nil in Hprim.
  - exists s. split; [|split; [|reflexivity]].
    + unfold bind at 1, ret at 1. rewrite tableGet_None by exact Hprim. simpl.
      unfold bind, ret. now rewrite String.eqb_refl.
    + intros input output Hin. exfalso. apply Hprim.
      apply list_elem_of_fmap. eexists. split; [|exact Hin]. reflexivity.
Qed.

Lemma splitLast_append (c : ascii) (l r : string) :
  without c r = true -> Str.splitLast c (l +:+ String c r) = Some (l, r).
Proof.
  intros Hr. induction l as [|a l IH].
  - rewrite append_empty_l. simpl. rewrite (splitLast_absent _ _ Hr).
    now rewrite Ascii.eqb_refl.
  - rewrite append_cons. simpl. now rewrite IH.
Qed.

Lemma last_append_char (s : string) (c : ascii) :
  Str.last (s +:+ String c "") = Some c.
Proof.
  induction s as [|a s IH]; [reflexivity|].
  rewrite append_cons. simpl. rewrite IH.
  destruct (s +:+ String c "") eqn:E; [|reflexivity].
  destruct s; discriminate E.
Qed.

Lemma oneLine_append (s t : string) :
  Str.oneLine (s +:+ t) = Str.oneLine s && Str.oneLine t.
Proof. apply forallb_append. Qed.

(** A name with type arguments denotes the name before them. *)
Lemma classNamePart_generic (className arguments : string) :
  Str.oneLine className = true -> Str.oneLine arguments = true ->
  without "<" arguments = true ->
  classNamePart (className +:+ "<" +:+ arguments +:+ ">") = className.
Proof.
  intros Hc Ha Hw. unfold classNamePart, genericTypeExp.
  rewrite !oneLine_append, Hc, Ha. simpl.
  change (className +:+ "<" +:+ arguments +:+ ">")
    with (className +:+ String "<" (arguments +:+ ">")).
  rewrite splitLast_append by (now rewrite without_append, Hw).
  now rewrite last_append_char.
Qed.

(** Type arguments are ignored by the tests for inclusion and exclusion: on
    a class name followed by type arguments in angle brackets they decide as
    on the class name alone. *)
Theorem type_arguments_ignored (className arguments : string) st :
  Str.oneLine className = true -> without "<" className = true ->
  Str.oneLine arguments = true -> without "<" arguments = true ->
  (forall b st',
     isIncludedClass (className +:+ "<" +:+ arguments +:+ ">") st = Ok (b, st') <->
     isIncludedClass className st = Ok (b, st')) /\
  isExcludedClass (className +:+ "<" +:+ arguments +:+ ">") st =
    isExcludedClass className st.
Proof.
  intros Hc Hwc Ha Hwa.
  pose proof (classNamePart_generic className arguments Hc Ha Hwa) as Hgen.
  assert (Hplain : classNamePart className = className).
  { unfold classNamePart, genericTypeExp.
    rewrite (splitLast_absent _ _ Hwc). now destruct (Str.oneLine className). }
  split.
  - intros b st'. rewrite !isIncludedClass_inclusion. unfold inclusion.
    rewrite Hgen, Hplain.
    destruct (observed st (fixGenericNestedTypeName className)); [reflexivity|].
    split; discriminate.
  - rewrite !isExcludedClass_spec. now rewrite Hgen, Hplain.
Qed.

Lemma type_arguments_ignored_witness :
  isExcludedClass "java.util.List<E>" afterScan = isExcludedClass "java.util.List" afterScan.
Proof.
  apply (proj2 (type_arguments_ignored "java.util.List" "E" afterScan
                  eq_refl eq_refl eq_refl eq_refl)).
Defined.

Lemma translateIfPrimitiveType_only_primitives_witness :
  ("int" ∉ objectPrototypeKeys) /\
  exists r,
    translateIfPrimitiveType "int" eReturn afterScan = Ok (r, afterScan) /\
    r = "number".
Proof.
  assert (Hproto : "int" ∉ objectPrototypeKeys) by not_member.
  split; [exact Hproto|].
  destruct (translateIfPrimitiveType_only_primitives "int" eReturn afterScan Hproto)
    as (r & Hrun & Hprim & _).
  exists r. split; [exact Hrun|].
  apply (Hprim "integer_t" "number").
  do 5 apply list_elem_of_further. apply list_elem_of_here.
Defined.

(** ** Nested classes with a repeated outer class *)

Lemma indexOf_append (c : ascii) (a b : string) :
  without c a = true -> indexOf c (a +:+ String c b) = Some (String.length a).
Proof.
  unfold without. induction a as [|x a IH]; intros H.
  - rewrite append_empty_l. simpl. now rewrite Ascii.eqb_refl.
  - simpl in H. apply andb_true_iff in H as [Hx Ha]. apply negb_true_iff in Hx.
    rewrite append_cons. simpl. now rewrite Hx, (IH Ha).
Qed.

Lemma substring_dropFirst (n : nat) (s : string) :
  s = String.substring 0 n s +:+ Str.dropFirst n s.
Proof.
  unfold Str.dropFirst. revert n. induction s as [|c s IH]; intros n.
  - now destruct n.
  - destruct n as [|n].
    + simpl. now rewrite substring_all.
    + simpl. rewrite append_cons. f_equal. apply IH.
Qed.

Lemma length_substring (n : nat) (s : string) :
  String.length (String.substring 0 n s) = Nat.min n (String.length s).
Proof.
  revert n. induction s as [|c s IH]; intros n; [now destruct n|].
  destruct n as [|n]; [reflexivity|]. simpl. now rewrite IH.
Qed.

Lemma startsWith_append (pre s : string) :
  Str.startsWith pre s = true -> s = pre +:+ Str.dropFirst (String.length pre) s.
Proof.
  revert s. induction pre as [|a pre IH]; intros s H.
  - unfold Str.dropFirst. simpl. rewrite Nat.sub_0_r. now rewrite substring_all.
  - destruct s as [|b s]; [discriminate|]. cbn [Str.startsWith] in H.
    apply andb_true_iff in H as [Hab Hs]. apply Ascii.eqb_eq in Hab as <-.
    rewrite append_cons. f_equal. exact (IH s Hs).
Qed.

Lemma startsWith_prefix (pre s : string) : Str.startsWith pre (pre +:+ s) = true.
Proof.
  induction pre as [|a pre IH]; [reflexivity|].
  rewrite append_cons. cbn [Str.startsWith]. now rewrite Ascii.eqb_refl, IH.
Qed.

Lemma wordOrDot_without_dollar (s : string) :
  Str.forallb wordOrDot s = true -> without "$" s = true.
Proof.
  apply forallb_weaken. intros c Hc.
  destruct (Ascii.eqb_spec c "$") as [->|_]; [discriminate Hc | reflexivity].
Qed.

(** A match of the expression decomposes the name. *)
Lemma nestedTypeAt_Some (n : nat) (s g t : string) :
  nestedTypeAt n s = Some (g, t) ->
  s = g +:+ "." +:+ g +:+ "$" +:+ t /\ String.length g = n /\
  Str.forallb wordOrDot g = true.
Proof.
  unfold nestedTypeAt.
  destruct (_ && _) eqn:E; [|discriminate]. intros [= <- <-].
  apply andb_true_iff in E as [E _]. apply andb_true_iff in E as [E _].
  apply andb_true_iff in E as [E Hstart]. apply andb_true_iff in E as [_ Hword].
  pose proof (substring_dropFirst n s) as Hs.
  pose proof (startsWith_append _ _ Hstart) as Hrest.
  assert (Hlen : String.length (String.substring 0 n s) = n).
  { rewrite length_substring. apply Nat.min_l.
    destruct (Nat.le_gt_cases n (String.length s)) as [|Hgt]; [assumption|].
    exfalso. unfold Str.dropFirst in Hstart.
    replace (String.length s - n)%nat with 0%nat in Hstart by lia.
    destruct s as [|c s]; [destruct n; discriminate Hstart|].
    destruct n as [|n]; [simpl in Hgt; lia|].
    assert (Hempty : forall m u, String.substring m 0 u = "")
      by (intros m u; revert m; induction u as [|x u IHu]; intros [|m];
          simpl; auto).
    rewrite Hempty in Hstart. discriminate Hstart. }
  split; [|split; [exact Hlen | exact Hword]].
  rewrite Hs at 1. f_equal. rewrite Hrest at 1.
  rewrite !length_append, Hlen. simpl.
  replace (S (n + 1)) with (n + 2)%nat by lia.
  now rewrite !append_assoc.
Qed.

Lemma nestedTypeAt_here (g t : string) :
  g <> "" -> Str.forallb wordOrDot g = true -> t <> "" -> Str.oneLine t = true ->
  nestedTypeAt (String.length g) (g +:+ "." +:+ g +:+ "$" +:+ t) = Some (g, t).
Proof.
  intros Hg Hw Ht Hl. unfold nestedTypeAt. unfold wordOrDot in Hw.
  rewrite substring_prefix, dropFirst_append.
  replace (String.length g + 2)%nat with (String.length ("." +:+ g +:+ "$"))
    by (rewrite !length_append; simpl; lia).
  replace ("." +:+ g +:+ "$" +:+ t) with (("." +:+ g +:+ "$") +:+ t)
    by (now rewrite !append_assoc).
  rewrite startsWith_prefix, dropFirst_append, Hw, Hl.
  replace (0 <? String.length g)%nat with true by (now destruct g).
  now destruct t.
Qed.

Lemma nestedTypeFrom_unique (g t : string) (m : nat) :
  g <> "" -> Str.forallb wordOrDot g = true -> t <> "" -> Str.oneLine t = true ->
  (String.length g <= m)%nat ->
  nestedTypeFrom m (g +:+ "." +:+ g +:+ "$" +:+ t) = Some (g, t).
Proof.
  intros Hg Hw Ht Hl. induction m as [|m IH]; intros Hm.
  - destruct g; [congruence | simpl in Hm; lia].
  - cbn [nestedTypeFrom].
    destruct (nestedTypeAt (S m) _) as [[g' t']|] eqn:E.
    + pose proof (nestedTypeAt_Some _ _ _ _ E) as (Hs & Hlen & Hw').
      assert (Hidx : String.length (g' +:+ "." +:+ g') = String.length (g +:+ "." +:+ g)).
      { assert (H1 : indexOf "$" (g +:+ "." +:+ g +:+ "$" +:+ t) =
                     Some (String.length (g +:+ "." +:+ g))).
        { replace (g +:+ "." +:+ g +:+ "$" +:+ t)
            with ((g +:+ "." +:+ g) +:+ String "$" t) by (now rewrite !append_assoc).
          apply indexOf_append. rewrite !without_append.
          now rewrite (wordOrDot_without_dollar _ Hw). }
        assert (H2 : indexOf "$" (g' +:+ "." +:+ g' +:+ "$" +:+ t') =
                     Some (String.length (g' +:+ "." +:+ g'))).
        { replace (g' +:+ "." +:+ g' +:+ "$" +:+ t')
            with ((g' +:+ "." +:+ g') +:+ String "$" t') by (now rewrite !append_assoc).
          apply indexOf_append. rewrite !without_append.
          now rewrite (wordOrDot_without_dollar _ Hw'). }
        rewrite Hs in H1 at 1. congruence. }
      rewrite !length_append in Hidx. simpl in Hidx.
      assert (Hsame : String.length g = S m) by lia.
      rewrite <- Hsame, nestedTypeAt_here in E by assumption.
      exact (eq_sym E).
    + apply IH.
      destruct (decide (String.length g = S m)) as [Heq|]; [|lia].
      rewrite <- Heq, nestedTypeAt_here in E by assumption. discriminate E.
Qed.

(** [fixGenericNestedTypeName] removes a repeated outer class: the name of a
    nested class written as the outer class, a dot, the outer class again, a
    dollar sign and the rest becomes the outer class, a dollar sign and the
    rest, whatever other ways there may seem to be to read the name. *)
Theorem fixGenericNestedTypeName_removes_outer (outer nested : string) :
  outer <> "" -> Str.forallb wordOrDot outer = true ->
  nested <> "" -> Str.oneLine nested = true ->
  fixGenericNestedTypeName (outer +:+ "." +:+ outer +:+ "$" +:+ nested) =
    outer +:+ "$" +:+ nested.
Proof.
  intros Ho Hw Hn Hl. unfold fixGenericNestedTypeName.
  rewrite nestedTypeFrom_unique; [reflexivity|assumption..|].
  rewrite !length_append. lia.
Qed.

Lemma fixGenericNestedTypeName_removes_outer_witness :
  fixGenericNestedTypeName "java.util.Map.java.util.Map$Entry" = "java.util.Map$Entry".
Proof.
  apply (fixGenericNestedTypeName_removes_outer "java.util.Map" "Entry");
    [discriminate | reflexivity | discriminate | reflexivity].
Defined.

(** ** The fields of a class *)

Lemma uniq_spec {A : Type} (key : A -> string) (array : list A) (seen : list string)
    (x : A) :
  x ∈ uniq key seen array <->
  (key x ∉ seen) /\
  exists before after, array = before ++ x :: after /\ key x ∉ key <$> before.
Proof.
  revert seen. induction array as [|y rest IH]; intros seen; simpl.
  - split; [intros H; now apply elem_of_nil in H|].
    intros (_ & b & a & H & _). now destruct b.
  - case_bool_decide as Hy.
    + rewrite IH. split.
      * intros (Hx & b & a & -> & Hb). split; [exact Hx|].
        exists (y :: b), a. split; [reflexivity|].
        rewrite fmap_cons, not_elem_of_cons. split; [congruence | exact Hb].
      * intros (Hx & b & a & H & Hb). split; [exact Hx|].
        destruct b as [|z b]; simpl in H; injection H as -> ->; [contradiction|].
        rewrite fmap_cons, not_elem_of_cons in Hb. exists b, a. tauto.
    + rewrite elem_of_cons, IH, not_elem_of_cons. split.
      * intros [->|((Hne & Hx) & b & a & -> & Hb)].
        -- split; [exact Hy|]. exists [], rest. split; [reflexivity|].
           rewrite fmap_nil. apply not_elem_of_nil.
        -- split; [exact Hx|]. exists (y :: b), a. split; [reflexivity|].
           rewrite fmap_cons, not_elem_of_cons. tauto.
      * intros (Hx & b & a & H & Hb).
        destruct b as [|z b]; simpl in H; injection H as -> ->; [now left|].
        rewrite fmap_cons, not_elem_of_cons in Hb. right.
        split; [tauto|]. exists b, a. tauto.
Qed.

Lemma uniq_NoDup {A : Type} (key : A -> string) (array : list A) (seen : list string) :
  NoDup (key <$> uniq key seen array).
Proof.
  revert seen. induction array as [|y rest IH]; intros seen; simpl; [constructor|].
  case_bool_decide as Hy; [apply IH|].
  rewrite fmap_cons. constructor; [|apply IH].
  intros Hin. apply list_elem_of_fmap in Hin as (x & Hk & Hx).
  apply uniq_spec in Hx as (Hx & _). apply Hx. rewrite <- Hk. constructor.
Qed.

Lemma uniq_covers {A : Type} (key : A -> string) (array : list A) (seen : list string)
    (x : A) :
  x ∈ array -> key x ∉ seen -> exists y, y ∈ uniq key seen array /\ key y = key x.
Proof.
  revert seen. induction array as [|z rest IH]; intros seen Hx Hseen.
  - now apply elem_of_nil in Hx.
  - simpl. case_bool_decide as Hz.
    + apply elem_of_cons in Hx as [->|Hx]; [contradiction | now apply IH].
    + destruct (decide (key z = key x)) as [E|E].
      * exists z. split; [constructor | exact E].
      * apply elem_of_cons in Hx as [->|Hx]; [congruence|].
        destruct (IH (key z :: seen) Hx) as (y & Hy & Hk).
        { rewrite not_elem_of_cons. split; [congruence | exact Hseen]. }
        exists y. split; [now constructor | exact Hk].
Qed.

Lemma filter_none {A : Type} (f : A -> bool) (l : list A) :
  (forall x, In x l -> f x = false) -> List.filter f l = [].
Proof.
  induction l as [|x l IH]; intros H; [reflexivity|]. simpl.
  rewrite (H x (or_introl eq_refl)). apply IH. intros y Hy. apply H. now right.
Qed.

(** Of the fields of a class [mapClassFields] keeps the instance fields that
    the class itself declares, and for each name of a static field the first
    static field of that name: no two static fields it keeps have the same
    name, and no static name is lost. *)
Theorem mapClassFields_no_duplicates (clazz : JavaClass)
    (allFieldDefs : list FieldDefinition.t) :
  (forall f, FieldDefinition.isStatic f = false ->
     (f ∈ mapClassFields clazz allFieldDefs <->
      f ∈ allFieldDefs /\ FieldDefinition.declaredIn f = getName clazz)) /\
  (forall f, FieldDefinition.isStatic f = true ->
     (f ∈ mapClassFields clazz allFieldDefs <->
      exists before after,
        List.filter FieldDefinition.isStatic allFieldDefs = before ++ f :: after /\
        FieldDefinition.name f ∉ FieldDefinition.name <$> before)) /\
  NoDup (FieldDefinition.name <$>
         List.filter FieldDefinition.isStatic (mapClassFields clazz allFieldDefs)) /\
  (forall f, f ∈ allFieldDefs -> FieldDefinition.isStatic f = true ->
     exists kept, kept ∈ mapClassFields clazz allFieldDefs /\
                  FieldDefinition.isStatic kept = true /\
                  FieldDefinition.name kept = FieldDefinition.name f).
Proof.
  unfold mapClassFields.
  set (instances := List.filter _ allFieldDefs).
  set (statics := List.filter FieldDefinition.isStatic allFieldDefs).
  assert (Hinst : forall f, f ∈ instances <->
            f ∈ allFieldDefs /\ FieldDefinition.isStatic f = false /\
            FieldDefinition.declaredIn f = getName clazz).
  { intros f. unfold instances. rewrite !list_elem_of_In, filter_In.
    rewrite andb_true_iff, negb_true_iff, String.eqb_eq. tauto. }
  assert (Hstat : forall f, f ∈ statics <->
            f ∈ allFieldDefs /\ FieldDefinition.isStatic f = true).
  { intros f. unfold statics. now rewrite !list_elem_of_In, filter_In. }
  assert (Hkept : forall f, f ∈ uniq FieldDefinition.name [] statics ->
                            FieldDefinition.isStatic f = true).
  { intros f Hf. apply uniq_spec in Hf as (_ & b & a & E & _).
    apply Hstat. rewrite E. apply elem_of_app. right. constructor. }
  split; [|split; [|split]].
  - intros f Hf. rewrite elem_of_app, Hinst. split.
    + intros [H|H]; [tauto|]. apply Hkept in H. congruence.
    + intros [H1 H2]. left. tauto.
  - intros f Hf. rewrite elem_of_app, Hinst, uniq_spec. split.
    + intros [(_ & H & _)|(_ & H)]; [congruence | exact H].
    + intros H. right. split; [apply not_elem_of_nil | exact H].
  - rewrite List.filter_app.
    rewrite (filter_none FieldDefinition.isStatic instances).
    + rewrite app_nil_l, forallb_filter_id; [apply uniq_NoDup|].
      apply forallb_forall. intros f Hf. apply Hkept. now apply list_elem_of_In.
    + intros f Hf. now apply list_elem_of_In, Hinst in Hf as (_ & Hf & _).
  - intros f Hf Hs.
    destruct (uniq_covers FieldDefinition.name statics [] f) as (kept & Hk & Hn).
    { apply Hstat. auto. }
    { apply not_elem_of_nil. }
    exists kept. split; [apply elem_of_app; now right|]. split; [now apply Hkept | exact Hn].
Qed.

Lemma mapClassFields_no_duplicates_witness :
  let fields := [field "MAX" "B" true; field "size" "B" false;
                 field "MAX" "A" true; field "count" "A" false] in
  mapClassFields List_class fields = [] ++ [field "MAX" "B" true] /\
  (field "MAX" "B" true ∈ mapClassFields List_class fields <->
   exists before after,
     List.filter FieldDefinition.isStatic fields = before ++ field "MAX" "B" true :: after /\
     FieldDefinition.name (field "MAX" "B" true) ∉ FieldDefinition.name <$> before).
Proof.
  intros fields. split; [reflexivity|].
  exact (proj1 (proj2 (mapClassFields_no_duplicates List_class fields))
           (field "MAX" "B" true) eq_refl).
Defined.

(** ** The steps of the initialization together *)

Lemma publicClass_declaredPublic (classLoader : string -> option JavaClass)
    (className : string) :
  is_Some (publicClass classLoader className) <-> declaredPublic classLoader className.
Proof.
  unfold publicClass, declaredPublic. destruct (classLoader className) as [clazz|].
  - split.
    + intros [k Hk]. exists clazz. split; [reflexivity|].
      apply isPublicClass_chain. now destruct (isPublicClass clazz).
    + intros (k & [= <-] & Hpub). apply isPublicClass_chain in Hpub.
      rewrite Hpub. eauto.
  - split; [intros [k Hk]; discriminate Hk | intros (k & Hk & _); discriminate Hk].
Qed.

Lemma preScanAllClasses_returns (readJar : string -> option (list string)) st :
  Forall (fun jarpath => is_Some (readJar jarpath))
    (TsJavaOptions.classpath (options st)) ->
  exists st', preScanAllClasses readJar st = Ok (tt, st').
Proof.
  intros Hall.
  destruct (mapM_scan readJar _ st Hall) as (found & ex & Hscan & _).
  eexists. unfold preScanAllClasses. unfold bind at 1, read.
  rewrite (bind_step _ _ _ _ _ Hscan). reflexivity.
Qed.

Lemma loadClassCache_returns (classLoader : string -> option JavaClass)
    (classCache : gmap string JavaClass) st :
  (forall c, c ∈ allClasses st -> is_Some (classLoader c)) ->
  exists classCache' st',
    loadClassCache classLoader classCache st = Ok (classCache', st').
Proof.
  intros Hall.
  destruct (foldlM_loadClass classLoader (elements (allClasses st)) classCache ∅ st)
    as (cache' & np' & Hload & _).
  { apply Forall_forall. intros c Hc. apply Hall. now apply elem_of_elements. }
  eexists _, _. unfold loadClassCache. unfold bind at 1, read.
  rewrite (bind_step _ _ _ _ _ Hload). reflexivity.
Qed.

(** The scan of the class path, the pruning of the classes that are not
    public and the mapping of the short names, run one after the other from
    a mapper without excluded classes. They return when every jar of the
    class path can be read and the class loader finds every class on the
    class path that the white list admits. Afterwards the included classes
    are the classes on the class path that the white list admits and that
    are declared public as are the classes enclosing them, the known names
    are the classes on the class path, no class is both included and
    excluded, the class cache holds every included class, and the
    short-name map is that of the included classes. *)
Theorem initialization_invariants (readJar : string -> option (list string))
    (classLoader : string -> option JavaClass) st :
  allExcludedClasses st = ∅ ->
  (Forall (fun jarpath => is_Some (readJar jarpath))
     (TsJavaOptions.classpath (options st)) ->
   (forall c, onClassPath readJar (TsJavaOptions.classpath (options st)) c ->
      listed (includedPatterns st) c = true -> is_Some (classLoader c)) ->
   exists classCache st',
     initializeScan readJar classLoader st = Ok (classCache, st')) /\
  (forall classCache st',
     initializeScan readJar classLoader st = Ok (classCache, st') ->
     (forall c, c ∈ allClasses st' <->
        onClassPath readJar (TsJavaOptions.classpath (options st)) c /\
        listed (includedPatterns st) c = true /\
        declaredPublic classLoader c) /\
     (forall c, observed st' c = true <->
        onClassPath readJar (TsJavaOptions.classpath (options st)) c) /\
     allClasses st' ## allExcludedClasses st' /\
     (forall c, c ∈ allClasses st' -> classCache !! c = classLoader c) /\
     exists map,
       shortToLongNameMap st' = Some map /\
       shortNamesOf (fun c => c ∈ allClasses st') map).
Proof.
  intros Hempty. split.
  - intros Hjars Hloads.
    destruct (preScanAllClasses_returns readJar st Hjars) as (st1 & Hscan).
    destruct (preScanAllClasses_result _ _ _ Hscan) as (_ & Hin1 & _).
    destruct (loadClassCache_returns classLoader ∅ st1) as (cache & st2 & Hload).
    { intros c Hc. apply Hin1 in Hc as [Hon Hl]. now apply Hloads. }
    destruct (createShortNameMap_returns st2) as (map & Hmap & _).
    eexists _, _. unfold initializeScan.
    rewrite (bind_step _ _ _ _ _ Hscan), (bind_step _ _ _ _ _ Hload),
      (bind_step _ _ _ _ _ Hmap). reflexivity.
  - intros classCache st' H. unfold initializeScan in H.
    apply bind_Ok in H as ([] & st1 & Hscan & H).
    apply bind_Ok in H as (cache & st2 & Hload & H).
    apply bind_Ok in H as ([] & st3 & Hmap & H).
    unfold ret in H. injection H as <- <-.
    destruct (preScanAllClasses_result _ _ _ Hscan) as (_ & Hin1 & Hex1).
    destruct (loadClassCache_result _ _ _ _ _ Hload) as (_ & Hin2 & Hex2 & Hhit & _).
    destruct (createShortNameMap_result _ _ Hmap) as (map & -> & Hspec).
    cbn [allClasses allExcludedClasses shortToLongNameMap set_shortToLongNameMap].
    assert (Hex1' : forall c, c ∈ allExcludedClasses st1 <->
              onClassPath readJar (TsJavaOptions.classpath (options st)) c /\
              listed (includedPatterns st) c = false).
    { intros c. rewrite Hex1, Hempty. split; [|auto].
      intros [Hc|Hc]; [now apply elem_of_empty in Hc | exact Hc]. }
    split; [|split; [|split; [|split]]].
    + intros c. rewrite Hin2, Hin1, publicClass_declaredPublic. tauto.
    + intros c. unfold observed.
      cbn [allClasses allExcludedClasses set_shortToLongNameMap].
      rewrite orb_true_iff, !bool_decide_eq_true, Hex2, Hex1', Hin2, Hin1. split.
      * intros [[[? _] _]|[[? _]|[[? _] _]]]; assumption.
      * intros Hon. destruct (listed (includedPatterns st) c) eqn:El; [|auto].
        destruct (publicClass classLoader c) as [clazz|] eqn:Ep.
        -- left. split; [auto | eauto].
        -- right. right. split; [auto|]. intros [_ [clazz Hclazz]]. discriminate Hclazz.
    + intros c Hc Hc'. apply Hex2 in Hc' as [Hc'|[_ Hc']]; [|contradiction].
      apply Hin2 in Hc as [Hc _]. apply Hin1 in Hc as [_ Hc].
      apply Hex1' in Hc' as [_ Hc']. congruence.
    + exact Hhit.
    + exists map. split; [reflexivity | exact Hspec].
Qed.

(** ** Instances *)

Lemma packageName_shortClassName_witness :
  without "." "Object" = true /\ packageName "Object" = "".
Proof.
  split; [reflexivity|].
  apply (proj2 (proj2 (proj2 (packageName_shortClassName "Object")))). reflexivity.
Defined.

Lemma fixClassPath_no_reserved_word_witness :
  Forall (fun part => part ∉ reservedWords) (split "." "java.util.List") /\
  fixClassPath "java.util.List" = "java.util.List".
Proof.
  assert (H : Forall (fun part => part ∉ reservedWords) (split "." "java.util.List")).
  { change (split "." "java.util.List") with ["java"; "util"; "List"].
    repeat constructor; not_member. }
  split; [exact H|].
  exact (proj1 (proj2 (proj2 (fixClassPath_no_reserved_word "java.util.List"))) H).
Defined.

Lemma splitParams_joins_back_witness :
  exists parts,
    splitParams "java.util.Map<K, V>,int" = Some parts /\
    String.concat "," parts = "java.util.Map<K, V>,int" /\
    Forall unsplittable parts /\
    (parts = [] <-> "java.util.Map<K, V>,int" = "").
Proof. exact (splitParams_joins_back "java.util.Map<K, V>,int"). Defined.

Lemma createShortNameMap_unique_owners_witness :
  exists map,
    createShortNameMap afterScan =
      Ok (tt, set_shortToLongNameMap (Some map) afterScan) /\
    shortNamesOf (fun c => c ∈ allClasses afterScan) map.
Proof.
  destruct (createShortNameMap_unique_owners afterScan) as (map & Hrun & Hspec & _).
  exists map. auto.
Defined.

(** Short names that every object has as a property: [constructor] is
    mapped to [null] although one class only has it, and the one class
    named [__proto__] leaves no property. *)
Example createShortNameMap_inherited_names :
  let st := scanned ["a.constructor"; "b.__proto__"; "java.lang.String"; "c.Number"]
              [] [] in
  exists map,
    createShortNameMap st = Ok (tt, set_shortToLongNameMap (Some map) st) /\
    map !! "constructor" = Some None /\
    map !! "__proto__" = None /\
    map !! "Number" = Some None /\
    map !! "String" = Some (Some "java.lang.String").
Proof.
  eexists. split; [vm_compute; reflexivity|].
  repeat split; vm_compute; reflexivity.
Qed.

Lemma createShortNameMap_afterScan :
  exists built, createShortNameMap afterScan = Ok (tt, built) /\
    getJavaAliasName "java.lang.String" built = Ok ("Java.String", built) /\
    getJavaAliasName "java.util.List" built = Ok ("Java.java.util.List", built).
Proof. eexists. split; [vm_compute; reflexivity|]. split; vm_compute; reflexivity. Qed.

Lemma aliases_do_not_collide_witness :
  exists built,
    createShortNameMap afterScan = Ok (tt, built) /\
    getJavaAliasName "java.lang.String" built = Ok ("Java.String", built) /\
    "java.lang.String" = "java.lang.String".
Proof.
  destruct createShortNameMap_afterScan as (built & Hbuilt & Halias & _).
  exists built. split; [exact Hbuilt|]. split; [exact Halias|].
  apply (aliases_do_not_collide afterScan built built
           "java.lang.String" "java.lang.String" "Java.String" built built
           Hbuilt eq_refl eq_refl); try exact Halias.
  - destruct (createShortNameMap_result afterScan built Hbuilt) as (map & -> & _).
    simpl. is_member.
  - destruct (createShortNameMap_result afterScan built Hbuilt) as (map & -> & _).
    simpl. is_member.
Defined.

(** The state of the examples of translation: the scan done, the short
    names mapped. *)
Lemma translation_example :
  exists st st',
    createShortNameMap afterScan = Ok (tt, st) /\
    mapM tsTypeNameInputEncoded
      ["java.lang.String"; "[Ljava.util.List;"; "com.example.Hidden"] st =
      Ok (["string_t"; "array_t<Java.java.util.List>"; "object_t"], st') /\
    tsTypeName "com.example.Hidden" eInput false st = Ok ("object_t", st').
Proof.
  eexists _, _. split; [vm_compute; reflexivity|].
  split; vm_compute; reflexivity.
Qed.

Lemma tsTypeName_never_any_witness :
  exists st st',
    tsTypeName "com.example.Hidden" eInput false st = Ok ("object_t", st') /\
    "object_t" <> "any".
Proof.
  destruct translation_example as (st & st' & _ & _ & H).
  exists st, st'. split; [exact H|].
  exact (tsTypeName_never_any _ _ _ _ _ _ H).
Defined.

Lemma tsTypeName_only_records_witness :
  exists st st',
    tsTypeName "com.example.Hidden" eInput false st = Ok ("object_t", st') /\
    st' = set_unhandledTypes (unhandledTypes st') st /\
    unhandledTypes st ⊆ unhandledTypes st'.
Proof.
  destruct translation_example as (st & st' & _ & _ & H).
  exists st, st'. split; [exact H|].
  exact (tsTypeName_only_records _ _ _ _ _ _ H).
Defined.

Lemma countArgsOfTypeAny_of_translations_witness :
  exists v, tsParamTypes v = ["string_t"; "array_t<Java.java.util.List>"; "object_t"] /\
            countArgsOfTypeAny v = 0%nat.
Proof.
  destruct translation_example as (st & st' & _ & H & _).
  pose (v := {| name := "add"; declared := "java.util.List"; returns := "void";
                paramTypes := ["java.lang.String"; "[Ljava.util.List;";
                               "com.example.Hidden"];
                tsParamTypes := ["string_t"; "array_t<Java.java.util.List>"; "object_t"];
                isStatic := false; generic_proto := "add"; signature := "add" |}).
  exists v. split; [reflexivity|].
  exact (countArgsOfTypeAny_of_translations v _ st st' H).
Defined.




Lemma jniDecodeType_without_flag_witness :
  Str.startsWith "[" "[I" = true /\
  jniDecodeType "[I" false afterScan = Abort "[I".
Proof.
  split; [reflexivity|].
  exact (proj2 (jniDecodeType_without_flag "[I" afterScan) eq_refl).
Defined.

Lemma anonymous_classes_not_whitelisted_witness :
  inWhiteList "java.util.List$1" afterScan = Ok (false, afterScan).
Proof.
  apply (anonymous_classes_not_whitelisted "java.util.List" "1" afterScan);
    [discriminate | reflexivity].
Defined.

Lemma configured_classes_whitelisted_witness :
  let opts := {| TsJavaOptions.classpath := []; TsJavaOptions.classes := ["com.example.Foo"];
                 TsJavaOptions.packages := ["java.util.*"];
                 TsJavaOptions.generics := false |} in
  exists st, constructor fragmentOnly opts = Ok st /\
             inWhiteList "com.example.Foo" st = Ok (true, st).
Proof.
  intros opts.
  destruct (configured_classes_whitelisted fragmentOnly opts) as [Hreturns Hlisted].
  destruct Hreturns as [st H].
  - repeat constructor. exists "java.util". split; [reflexivity|]. right. left. reflexivity.
  - repeat constructor.
  - exists st. split; [exact H|].
    apply (Hlisted st "com.example.Foo" H); [constructor | reflexivity].
Defined.

Lemma groupMethods_last_wins_witness :
  let flatList := [method "foo" "A" "foo()V"; method "__proto__" "A" "__proto__()V";
                   method "foo" "B" "foo()V"] in
  ~ is_Some (groupMethods flatList !! "__proto__") /\
  groupMethods flatList !! "foo" ≫= (fun d => d !! "foo()V") =
    Some (method "foo" "B" "foo()V").
Proof.
  cbv zeta.
  assert (Hkeys : Forall (fun m => plainKey (name m) = true)
                    [method "foo" "A" "foo()V"; method "__proto__" "A" "__proto__()V";
                     method "foo" "B" "foo()V"])
    by (repeat constructor).
  split.
  - intros H.
    apply (proj1 (groupMethods_last_wins _ "__proto__" "foo()V" Hkeys)) in H.
    now destruct H.
  - etransitivity; [apply (proj2 (groupMethods_last_wins _ "foo" "foo()V" Hkeys))|].
    vm_compute. reflexivity.
Defined.

Lemma interfacesTransitiveClosure_unmapped_interface_witness :
  exists x,
    Inherited (classes (mapped exampleTable)) ["Base"; "Missing"] x /\
    classes (mapped exampleTable) !! x = None /\
    interfacesTransitiveClosure 3 ["Base"; "Missing"] (mapped exampleTable) =
      Throw ("TypeError: Cannot read property of undefined: " +:+ x).
Proof.
  apply (interfacesTransitiveClosure_unmapped_interface 3 ["Base"; "Missing"] "Missing").
  - vm_compute. lia.
  - apply Inherited_direct. apply list_elem_of_further, list_elem_of_here.
  - reflexivity.
Defined.

Lemma exampleTable_keyed (c : string) (cd : ClassDefinition) (n : string)
    (d : VariantsBySignature) :
  exampleTable !! c = Some cd -> variantsDict cd !! n = Some d -> keyedBySignature d.
Proof.
  unfold exampleTable. intros Hc Hd.
  destruct (decide (c = "Base")) as [->|Hb].
  - rewrite lookup_insert_eq in Hc. injection Hc as <-. simpl in Hd.
    exact (proj1 (groupMethods_keyed _ _ _ Hd)).
  - rewrite lookup_insert_ne in Hc by congruence.
    destruct (decide (c = "java.lang.Object")) as [->|Ho].
    + rewrite lookup_insert_eq in Hc. injection Hc as <-. simpl in Hd.
      exact (proj1 (groupMethods_keyed _ _ _ Hd)).
    + rewrite lookup_insert_ne in Hc by congruence. now rewrite lookup_empty in Hc.
Qed.

Lemma exampleMerge :
  exists vd' st',
    mergeOverloadedVariants 3 derivedVariants ["Base"] (mapped exampleTable) =
      Ok (vd', st').
Proof.
  apply mergeOverloadedVariants_returns;
    [now apply cacheConsistent_blank | exact exampleTable_enoughFuel].
Qed.

Lemma mergeOverloadedVariants_keeps_keys_witness :
  exists vd' st',
    mergeOverloadedVariants 3 derivedVariants ["Base"] (mapped exampleTable) =
      Ok (vd', st') /\
    (forall n d, vd' !! n = Some d -> keyedBySignature d) /\
    (forall n, is_Some (vd' !! n) <-> is_Some (derivedVariants !! n)).
Proof.
  destruct exampleMerge as (vd' & st' & H).
  exists vd', st'. split; [exact H|].
  apply (mergeOverloadedVariants_keeps_keys 3 derivedVariants vd' ["Base"]
           (mapped exampleTable) st').
  - now apply cacheConsistent_blank.
  - intros n d Hd. exact (proj1 (groupMethods_keyed _ _ _ Hd)).
  - exact exampleTable_keyed.
  - exact H.
Defined.

Lemma mergeOverloadedVariants_only_caches_witness :
  exists vd' st',
    mergeOverloadedVariants 3 derivedVariants ["Base"] (mapped exampleTable) =
      Ok (vd', st') /\
    st' = set_interfaceDepthCache (interfaceDepthCache st') (mapped exampleTable) /\
    interfaceDepthCache (mapped exampleTable) ⊆ interfaceDepthCache st' /\
    cacheConsistent st'.
Proof.
  destruct exampleMerge as (vd' & st' & H).
  exists vd', st'. split; [exact H|].
  apply (mergeOverloadedVariants_only_caches 3 derivedVariants vd' ["Base"]
           (mapped exampleTable) st'); [now apply cacheConsistent_blank | exact H].
Defined.

Lemma scanningMapper :
  exists st, constructor fragmentOnly scanningOptions = Ok st /\
             options st = scanningOptions /\ allExcludedClasses st = ∅ /\
             listed (includedPatterns st) "java.util.List" = true /\
             listed (includedPatterns st) "java.util.List$1" = false /\
             listed (includedPatterns st) "java.io.File" = false.
Proof.
  eexists. split; [vm_compute; reflexivity|].
  split; [reflexivity|]. split; [reflexivity|].
  repeat split; vm_compute; reflexivity.
Qed.

Lemma oneJar_classFile (className path : string) :
  path +:+ ".class" ∈ ["META-INF/MANIFEST.MF"; "java/util/List.class";
                       "java/util/List$1.class"; "java/io/File.class"] ->
  list_ascii_of_string className = List.map dotForSlash (list_ascii_of_string path) ->
  onClassPath oneJar (TsJavaOptions.classpath scanningOptions) className.
Proof.
  intros Hin Hname. eexists "rt.jar", _, (path +:+ ".class").
  split; [constructor|]. split; [reflexivity|]. split; [exact Hin|].
  exists path. auto.
Qed.

Lemma preScanAllClasses_partitions_witness :
  exists st st',
    constructor fragmentOnly scanningOptions = Ok st /\
    preScanAllClasses oneJar st = Ok (tt, st') /\
    "java.util.List" ∈ allClasses st' /\
    "java.util.List$1" ∈ allExcludedClasses st' /\
    "java.io.File" ∈ allExcludedClasses st' /\
    allClasses st' ## allExcludedClasses st'.
Proof.
  destruct scanningMapper as (st & Hst & Hopts & Hex & HList & HList1 & HFile).
  destruct (preScanAllClasses_partitions oneJar st) as [Hreturns Hspec].
  destruct Hreturns as [st' H].
  { rewrite Hopts. repeat constructor. vm_compute. eauto. }
  exists st, st'. split; [exact Hst|]. split; [exact H|].
  destruct (Hspec st' H) as (_ & Hin & Hout & Hdisjoint). rewrite Hopts in Hin, Hout.
  split; [|split; [|split; [|exact (Hdisjoint Hex)]]].
  - apply Hin. split; [|exact HList].
    apply (oneJar_classFile _ "java/util/List"); [|reflexivity].
    apply list_elem_of_further, list_elem_of_here.
  - apply Hout. right. split; [|exact HList1].
    apply (oneJar_classFile _ "java/util/List$1"); [|reflexivity].
    do 2 apply list_elem_of_further. apply list_elem_of_here.
  - apply Hout. right. split; [|exact HFile].
    apply (oneJar_classFile _ "java/io/File"); [|reflexivity].
    do 3 apply list_elem_of_further. apply list_elem_of_here.
Defined.

Lemma beforeLoading_found (c : string) :
  c ∈ allClasses beforeLoading -> is_Some (exampleLoader c).
Proof.
  intros H. unfold beforeLoading, scanned in H. cbn [allClasses] in H.
  apply elem_of_list_to_set in H.
  repeat (apply elem_of_cons in H as [->|H]; [vm_compute; eauto|]).
  now apply elem_of_nil in H.
Qed.

Lemma loadClassCache_keeps_names_known_witness :
  exists classCache' st',
    loadClassCache exampleLoader ∅ beforeLoading = Ok (classCache', st') /\
    allClasses st' ⊆ allClasses beforeLoading /\
    (forall c, observed st' c = observed beforeLoading c) /\
    allClasses st' ## allExcludedClasses st'.
Proof.
  destruct (loadClassCache_keeps_names_known exampleLoader ∅ beforeLoading)
    as [Hreturns Hspec].
  destruct (Hreturns beforeLoading_found) as (classCache' & st' & H).
  exists classCache', st'. split; [exact H|].
  destruct (Hspec classCache' st' H) as (_ & Hsub & _ & Hobs & Hdis).
  split; [exact Hsub|]. split; [exact Hobs|].
  apply Hdis. intros c _ Hc. unfold beforeLoading, scanned in Hc.
  cbn [allExcludedClasses] in Hc. apply elem_of_list_to_set in Hc.
  now apply elem_of_nil in Hc.
Defined.

Lemma loadClassCache_example :
  exists classCache' st',
    loadClassCache exampleLoader ∅ beforeLoading = Ok (classCache', st').
Proof. eexists _, _. vm_compute. reflexivity. Qed.

Lemma loadClassCache_keeps_public_classes_witness :
  exists classCache' st',
    loadClassCache exampleLoader ∅ beforeLoading = Ok (classCache', st') /\
    ("com.example.Hidden$Inner" ∈ allClasses beforeLoading) /\
    ("com.example.Hidden$Inner" ∉ allClasses st') /\
    forall st2, getClass classCache' "com.example.Hidden$Inner" st2 =
      Throw "java.lang.ClassNotFoundException:com.example.Hidden$Inner".
Proof.
  destruct loadClassCache_example as (classCache' & st' & H).
  exists classCache', st'. split; [exact H|].
  destruct (loadClassCache_keeps_public_classes exampleLoader classCache'
              beforeLoading st' H) as (Hin & _ & Hmiss).
  assert (Hout : "com.example.Hidden$Inner" ∉ allClasses st').
  { intros Hc. apply Hin in Hc as (_ & clazz & Hclazz & Hpub).
    vm_compute in Hclazz. injection Hclazz as <-.
    inversion Hpub as [|? ? _ Hrest]; subst.
    inversion Hrest as [|? ? Hhidden _]; subst. discriminate Hhidden. }
  split; [is_member|]. split; [exact Hout|].
  intros st2. exact (Hmiss _ st2 Hout).
Defined.








Lemma oneJar_loadable (st : ClassesMap) (c : string) :
  listed (includedPatterns st) "java.util.List$1" = false ->
  listed (includedPatterns st) "java.io.File" = false ->
  onClassPath oneJar (TsJavaOptions.classpath scanningOptions) c ->
  listed (includedPatterns st) c = true -> is_Some (jarLoader c).
Proof.
  intros HList1 HFile (j & es & e & Hj & Hes & He & Hc) Hl.
  apply list_elem_of_singleton in Hj as ->. injection Hes as <-.
  apply classFile_scanned in Hc as [Hm ->].
  repeat (apply elem_of_cons in He as [->|He]).
  - discriminate Hm.
  - vm_compute. eauto.
  - change (classNameOfEntry "java/util/List$1.class") with "java.util.List$1" in Hl.
    congruence.
  - change (classNameOfEntry "java/io/File.class") with "java.io.File" in Hl.
    congruence.
  - now apply elem_of_nil in He.
Qed.

Lemma initialization_invariants_witness :
  exists st classCache st',
    constructor fragmentOnly scanningOptions = Ok st /\
    initializeScan oneJar jarLoader st = Ok (classCache, st') /\
    "java.util.List" ∈ allClasses st' /\
    observed st' "java.io.File" = true /\
    allClasses st' ## allExcludedClasses st'.
Proof.
  destruct scanningMapper as (st & Hst & Hopts & Hempty & HList & HList1 & HFile).
  destruct (initialization_invariants oneJar jarLoader st Hempty) as [Hreturns Hspec].
  rewrite Hopts in Hreturns, Hspec.
  destruct Hreturns as (classCache & st' & H).
  { repeat constructor. vm_compute. eauto. }
  { intros c. now apply oneJar_loadable. }
  exists st, classCache, st'. split; [exact Hst|]. split; [exact H|].
  destruct (Hspec classCache st' H) as (Hin & Hknown & Hdisjoint & _).
  split; [|split; [|exact Hdisjoint]].
  - apply Hin. split; [|split; [exact HList|]].
    + apply (oneJar_classFile _ "java/util/List"); [|reflexivity].
      apply list_elem_of_further, list_elem_of_here.
    + exists List_class. split; [reflexivity|]. repeat constructor.
  - apply Hknown.
    apply (oneJar_classFile _ "java/io/File"); [|reflexivity].
    do 3 apply list_elem_of_further. apply list_elem_of_here.
Defined.

(** A nested class whose outer class has the name of its package, found by
    the scan and public: it is an included class, and asking whether it is
    included throws. *)
Example nested_class_rejected_after_scan :
  let opts := {| TsJavaOptions.classpath := ["app.jar"]; TsJavaOptions.classes := [];
                 TsJavaOptions.packages := ["a.*"]; TsJavaOptions.generics := false |} in
  let readJar := fun _ : string => Some ["a/a.class"; "a/a$b.class"] in
  let outer := Reflected "a.a" 1 None None [] in
  let classLoader := fun className : string =>
    if String.eqb className "a.a" then Some outer
    else Some (Reflected "a.a$b" 1 (Some outer) None []) in
  exists st classCache st',
    constructor fragmentOnly opts = Ok st /\
    initializeScan readJar classLoader st = Ok (classCache, st') /\
    "a.a$b" ∈ allClasses st' /\
    isIncludedClass "a.a" st' = Ok (true, st') /\
    isIncludedClass "a.a$b" st' = Throw "a.a$b is not a known className".
Proof.
  cbv zeta. eexists _, _, _. split; [vm_compute; reflexivity|].
  split; [vm_compute; reflexivity|].
  split; [is_member|]. split; vm_compute; reflexivity.
Qed.
